(** * Protobuf reflection runtime: descriptor registry and message binder

    A shallow embedding of

    - [protoregistry] (the [Files] registry: [NewFiles], [Register],
      [FindDescriptorByName], the [RangeFiles*] family), and
    - [internal/impl] (the [MessageType] binder with [init],
      [generateFieldFuncs] and [MessageOf], the [message] view and the
      [knownFields] facade with [Len] and [Range], and [offsetOf], [apply]
      and [asType] of the reflection-based [pointer]),

    together with the properties checked against them.

    Conventions.  A Go map is a [gmap]; reading a nil map behaves as reading
    the empty map, and the two are identified.  A panic is the [Panic]
    outcome of the [result] monad: it aborts the operation and carries the
    message.  Code that mutates through a pointer is written in
    state-passing style and returns the updated object.  A loop that
    consumes a string is a recursion on a number of rounds that is proved
    sufficient.  What the packages [sort], [strings], [strconv] and
    [reflect] do is written down as far as the code relies on it.  The
    descriptors of [protoreflect] and the field dispatchers of
    message_field.go are not part of the sources embedded here; their
    definitions say so and follow the specification. *)

From Stdlib Require Import ZArith Ascii String Sorted.
From stdpp Require Import gmap strings list fin_maps.

Local Open Scope string_scope.

(** ** Go strings

    A Go string is a sequence of bytes, as is a Rocq [string]; Go's [<] on
    strings is the bytewise lexicographic order, as is [String.compare]. *)

Module GoStrings.

(** [strings.IndexByte]: index of the first occurrence of [c], or -1. *)
Fixpoint IndexByte (s : string) (c : ascii) : Z :=
  match s with
  | EmptyString => (-1)%Z
  | String a s' =>
      if Ascii.eqb a c then 0%Z
      else let i := IndexByte s' c in
           if (i <? 0)%Z then (-1)%Z else (i + 1)%Z
  end.

(** [s[:i]] and [s[i:]]. *)
Definition sliceTo (s : string) (i : nat) : string := substring 0 i s.
Definition sliceFrom (s : string) (i : nat) : string :=
  substring i (String.length s - i) s.

(** [strings.HasSuffix] and [strings.TrimSuffix]. *)
Definition HasSuffix (s suffix : string) : bool :=
  (String.length suffix <=? String.length s)%nat &&
  String.eqb (sliceFrom s (String.length s - String.length suffix)) suffix.

Definition TrimSuffix (s suffix : string) : string :=
  if HasSuffix s suffix
  then sliceTo s (String.length s - String.length suffix)
  else s.

(** [a < b] and [a >= b] on strings. *)
Definition lt (a b : string) : bool := String.ltb a b.
Definition ge (a b : string) : bool := negb (String.ltb a b).

End GoStrings.

(** ** Package [sort]

    [sort.Search] is Go's binary search, transcribed; the loop halves the
    interval, so [n] rounds always suffice.  [sort.Slice] is taken by its
    contract (the slice ends up sorted by [less]) and realised as an
    insertion sort. *)

Module GoSort.

Fixpoint searchLoop (fuel : nat) (f : nat → bool) (i j : nat) : nat :=
  match fuel with
  | O => i
  | S fuel' =>
      if (i <? j)%nat then
        let h := ((i + j) / 2)%nat in
        if negb (f h) then searchLoop fuel' f (h + 1) j
        else searchLoop fuel' f i h
      else i
  end.

Definition Search (n : nat) (f : nat → bool) : nat := searchLoop n f 0 n.

Fixpoint insertSorted (x : string) (l : list string) : list string :=
  match l with
  | [] => [x]
  | y :: l' => if GoStrings.lt y x then y :: insertSorted x l' else x :: l
  end.

Definition Slice (l : list string) : list string :=
  foldr insertSorted [] l.

End GoSort.

(** ** Package [protoreflect]: the descriptors the registry reads *)

Abbreviation Name := string.
Abbreviation FullName := string.

(** Modelled from the spec: [protoreflect.Descriptor], declared outside
    the sources at hand.  A descriptor found by name is kept as its full
    name and the path of the file that owns it. *)
Record Descriptor := mkDescriptor {
  descFullName : FullName;
  descFile : string }.

Record EnumDescriptor := mkEnum {
  enumName : Name;
  enumValues : list Name }.

(** Modelled from the spec: [protoreflect.FileDescriptor], an interface
    declared outside the sources at hand: package name, file path and the
    set of top-level declared names (enums with their values, messages,
    extensions, services).  A file is the record of what its methods
    answer; [Messages], [Extensions] and [Services] are read by [Register]
    only for the names of their elements, and [DescriptorByName] is the
    file's own answer to a full name. *)
Record FileDescriptor := mkFile {
  Path : string;
  Package : FullName;
  IsPlaceholder : bool;
  Enums : list EnumDescriptor;
  Messages : list Name;
  Extensions : list Name;
  Services : list Name;
  DescriptorByName : FullName → option Descriptor }.

(** Modelled from the spec: [FullName.Append] is declared with the
    descriptors, outside the sources at hand; a conflict error identifies
    "the conflicting full name", the package joined to the declared name by
    a dot (the bare name in the empty package). *)
Definition Append (n : FullName) (s : Name) : FullName :=
  if String.eqb n "" then s else n ++ "." ++ s.

(** ** Package [protoregistry] *)

(** Errors of the registry: the [NotFound] sentinel and the conflict error
    [file %q has a name conflict over %v]. *)
Inductive error :=
  | NotFound
  | NameConflict (path : string) (name : FullName).

(** What a [*filesByPackage] stored in [subs] points to: the
    [notProtoPackage] sentinel, or a sub-package node.  An absent key reads
    as the nil pointer. *)
Inductive sub (A : Type) :=
  | notProtoPackage
  | subPackage (a : A).
Arguments notProtoPackage {A}.
Arguments subPackage {A} a.

#[warnings="-register-all"]
Inductive filesByPackage := mkFilesByPackage {
  files : list FileDescriptor;
  subs : gmap Name (sub filesByPackage) }.

Abbreviation filesByPath := (gmap string (list FileDescriptor)).

Record Files := mkFiles {
  Files_filesByPackage : filesByPackage;
  Files_filesByPath : filesByPath }.

(** [new(filesByPackage)] and [new(Files)]. *)
Definition newFilesByPackage : filesByPackage := mkFilesByPackage [] ∅.
Definition newFiles : Files := mkFiles newFilesByPackage ∅.

(** The node a [subs] entry points to; the sentinel is an empty node. *)
Definition deref (p : sub filesByPackage) : filesByPackage :=
  match p with
  | notProtoPackage => newFilesByPackage
  | subPackage n => n
  end.

Definition splitPrefix (name : FullName) : Name * FullName :=
  let i := GoStrings.IndexByte name "." in
  if (0 <=? i)%Z
  then (GoStrings.sliceTo name (Z.to_nat i),
        GoStrings.sliceFrom name (Z.to_nat i + 1))
  else (name, "").

(** [rangeTopLevelDeclarations] calls [f] on every top-level name of the
    file: each enum followed by its values, then messages, extensions and
    services.  The callback's effect is threaded as a state. *)
Definition rangeTopLevelDeclarations {St : Type}
    (fd : FileDescriptor) (f : Name → St → St) (s : St) : St :=
  let s := fold_left
             (λ s e, fold_left (λ s v, f v s) (enumValues e) (f (enumName e) s))
             (Enums fd) s in
  let s := fold_left (λ s m, f m s) (Messages fd) s in
  let s := fold_left (λ s x, f x s) (Extensions fd) s in
  fold_left (λ s x, f x s) (Services fd) s.

(** The names in the order [rangeTopLevelDeclarations] visits them. *)
Definition topLevelDeclarations (fd : FileDescriptor) : list Name :=
  rangeTopLevelDeclarations fd (λ s acc, acc ++ [s])%list [].

(** *** Register *)

(** First pass over the declarations at the package node: a free name is
    marked with the sentinel, a taken one is appended to [conflicts]. *)
Definition markDeclaration (s : Name)
    (st : gmap Name (sub filesByPackage) * list Name)
    : gmap Name (sub filesByPackage) * list Name :=
  match st.1 !! s with
  | None => (<[s := notProtoPackage]> st.1, st.2)
  | Some _ => (st.1, (st.2 ++ [s])%list)
  end.

(** [conflicts[i]]; every use is at an index below [len(conflicts)]. *)
Definition at_index (conflicts : list Name) (i : nat) : Name :=
  default "" (conflicts !! i).

(** Second pass, run when there are conflicts: every declared name that the
    binary search does not find among the sorted conflicts is deleted. *)
Definition unmarkDeclaration (conflicts : list Name) (s : Name)
    (m : gmap Name (sub filesByPackage)) : gmap Name (sub filesByPackage) :=
  let i := GoSort.Search (length conflicts)
             (λ i, GoStrings.ge (at_index conflicts i) s) in
  let has := (i <? length conflicts)%nat && String.eqb (at_index conflicts i) s in
  if negb has then delete s m else m.

(** The part of the loop body after the package walk, at the node [root] of
    the file's package. *)
Definition registerAtPackage (file : FileDescriptor) (root : filesByPackage)
    : filesByPackage * option error :=
  let '(subs1, conflicts) :=
    rangeTopLevelDeclarations file markDeclaration (subs root, []) in
  if (0 <? length conflicts)%nat then
    let conflicts := GoSort.Slice conflicts in
    let subs2 := rangeTopLevelDeclarations file (unmarkDeclaration conflicts) subs1 in
    (mkFilesByPackage (files root) subs2,
     Some (NameConflict (Path file) (Append (Package file) (at_index conflicts 0))))
  else
    (mkFilesByPackage (files root ++ [file]) subs1, None).

(** The package walk of [Register], one dotted segment per round, followed
    by [registerAtPackage] at the node reached.  The Go loop moves a pointer
    down the trie and mutates in place; here every round returns its node
    rebuilt around the updated child.  A missing segment gets a fresh node,
    which stays in the parent whatever happens below.  Every round shortens
    [pkg], so [String.length pkg + 1] rounds are enough; [None] is running
    out of rounds. *)
Fixpoint registerWalk (fuel : nat) (file : FileDescriptor) (pkg : FullName)
    (root : filesByPackage) : option (filesByPackage * option error) :=
  match fuel with
  | O => None
  | S fuel' =>
      if (0 <? String.length pkg)%nat then
        let '(prefix, pkg') := splitPrefix pkg in
        match subs root !! prefix with
        | None =>
            '(next, err) ← registerWalk fuel' file pkg' newFilesByPackage;
            Some (mkFilesByPackage (files root)
                    (<[prefix := subPackage next]> (subs root)), err)
        | Some notProtoPackage =>
            let name :=
              GoStrings.TrimSuffix
                (GoStrings.TrimSuffix (Package file) pkg') "." in
            Some (root, Some (NameConflict (Path file) name))
        | Some (subPackage nextRoot) =>
            '(next, err) ← registerWalk fuel' file pkg' nextRoot;
            Some (mkFilesByPackage (files root)
                    (<[prefix := subPackage next]> (subs root)), err)
        end
      else Some (registerAtPackage file root)
  end.

(** One round of [fileLoop]: the registry after the round, and the error
    the round would store in [firstErr].  The walk is given rounds enough,
    so its [None] does not arise ([registerWalk_total]). *)
Definition registerFile (r : Files) (file : FileDescriptor)
    : Files * option error :=
  if IsPlaceholder file then (r, None)
  else
    match registerWalk (S (String.length (Package file))) file (Package file)
            (Files_filesByPackage r) with
    | Some (root, Some err) => (mkFiles root (Files_filesByPath r), Some err)
    | Some (root, None) =>
        (mkFiles root
           (<[Path file :=
              (default [] (Files_filesByPath r !! Path file) ++ [file])%list]>
              (Files_filesByPath r)),
         None)
    | None => (r, None)
    end.

(** [fileLoop] with its accumulator [firstErr], which keeps the first error
    stored into it. *)
Fixpoint registerLoop (r : Files) (firstErr : option error)
    (files : list FileDescriptor) : Files * option error :=
  match files with
  | [] => (r, firstErr)
  | file :: rest =>
      let '(r', err) := registerFile r file in
      registerLoop r' (if firstErr is Some _ then firstErr else err) rest
  end.

Definition Register (r : Files) (files : list FileDescriptor)
    : Files * option error :=
  registerLoop r None files.

(** [NewFiles]: a fresh registry with the files registered, errors ignored. *)
Definition NewFiles (files : list FileDescriptor) : Files :=
  (Register newFiles files).1.

(** *** Lookups

    The receiver of the lookups is a [*Files] that may be nil: [None]. *)

(** The scan of [root.files] at the node holding the declaration. *)
Fixpoint searchFiles (fds : list FileDescriptor) (name : FullName)
    : option Descriptor * option error :=
  match fds with
  | [] => (None, Some NotFound)
  | fd :: rest =>
      match DescriptorByName fd name with
      | Some d => (Some d, None)
      | None => searchFiles rest name
      end
  end.

(** The walk of [FindDescriptorByName]; [None] is running out of rounds. *)
Fixpoint findWalk (fuel : nat) (name pkg : FullName) (root : filesByPackage)
    : option (option Descriptor * option error) :=
  match fuel with
  | O => None
  | S fuel' =>
      if (0 <? String.length pkg)%nat then
        let '(prefix, pkg') := splitPrefix pkg in
        match subs root !! prefix with
        | None => Some (None, Some NotFound)
        | Some notProtoPackage => Some (searchFiles (files root) name)
        | Some (subPackage nextRoot) => findWalk fuel' name pkg' nextRoot
        end
      else Some (None, Some NotFound)
  end.

(** The walk is given rounds enough ([findWalk_total]); the [default] is
    never taken. *)
Definition FindDescriptorByName (r : option Files) (name : FullName)
    : option Descriptor * option error :=
  match r with
  | None => (None, Some NotFound)
  | Some r =>
      default (None, Some NotFound)
        (findWalk (S (String.length name)) name name (Files_filesByPackage r))
  end.

(** A callback [func(FileDescriptor) bool] with its captured variables as
    the state [St]: it answers whether to go on and leaves a new state. *)
Definition callback (St : Type) := FileDescriptor → St → bool * St.

(** A [for _, fd := range fds] loop that stops when the callback
    answers false; the result says whether it ran to the end. *)
Fixpoint rangeSlice {St : Type} (fds : list FileDescriptor) (f : callback St)
    (s : St) 
    : bool * St :=
  match fds with
  | [] => (true, s)
  | fd :: rest =>
      let '(continue, s') := f fd s in
      if continue then rangeSlice rest f s' else (false, s')
  end.

(** [rangeFiles] on a node: the exact matches, then every entry of [subs].
    Go leaves the order of a map range undefined; the model visits the
    entries in the order [map_fold] enumerates them.  The sentinel is an
    empty node: visiting it calls nothing. *)
Fixpoint rangeFiles {St : Type} (fs : filesByPackage) (f : callback St) (s : St)
    
    : bool * St :=
  let '(continue, s1) := rangeSlice (files fs) f s in
  if continue then
    map_fold
      (λ _ p (acc 
    : bool * St),
         if acc.1 then
           match p with
           | notProtoPackage => acc
           | subPackage child => rangeFiles child f acc.2
           end
         else acc)
      (true, s1) (subs fs)
  else (false, s1).

(** The descent of [RangeFilesByPackage]: [root] is a pointer that becomes
    nil at a missing segment, which ends the loop. *)
Fixpoint rangeWalk (fuel : nat) (pkg : FullName) (root : option filesByPackage)
    : option (option filesByPackage) :=
  match fuel with
  | O => None
  | S fuel' =>
      match root with
      | Some node =>
          if (0 <? String.length pkg)%nat then
            let '(prefix, pkg') := splitPrefix pkg in
            rangeWalk fuel' pkg' (deref <$> (subs node !! prefix))
          else Some root
      | None => Some root
      end
  end.

Definition RangeFilesByPackage {St : Type} (r : option Files) (pkg : FullName)
    (f : callback St) (s : St) : St :=
  match r with
  | None => s
  | Some r =>
      if GoStrings.HasSuffix pkg "." then s
      else
        match rangeWalk (S (String.length pkg)) pkg
                (Some (Files_filesByPackage r)) with
        | Some (Some root) => (rangeFiles root f s).2
        | _ => s
        end
  end.

Definition RangeFiles {St : Type} (r : option Files) (f : callback St) (s : St)
    : St :=
  RangeFilesByPackage r "" f s.

Definition RangeFilesByPath {St : Type} (r : option Files) (path : string)
    (f : callback St) (s : St) : St :=
  match r with
  | None => s
  | Some r => (rangeSlice (default [] (Files_filesByPath r !! path)) f s).2
  end.

(** A callback instrumented to log the files it is called with. *)
Definition logging {St : Type} (f : callback St)
    : callback (list FileDescriptor * St) :=
  λ fd st, let '(continue, s') := f fd st.2 in (continue, ((st.1 ++ [fd])%list, s')).

(** The callback that visits everything. *)
Definition visitAll : callback unit := λ _ s, (true, s).

(** *** Notions used to state the registry's properties *)

(** [packageNode root pkg node]: the package walk of [pkg] from [root]
    passes only through sub-package nodes and ends at [node]. *)
Inductive packageNode : filesByPackage → FullName → filesByPackage → Prop :=
  | packageNode_here root :
      packageNode root "" root
  | packageNode_step root pkg prefix pkg' child node :
      pkg ≠ "" →
      splitPrefix pkg = (prefix, pkg') →
      subs root !! prefix = Some (subPackage child) →
      packageNode child pkg' node →
      packageNode root pkg node.

(** A file collides with the registry when, at the node of its package, one
    of its top-level names is already bound: to the sentinel (a declared
    name) or to a node (a sub-package segment). *)
Definition collides (r : Files) (file : FileDescriptor) : Prop :=
  ∃ node s,
    packageNode (Files_filesByPackage r) (Package file) node ∧
    s ∈ topLevelDeclarations file ∧
    is_Some (subs node !! s).

(** A file is held by the trie when some node lists it. *)
Inductive holds : filesByPackage → FileDescriptor → Prop :=
  | holds_here node fd :
      fd ∈ files node → holds node fd
  | holds_sub node k child fd :
      subs node !! k = Some (subPackage child) →
      holds child fd → holds node fd.

(** The registered files: those [RangeFiles] visits when nothing stops
    it. *)
Definition registered (r : option Files) : list FileDescriptor :=
  (RangeFiles r (logging visitAll) ([], tt)).1.

(** Names the lookups resolve: a package without a trailing dot (the case
    [RangeFilesByPackage] sets aside) and a non-empty name without dots. *)
Definition wellFormedPackage (pkg : FullName) : bool :=
  negb (GoStrings.HasSuffix pkg ".").

Definition wellFormedName (s : Name) : bool :=
  (0 <? String.length s)%nat && (GoStrings.IndexByte s "." <? 0)%Z.

(** The height of a trie, to reason by induction on it. *)
Fixpoint height (n : filesByPackage) : nat :=
  S (map_fold
       (λ _ p acc, match p with
                   | notProtoPackage => acc
                   | subPackage c => Nat.max acc (height c)
                   end)
       0%nat (subs n)).

(** Sorted for Go's [<]: no later element is smaller than an earlier one. *)
Definition sorted (l : list string) : Prop :=
  StronglySorted (λ a b, GoStrings.ge b a = true) l.

(** The membership test of the second pass of [Register]. *)
Definition hasConflict (conflicts : list Name) (s : Name) : bool :=
  let i := GoSort.Search (length conflicts)
             (λ i, GoStrings.ge (at_index conflicts i) s) in
  (i <? length conflicts)%nat && String.eqb (at_index conflicts i) s.

(** The declarations as one list. *)
Definition declList (fd : FileDescriptor) : list Name :=
  (flat_map (λ e, enumName e :: enumValues e) (Enums fd)
     ++ Messages fd ++ Extensions fd ++ Services fd)%list.

(** The two passes over a list of names. *)
Definition markAll (l : list Name)
    (st : gmap Name (sub filesByPackage) * list Name) :=
  fold_left (λ st s, markDeclaration s st) l st.

Definition unmarkAll (c l : list Name) (m : gmap Name (sub filesByPackage)) :=
  fold_left (λ m s, unmarkDeclaration c s m) l m.

(** [declaredAt root pkg f ss]: the node of package [pkg] lists file [f]
    and binds every name of [ss] to the sentinel. *)
Definition declaredAt (root : filesByPackage) (pkg : FullName)
    (f : FileDescriptor) (ss : list Name) : Prop :=
  ∃ node, packageNode root pkg node ∧ f ∈ files node ∧
          ∀ s, s ∈ ss → subs node !! s = Some notProtoPackage.

(** [extends n n']: [n'] lists the files of [n] and binds the names of
    [n] the same way. *)
Definition extends (n n' : filesByPackage) : Prop :=
  (∀ fd, fd ∈ files n → fd ∈ files n') ∧
  (∀ k v, subs n !! k = Some v → subs n' !! k = Some v).

(** [listed r f]: the path index lists [f] under its path. *)
Definition listed (r : Files) (f : FileDescriptor) : Prop :=
  f ∈ default [] (Files_filesByPath r !! Path f).

(** *** Notions used to state what the enumerations and [Register] do *)

(** The files below a node in the order [rangeFiles] visits them: the
    node's own files, then those of every sub-package entry. *)
Fixpoint filesOf (n : filesByPackage) : list FileDescriptor :=
  (files n ++
   map_fold
     (λ _ p acc, match p with
                 | notProtoPackage => acc
                 | subPackage c => acc ++ filesOf c
                 end)
     [] (subs n))%list.

(** What the three enumerations visit when the callback never stops them. *)
Definition filesUnder (r : option Files) (pkg : FullName)
    : list FileDescriptor :=
  (RangeFilesByPackage r pkg (logging visitAll) ([], tt)).1.

Definition filesAtPath (r : option Files) (path : string)
    : list FileDescriptor :=
  (RangeFilesByPath r path (logging visitAll) ([], tt)).1.

(** A round of [Register] accepts the file: it is no placeholder and the
    round leaves no error. *)
Definition accepted (r : Files) (file : FileDescriptor) : bool :=
  negb (IsPlaceholder file) &&
  (if (registerFile r file).2 is None then true else false).

(** The files of a batch that [Register] accepts, each judged against the
    registry its predecessors left. *)
Fixpoint acceptedFiles (r : Files) (files : list FileDescriptor)
    : list FileDescriptor :=
  match files with
  | [] => []
  | file :: rest =>
      (if accepted r file then [file] else []) ++
      acceptedFiles (registerFile r file).1 rest
  end.

(** [blocked root pkg]: the package walk of [pkg] from [root] comes upon a
    segment that is bound to the sentinel, a declared name. *)
Inductive blocked : filesByPackage → FullName → Prop :=
  | blocked_here root pkg prefix pkg' :
      pkg ≠ "" →
      splitPrefix pkg = (prefix, pkg') →
      subs root !! prefix = Some notProtoPackage →
      blocked root pkg
  | blocked_step root pkg prefix pkg' child :
      pkg ≠ "" →
      splitPrefix pkg = (prefix, pkg') →
      subs root !! prefix = Some (subPackage child) →
      blocked child pkg' →
      blocked root pkg.

(** The first answer the files of a node give for a name, in the order of
    the list. *)
Definition firstAnswer (fds : list FileDescriptor) (name : FullName)
    : option Descriptor :=
  head (omap (λ fd, DescriptorByName fd name) fds).

(** A package name all of whose segments the walk of [Register] inserts
    are non-empty. *)
Inductive properPackage : FullName → Prop :=
  | properPackage_nil : properPackage ""
  | properPackage_step pkg prefix pkg' :
      pkg ≠ "" →
      splitPrefix pkg = (prefix, pkg') →
      prefix ≠ "" →
      properPackage pkg' →
      properPackage pkg.

(** The invariant noted at [subs]: no key of any node is the empty name. *)
Inductive keysNonEmpty : filesByPackage → Prop :=
  | keysNonEmpty_node n :
      subs n !! "" = None →
      (∀ k c, subs n !! k = Some (subPackage c) → keysNonEmpty c) →
      keysNonEmpty n.

(** The files below the entry of a [subs] map, and below a list of
    entries taken from the back. *)
Definition entryFiles (p : sub filesByPackage) : list FileDescriptor :=
  match p with
  | notProtoPackage => []
  | subPackage c => filesOf c
  end.

Definition subFiles (l : list (Name * sub filesByPackage))
    : list FileDescriptor :=
  foldr (λ kp acc, acc ++ entryFiles kp.2)%list [] l.

(** Two [subs] maps with the same sub-package nodes; they may differ in
    the names bound to the sentinel. *)
Definition sameNodes (m m' : gmap Name (sub filesByPackage)) : Prop :=
  ∀ k c, m !! k = Some (subPackage c) ↔ m' !! k = Some (subPackage c).

(** [leadsAt root pkg f ss]: the node of package [pkg] lists [f] before
    every other file and binds every name of [ss] to the sentinel. *)
Definition leadsAt (root : filesByPackage) (pkg : FullName)
    (f : FileDescriptor) (ss : list Name) : Prop :=
  ∃ node, packageNode root pkg node ∧ head (files node) = Some f ∧
          ∀ s, s ∈ ss → subs node !! s = Some notProtoPackage.

(** [grows n n']: [n'] has the first file of [n] and binds the names of
    [n] the same way. *)
Definition grows (n n' : filesByPackage) : Prop :=
  (∀ f, head (files n) = Some f → head (files n') = Some f) ∧
  (∀ k v, subs n !! k = Some v → subs n' !! k = Some v).

(** [refines n n']: [n'] is [n] with files added at the end of the lists
    and names added to the maps, here and in the nodes below. *)
#[warnings="-register-all"]
Inductive refines : filesByPackage → filesByPackage → Prop :=
  | refines_node n n' :
      (∃ l, files n' = (files n ++ l)%list) →
      (∀ k, subs n !! k = Some notProtoPackage →
            subs n' !! k = Some notProtoPackage) →
      (∀ k c, subs n !! k = Some (subPackage c) →
              ∃ c', subs n' !! k = Some (subPackage c') ∧ refines c c') →
      refines n n'.

(** ** Sample files *)

Module RegistryExamples.

(** A [DescriptorByName] that knows the listed full names. *)
Definition byName (path : string) (names : list FullName) (n : FullName)
    : option Descriptor :=
  if bool_decide (n ∈ names) then Some (mkDescriptor n path) else None.

Definition F1 : FileDescriptor :=
  mkFile "f1.proto" "p" false [] ["M"] [] [] (byName "f1.proto" ["p.M"]).
Definition F2 : FileDescriptor :=
  mkFile "f2.proto" "p" false [] ["N"] [] [] (byName "f2.proto" ["p.N"]).
Definition F3 : FileDescriptor :=
  mkFile "f3.proto" "p" false [] ["K"; "M"] [] []
    (byName "f3.proto" ["p.K"; "p.M"]).
Definition F4 : FileDescriptor :=
  mkFile "f4.proto" "p.M.q" false [] ["X"] [] []
    (byName "f4.proto" ["p.M.q.X"]).
Definition F5 : FileDescriptor :=
  mkFile "f5.proto" "p.q" false [mkEnum "E" ["A"; "B"]] ["L"] [] []
    (byName "f5.proto" ["p.q.E"; "p.q.A"; "p.q.B"; "p.q.L"]).

End RegistryExamples.

(** The registry with [F1] registered: package [p] declares [M]. *)
Definition registryF1 : Files := (Register newFiles [RegistryExamples.F1]).1.

(** Further samples: registries with their nodes, and a file that
    declares a message under the name of an enum value of [F5]. *)

Module RegistrySamples.
Import RegistryExamples.

(** The node a [subs] entry of [n] points to. *)
Definition child (n : filesByPackage) (k : Name) : filesByPackage :=
  match subs n !! k with
  | Some (subPackage c) => c
  | _ => newFilesByPackage
  end.

(** [F1] and [F5] registered: the packages [p] and [p.q]. *)
Definition registryF15 : Files := NewFiles [F1; F5].

Definition nodeP : filesByPackage :=
  child (Files_filesByPackage registryF15) "p".
Definition nodePQ : filesByPackage := child nodeP "q".

(** The node of [p] in the registry that holds [F1] alone. *)
Definition nodeP1 : filesByPackage :=
  child (Files_filesByPackage registryF1) "p".

Definition G5 : FileDescriptor :=
  mkFile "g5.proto" "p.q" false [] ["A"] [] [] (byName "g5.proto" ["p.q.A"]).

(** A file of package [p] that lists the message [N] twice. *)
Definition Twice : FileDescriptor :=
  mkFile "twice.proto" "p" false [] ["M"; "N"; "N"] [] [] (λ _, None).

(** A file whose package name ends in a dot. *)
Definition G6 : FileDescriptor :=
  mkFile "g6.proto" "p." false [] ["Z"] [] [] (byName "g6.proto" ["p.Z"]).

End RegistrySamples.

(** * Package [impl]: the message binder *)

(** ** Panics

    A panic aborts the operation; its value is the message, kept by its
    format.  [RuntimePanic] stands for the panics of the Go runtime and of
    package [reflect]. *)

Inductive panicValue :=
  | WantStructKind                 (* "got %v, want *struct kind" *)
  | TypeMismatch                   (* "type mismatch: got %T, want %v" *)
  | InvalidField (n : Z)           (* "invalid field: %d" *)
  | EmbeddedStructs                (* "embedded structs are not supported" *)
  | NotSupported (what : string)   (* a capability a field does not have *)
  | RuntimePanic (what : string).

Inductive result (A : Type) :=
  | Ok (a : A)
  | Panic (v : panicValue).
Arguments Ok {A} a.
Arguments Panic {A} v.

(** Sequencing: a panic ends the computation. *)
#[global] Instance result_bind : MBind result := λ A B k m,
  match m with
  | Ok a => k a
  | Panic v => Panic v
  end.

(** ** Package [strings] and [strconv], as used on struct tags *)

Module GoTags.

(** [strings.Split(s, sep)] for a one-byte separator. *)
Fixpoint Split (s : string) (sep : ascii) : list string :=
  match s with
  | EmptyString => [""]
  | String c s' =>
      if Ascii.eqb c sep then "" :: Split s' sep
      else match Split s' sep with
           | h :: t => String c h :: t
           | [] => [String c ""]
           end
  end.

Definition inCutset (cutset : string) (c : ascii) : bool :=
  existsb (Ascii.eqb c) (list_ascii_of_string cutset).

Fixpoint dropLeading (cutset : string) (l : list ascii) : list ascii :=
  match l with
  | [] => []
  | c :: l' => if inCutset cutset c then dropLeading cutset l' else l
  end.

(** [strings.Trim(s, cutset)]: [s] without its leading and trailing bytes
    from [cutset]. *)
Definition Trim (s cutset : string) : string :=
  string_of_list_ascii
    (rev (dropLeading cutset (rev (dropLeading cutset (list_ascii_of_string s))))).

Definition digitValue (c : ascii) : Z := (Z.of_N (N_of_ascii c) - 48)%Z.

Definition maxUint64 : Z := (2 ^ 64 - 1)%Z.

(** [strconv.ParseUint(s, 10, 64)] on a string of decimal digits, the
    error dropped: the number, or the largest [uint64] when it does not
    fit. *)
Definition ParseUint (s : string) : Z :=
  let n := fold_left (λ acc c, (acc * 10 + digitValue c)%Z)
             (list_ascii_of_string s) 0%Z in
  if (n <=? maxUint64)%Z then n else maxUint64.

End GoTags.

(** ** Package [reflect], as far as the binder looks into it *)

Module reflect.

Inductive Kind :=
  | Invalid | Bool | Int | Int8 | Int16 | Int32 | Int64
  | Uint | Uint8 | Uint16 | Uint32 | Uint64 | Uintptr
  | Float32 | Float64 | Complex64 | Complex128
  | Array | Chan | Func | Interface | Map | Ptr | Slice | String | Struct
  | UnsafePointer.

(** A struct tag by the pairs it holds; [Get] answers the empty string
    for a key that is missing. *)
Definition StructTag := list (string * string).

Definition Get (tag : StructTag) (key : string) : string :=
  default "" (snd <$> List.find (λ kv, String.eqb kv.1 key) tag).

(** [reflect.StructField], with the kind of the field's type in place of
    the type. *)
Record StructField := mkStructField {
  Name : string;
  Tag : StructTag;
  Index : list nat;
  Anonymous : bool;
  TypeKind : Kind }.

(** The zero [StructField], which a map of struct fields answers for a
    missing key. *)
Definition zeroStructField : StructField :=
  mkStructField "" [] [] false Invalid.

(** A field as the struct type declares it. *)
Record fieldDecl := mkFieldDecl {
  declName : string;
  declTag : StructTag;
  declAnonymous : bool;
  declKind : Kind }.

(** A struct type: its name, its fields, whether a pointer to it
    implements [ProtoMessage], and, when a pointer to it has the method
    [XXX_OneofFuncs], the wrapper struct types that method lists (each
    listed as a nil pointer to the wrapper). *)
Record structType := mkStructType {
  typeName : string;
  structFields : list fieldDecl;
  isProtoMessage : bool;
  oneofFuncs : option (list (string * list fieldDecl)) }.

(** [reflect.Type].  [Basic] is for the kinds that have neither an element
    type nor fields. *)
Inductive rtype :=
  | Basic (k : Kind)
  | ArrayOf (len : nat) (elem : rtype)
  | ChanOf (elem : rtype)
  | MapOf (key elem : rtype)
  | PtrTo (elem : rtype)
  | SliceOf (elem : rtype)
  | StructOf (s : structType).

Definition KindOf (t : rtype) : Kind :=
  match t with
  | Basic k => k
  | ArrayOf _ _ => Array
  | ChanOf _ => Chan
  | MapOf _ _ => Map
  | PtrTo _ => Ptr
  | SliceOf _ => Slice
  | StructOf _ => Struct
  end.

(** [Type.Elem] panics unless the kind is Array, Chan, Map, Ptr or
    Slice. *)
Definition Elem (t : rtype) : result rtype :=
  match t with
  | ArrayOf _ e | ChanOf e | MapOf _ e | PtrTo e | SliceOf e => Ok e
  | _ => Panic (RuntimePanic "reflect: Elem of invalid type")
  end.

(** [Type.NumField] panics unless the kind is Struct. *)
Definition NumField (t : rtype) : result nat :=
  match t with
  | StructOf s => Ok (length (structFields s))
  | _ => Panic (RuntimePanic "reflect: NumField of non-struct type")
  end.

Definition fieldOfDecl (i : nat) (d : fieldDecl) : StructField :=
  mkStructField (declName d) (declTag d) [i] (declAnonymous d) (declKind d).

(** [Type.Field(i)]: the [i]-th field, whose index sequence is [[i]]. *)
Definition Field (fields : list fieldDecl) (i : nat) : result StructField :=
  match fields !! i with
  | Some d => Ok (fieldOfDecl i d)
  | None => Panic (RuntimePanic "reflect: Field index out of bounds")
  end.

End reflect.

(** ** Package [protoreflect]: values and message descriptors

    Modelled from the spec: the package is declared outside the sources at
    hand.  The kinds, the cardinalities, the tagged union of values and the
    field and message descriptors follow the spec's data model; the
    syntax of the schema is what makes a field presence-less. *)

Module pref.

Abbreviation FieldNumber := Z.

(** A [uint64] converted to [FieldNumber], a 32-bit signed integer: the
    low 32 bits, read in two's complement. *)
Definition toFieldNumber (n : Z) : FieldNumber :=
  ((n + 2 ^ 31) mod 2 ^ 32 - 2 ^ 31)%Z.

Inductive Kind :=
  | BoolKind | EnumKind | Int32Kind | Sint32Kind | Uint32Kind
  | Int64Kind | Sint64Kind | Uint64Kind | Sfixed32Kind | Fixed32Kind
  | FloatKind | Sfixed64Kind | Fixed64Kind | DoubleKind
  | StringKind | BytesKind | MessageKind | GroupKind.

Inductive Cardinality := Optional | Required | Repeated.

Inductive Syntax := Proto2 | Proto3.

(** [protoreflect.Value]; [Null] is the zero [Value].  A float is kept by
    its bits. *)
Inductive Value :=
  | Null
  | OfBool (b : bool)
  | OfInt32 (n : Z) | OfInt64 (n : Z)
  | OfUint32 (n : Z) | OfUint64 (n : Z)
  | OfFloat32 (bits : Z) | OfFloat64 (bits : Z)
  | OfString (s : string)
  | OfBytes (b : list ascii)
  | OfEnum (n : Z).

(** The zero value of a kind. *)
Definition zeroOf (k : Kind) : Value :=
  match k with
  | BoolKind => OfBool false
  | EnumKind => OfEnum 0
  | Int32Kind | Sint32Kind | Sfixed32Kind => OfInt32 0
  | Uint32Kind | Fixed32Kind => OfUint32 0
  | Int64Kind | Sint64Kind | Sfixed64Kind => OfInt64 0
  | Uint64Kind | Fixed64Kind => OfUint64 0
  | FloatKind => OfFloat32 0
  | DoubleKind => OfFloat64 0
  | StringKind => OfString ""
  | BytesKind => OfBytes []
  | MessageKind | GroupKind => Null
  end.

(** A field descriptor by what its methods answer; [OneofType] is the
    name of the oneof the field belongs to, if any.  [SyntaxOf], [KindOf]
    and [CardinalityOf] are the methods [Syntax], [Kind] and
    [Cardinality], which share their names with the types. *)
Record FieldDescriptor := mkField {
  Number : FieldNumber;
  SyntaxOf : Syntax;
  KindOf : Kind;
  CardinalityOf : Cardinality;
  IsMap : bool;
  IsWeak : bool;
  OneofType : option Name;
  Default : Value }.

Record MessageDescriptor := mkMessage {
  MessageFullName : FullName;
  Fields : list FieldDescriptor }.

(** [protoreflect.Mutable], the handle a composite field hands out: the
    index sequence of the slot it writes through. *)
Definition Mutable := list nat.

End pref.

(** ** A record instance

    The struct behind a message pointer is the list of its storage slots,
    one per struct field. *)

Inductive slot :=
  | slotZero
  | slotScalar (v : pref.Value)
  | slotOneof (n : pref.FieldNumber) (v : pref.Value).

(** The [interface{}] handed to the binder: nil, or a value with its
    dynamic type and, behind a pointer to a struct, the struct's slots. *)
Record object := mkObject {
  objType : reflect.rtype;
  objSlots : list slot }.

Abbreviation iface := (option object).

Definition TypeOf (p : iface) : option reflect.rtype := objType <$> p.

(** [p.(pref.ProtoMessage)]: whether the dynamic type implements the
    interface. *)
Definition implementsProtoMessage (p : iface) : bool :=
  match TypeOf p with
  | Some (reflect.PtrTo (reflect.StructOf s)) => reflect.isProtoMessage s
  | _ => false
  end.

(** ** pointer_reflect.go *)

Abbreviation offset := (list nat).

Definition offsetOf (f : reflect.StructField) : result offset :=
  if negb (length (reflect.Index f) =? 1)%nat then Panic EmbeddedStructs
  else Ok (reflect.Index f).

(** A [reflect.Value] as far as the binder uses one: the value of the
    interface handed in, or, derived from it, the address of field [i] of
    the struct it points to.  The value of the nil interface is the zero
    [Value]. *)
Record reflectValue := mkReflectValue {
  ifaceOf : iface;
  fieldOf : option nat }.

Record pointer := mkPointer { v : reflectValue }.

Definition pointerOfValue (v : reflectValue) : pointer := mkPointer v.

Definition pointerOfIface (p : iface) : pointer :=
  mkPointer (mkReflectValue p None).

(** [apply]: [p.v.Elem().FieldByIndex(f).Addr()].  [Elem] wants a pointer
    and [FieldByIndex] a struct behind it; the empty index sequence stays
    at the struct.  A record here is flat, it does not hold the fields of
    the structs nested in it, so a longer index sequence finds nothing;
    [offsetOf] lets none through. *)
Definition apply (p : pointer) (f : offset) : result pointer :=
  match ifaceOf (v p), fieldOf (v p) with
  | Some (mkObject (reflect.PtrTo (reflect.StructOf _)) slots), None =>
      match f with
      | [] => Ok p
      | [i] =>
          if (i <? length slots)%nat
          then Ok (mkPointer (mkReflectValue (ifaceOf (v p)) (Some i)))
          else Panic (RuntimePanic "reflect: Field index out of range")
      | _ => Panic (RuntimePanic "reflect: call of reflect.Value.Field on a value that is not a struct")
      end
  | _, _ => Panic (RuntimePanic "reflect: call of reflect.Value.Elem or FieldByIndex on a value that is not a pointer to a struct")
  end.

(** Modelled from the spec: the access through a field locator, which the
    dispatchers make.  [loadSlot] reads the slot the locator addresses and
    [storeSlot] writes it, returning the pointer to the record as updated;
    both are fatal on a locator that does not address a field. *)
Definition loadSlot (fp : pointer) : result slot :=
  match ifaceOf (v fp), fieldOf (v fp) with
  | Some o, Some i =>
      match objSlots o !! i with
      | Some s => Ok s
      | None => Panic (RuntimePanic "reflect: Field index out of range")
      end
  | _, _ => Panic (RuntimePanic "reflect: call of reflect.Value.Elem on a value that is not the address of a field")
  end.

Definition storeSlot (fp : pointer) (s : slot) : result pointer :=
  match ifaceOf (v fp), fieldOf (v fp) with
  | Some o, Some i =>
      if (i <? length (objSlots o))%nat
      then Ok (pointerOfIface
                 (Some (mkObject (objType o) (<[i := s]> (objSlots o)))))
      else Panic (RuntimePanic "reflect: Field index out of range")
  | _, _ => Panic (RuntimePanic "reflect: call of reflect.Value.Set on a value that is not the address of a field")
  end.

(** ** message_field.go *)

(** Modelled from the spec: [fieldInfo] is declared outside the sources at
    hand.  It is the dispatcher of one field number: the capabilities has,
    get, set, clear and mutable, each applied to the message pointer.  A
    capability that writes returns the pointer to the updated record. *)
Record fieldInfo := mkFieldInfo {
  has : pointer → result bool;
  get : pointer → result pref.Value;
  set : pointer → pref.Value → result pointer;
  clear : pointer → result pointer;
  mutable : pointer → result (pref.Mutable * pointer) }.

#[global] Instance Value_eq_dec : EqDecision pref.Value.
Proof. solve_decision. Defined.
#[global] Instance Syntax_eq_dec : EqDecision pref.Syntax.
Proof. solve_decision. Defined.

(** Modelled from the spec: the scalar dispatcher, bound to the field's
    storage slot.  With explicit presence (proto2) has is true iff the
    field was explicitly set, and get returns the declared default when has
    is false.  A presence-less (proto3) field reads as the zero value when
    absent; the spec leaves its has open and the tests of the package
    ([TestScalarProto3]) settle it: has is true iff the value stored is not
    the zero value.  set stores the exact value; clear resets to absent;
    mutable is not applicable. *)
Definition fieldInfoForScalar (fd : pref.FieldDescriptor)
    (fs : reflect.StructField) : result fieldInfo :=
  fieldOffset ← offsetOf fs;
  let nullable := bool_decide (pref.SyntaxOf fd = pref.Proto2) in
  Ok {|
    has := λ p,
      s ← apply p fieldOffset ≫= loadSlot;
      Ok (match s with
          | slotScalar v =>
              if nullable then true
              else negb (bool_decide (v = pref.zeroOf (pref.KindOf fd)))
          | _ => false
          end);
    get := λ p,
      s ← apply p fieldOffset ≫= loadSlot;
      Ok (match s with
          | slotScalar v => v
          | _ => if nullable then pref.Default fd
                 else pref.zeroOf (pref.KindOf fd)
          end);
    set := λ p v, fp ← apply p fieldOffset; storeSlot fp (slotScalar v);
    clear := λ p, fp ← apply p fieldOffset; storeSlot fp slotZero;
    mutable := λ p, Panic (NotSupported "mutable on a scalar field") |}.

(** Modelled from the spec: the oneof-member dispatcher, bound to the slot
    shared by the group.  has is true iff this member is the active one;
    set makes this member active, which deactivates every other member;
    get on an inactive member returns the field's default; clear
    deactivates the group if this member is active and otherwise does
    nothing.  The spec gives a oneof member no mutable. *)
Definition fieldInfoForOneof (fd : pref.FieldDescriptor)
    (fs : reflect.StructField) (ot : option (string * list reflect.fieldDecl))
    : result fieldInfo :=
  fieldOffset ← offsetOf fs;
  let active (s : slot) : bool :=
    match s with
    | slotOneof n _ => (n =? pref.Number fd)%Z
    | _ => false
    end in
  Ok {|
    has := λ p, s ← apply p fieldOffset ≫= loadSlot; Ok (active s);
    get := λ p,
      s ← apply p fieldOffset ≫= loadSlot;
      Ok (match s with
          | slotOneof n v => if (n =? pref.Number fd)%Z then v else pref.Default fd
          | _ => pref.Default fd
          end);
    set := λ p v,
      fp ← apply p fieldOffset;
      storeSlot fp (slotOneof (pref.Number fd) v);
    clear := λ p,
      fp ← apply p fieldOffset;
      s ← loadSlot fp;
      if active s then storeSlot fp slotZero else Ok p;
    mutable := λ p, Panic (NotSupported "mutable on a oneof member") |}.

(** ** message.go *)

#[global] Instance Kind_eq_dec : EqDecision reflect.Kind.
Proof. solve_decision. Defined.
#[global] Instance fieldDecl_eq_dec : EqDecision reflect.fieldDecl.
Proof. solve_decision. Defined.
#[global] Instance structType_eq_dec : EqDecision reflect.structType.
Proof. solve_decision. Defined.
#[global] Instance rtype_eq_dec : EqDecision reflect.rtype.
Proof. solve_decision. Defined.
#[global] Instance pref_Kind_eq_dec : EqDecision pref.Kind.
Proof. solve_decision. Defined.
#[global] Instance Cardinality_eq_dec : EqDecision pref.Cardinality.
Proof. solve_decision. Defined.

(** Modelled from the spec: [ptype.NewGoMessage] is declared outside the
    sources at hand.  The message type wrapper it builds is kept by what it
    is built from: the descriptor, and the type whose element [New]
    allocates. *)
Record GoMessage := mkGoMessage {
  GoMessageDescriptor : option pref.MessageDescriptor;
  GoMessageNew : reflect.rtype }.

(** [once] is the [sync.Once]: whether its function has run.  A nil
    [Desc], [goType] or [pbType] is [None]. *)
Record MessageType := mkMessageType {
  Desc : option pref.MessageDescriptor;
  once : bool;
  goType : option reflect.rtype;
  pbType : option GoMessage;
  fields : gmap pref.FieldNumber fieldInfo }.

(** The first [protobuf] tag element made of decimal digits only, parsed. *)
Definition tagNumber (tag : string) : option Z :=
  GoTags.ParseUint <$>
    List.find
      (λ s, (0 <? String.length s)%nat &&
            String.eqb (GoTags.Trim s "0123456789") "")
      (GoTags.Split tag ",").

Definition isSpecialName (name : string) : bool :=
  bool_decide (name ∈ ["XXX_weak"; "XXX_unrecognized"; "XXX_sizecache";
                       "XXX_extensions"; "XXX_InternalExtensions"]).

(** The maps [fieldLoop] fills: struct fields by field number, by oneof
    name, and the special fields by name. *)
Record structInfo := mkStructInfo {
  si_fields : gmap pref.FieldNumber reflect.StructField;
  si_oneofs : gmap Name reflect.StructField;
  si_special : gmap string reflect.StructField }.

(** One round of [fieldLoop], on the field [f := t.Field(i)]. *)
Definition fieldStep (st : structInfo) (f : reflect.StructField) : structInfo :=
  match tagNumber (reflect.Get (reflect.Tag f) "protobuf") with
  | Some n =>
      mkStructInfo (<[pref.toFieldNumber n := f]> (si_fields st))
        (si_oneofs st) (si_special st)
  | None =>
      let s := reflect.Get (reflect.Tag f) "protobuf_oneof" in
      if (0 <? String.length s)%nat then
        mkStructInfo (si_fields st) (<[s := f]> (si_oneofs st)) (si_special st)
      else if isSpecialName (reflect.Name f) then
        mkStructInfo (si_fields st) (si_oneofs st)
          (<[reflect.Name f := f]> (si_special st))
      else st
  end.

(** [t.Field(0)], ..., [t.Field(t.NumField()-1)]. *)
Definition structFieldsOf (decls : list reflect.fieldDecl)
    : list reflect.StructField :=
  imap reflect.fieldOfDecl decls.

Definition fieldLoop (decls : list reflect.fieldDecl) : structInfo :=
  fold_left fieldStep (structFieldsOf decls) (mkStructInfo ∅ ∅ ∅).

(** One round of [oneofLoop], on the wrapper struct type [tf]. *)
Definition oneofStep
    (acc : result (gmap pref.FieldNumber (string * list reflect.fieldDecl)))
    (tf : string * list reflect.fieldDecl)
    : result (gmap pref.FieldNumber (string * list reflect.fieldDecl)) :=
  m ← acc;
  f ← reflect.Field tf.2 0;
  match tagNumber (reflect.Get (reflect.Tag f) "protobuf") with
  | Some n => Ok (<[pref.toFieldNumber n := tf]> m)
  | None => Ok m
  end.

Section Binder.

(** The dispatchers of the remaining field shapes are declared outside
    the sources at hand and are taken as they come. *)
Variables fieldInfoForWeak fieldInfoForMap fieldInfoForVector
          fieldInfoForMessage
    : pref.FieldDescriptor → reflect.StructField → result fieldInfo.

(** The body of the loop over the descriptor's fields. *)
Definition classify (si : structInfo)
    (oneofFields : gmap pref.FieldNumber (string * list reflect.fieldDecl))
    (fd : pref.FieldDescriptor) : result fieldInfo :=
  let fs := default reflect.zeroStructField (si_fields si !! pref.Number fd) in
  if pref.IsWeak fd then
    fieldInfoForWeak fd
      (default reflect.zeroStructField (si_special si !! "XXX_weak"))
  else
    match pref.OneofType fd with
    | Some name =>
        fieldInfoForOneof fd
          (default reflect.zeroStructField (si_oneofs si !! name))
          (oneofFields !! pref.Number fd)
    | None =>
        if pref.IsMap fd then fieldInfoForMap fd fs
        else if bool_decide (pref.CardinalityOf fd = pref.Repeated)
        then fieldInfoForVector fd fs
        else if bool_decide (pref.KindOf fd = pref.MessageKind)
                || bool_decide (pref.KindOf fd = pref.GroupKind)
        then fieldInfoForMessage fd fs
        else fieldInfoForScalar fd fs
    end.

Definition classifyStep (si : structInfo)
    (oneofFields : gmap pref.FieldNumber (string * list reflect.fieldDecl))
    (acc : result (gmap pref.FieldNumber fieldInfo))
    (fd : pref.FieldDescriptor) : result (gmap pref.FieldNumber fieldInfo) :=
  m ← acc;
  fi ← classify si oneofFields fd;
  Ok (<[pref.Number fd := fi]> m).

(** [generateFieldFuncs] returns the table it stores in [mi.fields]. *)
Definition generateFieldFuncs (t : reflect.rtype)
    (md : option pref.MessageDescriptor)
    : result (gmap pref.FieldNumber fieldInfo) :=
  match t with
  | reflect.StructOf st =>
      let si := fieldLoop (reflect.structFields st) in
      oneofFields ←
        match reflect.oneofFuncs st with
        | Some vs => fold_left oneofStep vs (Ok ∅)
        | None => Ok ∅
        end;
      match md with
      | Some md =>
          fold_left (classifyStep si oneofFields) (pref.Fields md) (Ok ∅)
      | None => Panic (RuntimePanic "invalid memory address or nil pointer dereference")
      end
  | _ => Panic (RuntimePanic "reflect: NumField of non-struct type")
  end.

(** The function [init] passes to [mi.once.Do]. *)
Definition initOnce (mi : MessageType) (p : iface) : result MessageType :=
  t ← match TypeOf p with
      | Some t => Ok t
      | None => Panic (RuntimePanic "reflect: call of reflect.Value.Type on zero Value")
      end;
  wrong ←
    (if negb (bool_decide (reflect.KindOf t = reflect.Ptr)) then
       e ← reflect.Elem t;
       Ok (negb (bool_decide (reflect.KindOf e = reflect.Struct)))
     else Ok false);
  if (wrong : bool) then Panic WantStructKind
  else
    let md := Desc mi in
    let pb := if implementsProtoMessage p then pbType mi
              else Some (mkGoMessage md t) in
    e ← reflect.Elem t;
    table ← generateFieldFuncs e md;
    Ok (mkMessageType (Desc mi) (once mi) (Some t) pb table).

(** [init]: [sync.Once.Do] runs [initOnce] unless it has run, then the
    type of [p] is checked against [goType]. *)
Definition init (mi : MessageType) (p : iface) : result MessageType :=
  mi ← (if once mi then Ok mi
        else
          mi' ← initOnce mi p;
          Ok (mkMessageType (Desc mi') true (goType mi') (pbType mi') (fields mi')));
  if bool_decide (TypeOf p = goType mi) then Ok mi
  else Panic TypeMismatch.

(** The pair of the message pointer and the message type, and the facade
    over it. *)
Record messageDataType := mkMessageDataType {
  p : pointer;
  mi : MessageType }.

Definition dataTypeOf (mi : MessageType) (p : iface) : messageDataType :=
  mkMessageDataType (pointerOfIface p) mi.

Definition KnownFieldsOf (mi : MessageType) (p : iface)
    : result messageDataType :=
  mi' ← init mi p;
  Ok (dataTypeOf mi' p).

End Binder.

Abbreviation knownFields := messageDataType.

Definition Len (fs : knownFields) : result nat :=
  map_fold
    (λ _ fi (acc : result nat),
       cnt ← acc;
       b ← has fi (p fs);
       Ok (if (b : bool) then S cnt else cnt))
    (Ok 0%nat) (fields (mi fs)).

Definition Has (fs : knownFields) (n : pref.FieldNumber) : result bool :=
  match fields (mi fs) !! n with
  | Some fi => has fi (p fs)
  | None => Ok false
  end.

Definition Get (fs : knownFields) (n : pref.FieldNumber) : result pref.Value :=
  match fields (mi fs) !! n with
  | Some fi => get fi (p fs)
  | None => Ok pref.Null
  end.

Definition Set_ (fs : knownFields) (n : pref.FieldNumber) (v : pref.Value)
    : result knownFields :=
  match fields (mi fs) !! n with
  | Some fi => p' ← set fi (p fs) v; Ok (mkMessageDataType p' (mi fs))
  | None => Panic (InvalidField n)
  end.

Definition Clear (fs : knownFields) (n : pref.FieldNumber) : result knownFields :=
  match fields (mi fs) !! n with
  | Some fi => p' ← clear fi (p fs); Ok (mkMessageDataType p' (mi fs))
  | None => Panic (InvalidField n)
  end.

Definition Mutable (fs : knownFields) (n : pref.FieldNumber)
    : result (pref.Mutable * knownFields) :=
  match fields (mi fs) !! n with
  | Some fi =>
      '(m, p') ← mutable fi (p fs);
      Ok (m, mkMessageDataType p' (mi fs))
  | None => Panic (InvalidField n)
  end.

(** [&MessageType{Desc: md}], not yet initialised. *)
Definition newMessageType (md : pref.MessageDescriptor) : MessageType :=
  mkMessageType (Some md) false None None ∅.

(** [new(T)] for a struct type [T]: a pointer to the zero struct, in which
    no field was ever set. *)
Definition newRecord (st : reflect.structType) : iface :=
  Some (mkObject (reflect.PtrTo (reflect.StructOf st))
          (replicate (length (reflect.structFields st)) slotZero)).

(** A record of the struct type [st] in any state. *)
Definition recordOf (st : reflect.structType) (slots : list slot) : iface :=
  Some (mkObject (reflect.PtrTo (reflect.StructOf st)) slots).

(** *** Notions used to state the binder's properties *)

(** The descriptor fields that [classify] hands to the scalar dispatcher. *)
Definition isScalarField (fd : pref.FieldDescriptor) : bool :=
  negb (pref.IsWeak fd) &&
  bool_decide (pref.OneofType fd = None) &&
  negb (pref.IsMap fd) &&
  negb (bool_decide (pref.CardinalityOf fd = pref.Repeated)) &&
  negb (bool_decide (pref.KindOf fd = pref.MessageKind)) &&
  negb (bool_decide (pref.KindOf fd = pref.GroupKind)).

(** A scalar field with explicit presence, under proto2 syntax: the fields
    for which a default can be declared. *)
Definition hasExplicitPresence (fd : pref.FieldDescriptor) : bool :=
  bool_decide (pref.SyntaxOf fd = pref.Proto2).

(** The members of the oneof [g]. *)
Definition isOneofMember (g : Name) (fd : pref.FieldDescriptor) : bool :=
  negb (pref.IsWeak fd) && bool_decide (pref.OneofType fd = Some g).

(** Field numbers are unique within a message descriptor. *)
Definition uniqueNumbers (md : pref.MessageDescriptor) : Prop :=
  NoDup (pref.Number <$> pref.Fields md).


(** A struct field taken from the shape by [Type.Field]. *)
Definition fromShape (decls : list reflect.fieldDecl)
    (f : reflect.StructField) : Prop :=
  ∃ i d, decls !! i = Some d ∧ f = reflect.fieldOfDecl i d.

Definition allFromShape (decls : list reflect.fieldDecl) (si : structInfo)
    : Prop :=
  (∀ n f, si_fields si !! n = Some f → fromShape decls f) ∧
  (∀ g f, si_oneofs si !! g = Some f → fromShape decls f) ∧
  (∀ g f, si_special si !! g = Some f → fromShape decls f).

(** A run of [init] calls on one [MessageType], each on the state the call
    before it left. *)
Section InitSeq.
Variables fieldInfoForWeak fieldInfoForMap fieldInfoForVector
          fieldInfoForMessage
    : pref.FieldDescriptor → reflect.StructField → result fieldInfo.

Fixpoint initSeq (mi : MessageType) (ps : list iface) : result MessageType :=
  match ps with
  | [] => Ok mi
  | p :: ps' =>
      mi' ← init fieldInfoForWeak fieldInfoForMap fieldInfoForVector
              fieldInfoForMessage mi p;
      initSeq mi' ps'
  end.
End InitSeq.

(** ** Sample record shapes and descriptors *)

Module ImplExamples.

(** A dispatcher builder left unimplemented. *)
Definition notImplemented (fd : pref.FieldDescriptor)
    (fs : reflect.StructField) : result fieldInfo :=
  Panic (NotSupported "not implemented").

(** [struct { Flag *bool `protobuf:"varint,1,opt,name=flag,def=1"`;
             XXX_unrecognized []byte }] *)
Definition flagStruct : reflect.structType :=
  reflect.mkStructType "Flagged"
    [reflect.mkFieldDecl "Flag" [("protobuf", "varint,1,opt,name=flag,def=1")]
       false reflect.Ptr;
     reflect.mkFieldDecl "XXX_unrecognized" [] false reflect.Slice]
    false None.

(** Field 1 is a [bool] with default [true]. *)
Definition flagField : pref.FieldDescriptor :=
  pref.mkField 1 pref.Proto2 pref.BoolKind pref.Optional false false None (pref.OfBool true).

Definition flagDesc : pref.MessageDescriptor :=
  pref.mkMessage "example.Flagged" [flagField].

(** [struct { Flag bool `protobuf:"1"` }] and its proto3 descriptor. *)
Definition plainStruct : reflect.structType :=
  reflect.mkStructType "Plain"
    [reflect.mkFieldDecl "Flag" [("protobuf", "1")] false reflect.Bool]
    false None.

Definition plainDesc : pref.MessageDescriptor :=
  pref.mkMessage "example.Plain"
    [pref.mkField 1 pref.Proto3 pref.BoolKind pref.Optional false false None
       (pref.OfBool false)].

(** A struct with a oneof [kind] of two members, fields 2 and 3. *)
Definition choiceStruct : reflect.structType :=
  reflect.mkStructType "Choice"
    [reflect.mkFieldDecl "Kind" [("protobuf_oneof", "kind")] false
       reflect.Interface]
    false
    (Some [("Choice_A",
            [reflect.mkFieldDecl "A" [("protobuf", "bytes,2,opt,name=a,oneof")]
               false reflect.String]);
           ("Choice_B",
            [reflect.mkFieldDecl "B" [("protobuf", "varint,3,opt,name=b,oneof")]
               false reflect.Int32])]).

Definition fieldA : pref.FieldDescriptor :=
  pref.mkField 2 pref.Proto2 pref.StringKind pref.Optional false false (Some "kind")
    (pref.OfString "").
Definition fieldB : pref.FieldDescriptor :=
  pref.mkField 3 pref.Proto2 pref.Int32Kind pref.Optional false false (Some "kind")
    (pref.OfInt32 0).

Definition choiceDesc : pref.MessageDescriptor :=
  pref.mkMessage "example.Choice" [fieldA; fieldB].


(** A value of type [[]struct{}]. *)
Definition emptyStruct : reflect.structType :=
  reflect.mkStructType "" [] false None.

Definition sliceOfStruct : iface :=
  Some (mkObject (reflect.SliceOf (reflect.StructOf emptyStruct)) []).

Definition emptyDesc : pref.MessageDescriptor :=
  pref.mkMessage "example.Empty" [].

(** The facade [KnownFieldsOf] returns for a fresh record of the shape
    [st] bound to [md], the other dispatchers unimplemented. *)
Definition bind (md : pref.MessageDescriptor) (st : reflect.structType)
    : result knownFields :=
  KnownFieldsOf notImplemented notImplemented notImplemented notImplemented
    (newMessageType md) (newRecord st).

Definition facade (md : pref.MessageDescriptor) (st : reflect.structType)
    : knownFields :=
  match bind md st with
  | Ok fs => fs
  | Panic _ => mkMessageDataType (pointerOfIface None) (newMessageType md)
  end.

End ImplExamples.

(** ** message.go and pointer_reflect.go, continued *)

(** [knownFields.Range]: the callback, with its captured variables as the
    state [St], is called on the number and the value of every field that
    is present, until it answers false.  The callback is one that leaves
    the message alone.  Go leaves the order of a map range undefined; the
    model visits the table in the order [map_fold] enumerates it, as [Len]
    does. *)
Definition fieldCallback (St : Type) :=
  pref.FieldNumber → pref.Value → St → bool * St.

Definition rangeStep {St : Type} (ptr : pointer) (f : fieldCallback St)
    (n : pref.FieldNumber) (fi : fieldInfo) (acc : result (bool * St))
    : result (bool * St) :=
  '(continue, s) ← acc;
  if (continue : bool) then
    b ← has fi ptr;
    if (b : bool) then v ← get fi ptr; Ok (f n v s) else Ok (true, s)
  else Ok (false, s).

Definition Range {St : Type} (fs : knownFields) (f : fieldCallback St) (s : St)
    : result St :=
  '(_, s') ← map_fold (rangeStep (p fs) f) (Ok (true, s)) (fields (mi fs));
  Ok s'.

(** A [for] loop with a break over a list of numbers and values. *)
Fixpoint rangeEntries {St : Type} (l : list (pref.FieldNumber * pref.Value))
    (f : fieldCallback St) (s : St) : bool * St :=
  match l with
  | [] => (true, s)
  | (n, v) :: rest =>
      let '(continue, s') := f n v s in
      if continue then rangeEntries rest f s' else (false, s')
  end.

(** The fields of the table that are present, with their values. *)
Definition presentEntry (ptr : pointer) (e : pref.FieldNumber * fieldInfo)
    : option (pref.FieldNumber * pref.Value) :=
  match has e.2 ptr, get e.2 ptr with
  | Ok true, Ok v => Some (e.1, v)
  | _, _ => None
  end.

Definition present (fs : knownFields)
    : list (pref.FieldNumber * pref.Value) :=
  omap (presentEntry (p fs)) (map_to_list (fields (mi fs))).

(** No capability that [Len] and [Range] call on the message panics. *)
Definition readable (fs : knownFields) : Prop :=
  ∀ n fi, fields (mi fs) !! n = Some fi →
          (∃ b, has fi (p fs) = Ok b) ∧ (∃ v, get fi (p fs) = Ok v).

(** "invalid type: got %v, want %v", the panic of [asType], kept among the
    others by its message. *)
Definition InvalidType : panicValue :=
  RuntimePanic "invalid type: got %v, want %v".

Section Values.

(** The type of the [i]-th field of a struct type; a shape keeps the kind
    of it only, so the type is taken as it comes. *)
Variable fieldType : reflect.structType → nat → reflect.rtype.

(** [Value.Type]: the dynamic type of the interface the value was made of,
    or the pointer type to the field for the address of a field; a panic
    for the zero [Value]. *)
Definition ValueType (v : reflectValue) : result reflect.rtype :=
  match ifaceOf v, fieldOf v with
  | None, _ =>
      Panic (RuntimePanic "reflect: call of reflect.Value.Type on zero Value")
  | Some o, None => Ok (objType o)
  | Some o, Some i =>
      match objType o with
      | reflect.PtrTo (reflect.StructOf st) =>
          Ok (reflect.PtrTo (fieldType st i))
      | _ => Panic (RuntimePanic "reflect: call of reflect.Value.Field on a value that is not a struct")
      end
  end.

(** [Value.Interface]: the interface the value was made of, or an
    interface that holds the address of the field; a panic for the zero
    [Value]. *)
Definition ValueInterface (v : reflectValue) : result iface :=
  match ifaceOf v, fieldOf v with
  | None, _ =>
      Panic (RuntimePanic "reflect: call of reflect.Value.Interface on zero Value")
  | Some (mkObject (reflect.PtrTo (reflect.StructOf st)) _), Some i =>
      Ok (Some (mkObject (reflect.PtrTo (fieldType st i)) []))
  | Some o, _ => Ok (Some o)
  end.

Definition asType (p : pointer) (t : reflect.rtype) : result reflectValue :=
  ty ← ValueType (v p);
  e ← reflect.Elem ty;
  if negb (bool_decide (e = t)) then Panic InvalidType else Ok (v p).

(** The [message] view of the pair and its methods. *)
Definition message_Type (m : messageDataType) : option GoMessage :=
  pbType (mi m).

Definition message_KnownFields (m : messageDataType) : knownFields := m.

Definition message_Unwrap (m : messageDataType) : result iface :=
  t ← match goType (mi m) with
      | Some t => reflect.Elem t
      | None => Panic (RuntimePanic "invalid memory address or nil pointer dereference")
      end;
  v ← asType (p m) t;
  ValueInterface v.

End Values.

(** What [MessageOf] returns: the reflection a record provides by its own
    [ProtoReflect] method, or the [message] view of the pair. *)
Inductive Message :=
  | ownReflection (p : iface)
  | wrapped (m : messageDataType).

Section BinderViews.

Variables fieldInfoForWeak fieldInfoForMap fieldInfoForVector
          fieldInfoForMessage
    : pref.FieldDescriptor → reflect.StructField → result fieldInfo.

Definition MessageOf (mi : MessageType) (p : iface) : result Message :=
  mi' ← init fieldInfoForWeak fieldInfoForMap fieldInfoForVector
          fieldInfoForMessage mi p;
  if implementsProtoMessage p then Ok (ownReflection p)
  else Ok (wrapped (dataTypeOf mi' p)).

End BinderViews.

(** *** Notions used to state what the scan of the shape finds *)

(** The field number a field of the shape carries in its [protobuf] tag. *)
Definition shapeNumber (d : reflect.fieldDecl) : option pref.FieldNumber :=
  pref.toFieldNumber <$> tagNumber (reflect.Get (reflect.declTag d) "protobuf").

(** A tag element that is read as a number: not empty, decimal digits
    only. *)
Definition isNumeric (s : string) : bool :=
  (0 <? String.length s)%nat &&
  forallb (GoTags.inCutset "0123456789") (list_ascii_of_string s).

(** Further samples: a message with a field set, and the types that are
    not taken for a record. *)

Module ImplSamples.
Import ImplExamples.

(** The dispatcher of field 1 of [flagDesc] on [flagStruct]. *)
Definition flagInfo : fieldInfo :=
  match fieldInfoForScalar flagField
          (reflect.mkStructField "Flag"
             [("protobuf", "varint,1,opt,name=flag,def=1")] [0%nat] false
             reflect.Ptr) with
  | Ok fi => fi
  | Panic _ => mkFieldInfo (λ _, Ok false) (λ _, Ok pref.Null)
                 (λ q _, Ok q) (λ q, Ok q) (λ q, Ok ([], q))
  end.

(** The facade on a record in which field 1 was set to false. *)
Definition flagSet : knownFields :=
  match Set_ (facade flagDesc flagStruct) 1 (pref.OfBool false) with
  | Ok fs => fs
  | Panic _ => facade flagDesc flagStruct
  end.

(** The callback that visits every field and keeps what it is called
    with. *)
Definition collect : fieldCallback (list (pref.FieldNumber * pref.Value)) :=
  λ n x s, (true, (s ++ [(n, x)])%list).

(** The type of a field, for the samples: by the kind alone. *)
Definition kindType (st : reflect.structType) (i : nat) : reflect.rtype :=
  reflect.Basic
    (default reflect.Invalid (reflect.declKind <$> reflect.structFields st !! i)).

(** A struct passed by value, and a slice of numbers. *)
Definition structByValue : iface :=
  Some (mkObject (reflect.StructOf flagStruct) []).

Definition sliceOfInt : iface :=
  Some (mkObject (reflect.SliceOf (reflect.Basic reflect.Int)) []).

End ImplSamples.

(** * Properties of the registry *)

(** ** Strings *)

Section StringFacts.
Import GoStrings.

Lemma substring_all (s : string) : substring 0 (String.length s) s = s.
Proof. induction s as [|c s IH]; simpl; [done | by rewrite IH]. Qed.

Lemma IndexByte_bounds (s : string) (c : ascii) :
  (-1 ≤ IndexByte s c < Z.of_nat (String.length s))%Z.
Proof.
  induction s as [|a s IH]; simpl; [lia |].
  destruct (Ascii.eqb a c); [lia |].
  destruct (Z.ltb_spec (IndexByte s c) 0); lia.
Qed.

(** [splitPrefix], read one byte at a time. *)
Lemma splitPrefix_nil : splitPrefix "" = ("", "").
Proof. reflexivity. Qed.

Lemma splitPrefix_cons (c : ascii) (s : string) :
  splitPrefix (String c s) =
    if Ascii.eqb c "." then ("", s)
    else (String c (splitPrefix s).1, (splitPrefix s).2).
Proof.
  unfold splitPrefix; simpl IndexByte.
  destruct (Ascii.eqb c ".") eqn:Hc.
  - simpl. unfold sliceFrom; simpl.
    by rewrite Nat.sub_0_r, substring_all.
  - pose proof (IndexByte_bounds s ".") as Hb.
    destruct (Z.ltb_spec (IndexByte s ".") 0) as [Hlt|Hge].
    + simpl. destruct (Z.leb_spec 0 (IndexByte s ".")); [lia | done].
    + destruct (Z.leb_spec 0 (IndexByte s ".")); [| lia].
      destruct (Z.leb_spec 0 (IndexByte s "." + 1)); [| lia].
      simpl. unfold sliceTo, sliceFrom.
      replace (Z.to_nat (IndexByte s "." + 1)) with (S (Z.to_nat (IndexByte s ".")))
        by lia.
      replace (S (Z.to_nat (IndexByte s ".")) + 1)
        with (S (Z.to_nat (IndexByte s ".") + 1)) by lia.
      reflexivity.
Qed.

Lemma splitPrefix_length (s : string) :
  s ≠ "" → (String.length (splitPrefix s).2 < String.length s)%nat.
Proof.
  induction s as [|c s IH]; [done |]. intros _.
  rewrite splitPrefix_cons. destruct (Ascii.eqb c "."); simpl; [lia |].
  destruct s as [|c' s']; [rewrite splitPrefix_nil; simpl; lia |].
  specialize (IH ltac:(done)). lia.
Qed.

Lemma length_pos_ne (s : string) :
  (0 <? String.length s)%nat = true ↔ s ≠ "".
Proof. destruct s; simpl; split; (done || lia || auto). Qed.

(** The byte order on strings is a total order. *)
Lemma ascii_compare_refl (a : ascii) : Ascii.compare a a = Eq.
Proof. unfold Ascii.compare. apply N.compare_refl. Qed.

Lemma ascii_compare_lt_trans (a b c : ascii) :
  Ascii.compare a b = Lt → Ascii.compare b c = Lt → Ascii.compare a c = Lt.
Proof.
  unfold Ascii.compare. rewrite !N.compare_lt_iff. lia.
Qed.

Lemma compare_lt_trans (a b c : string) :
  String.compare a b = Lt → String.compare b c = Lt → String.compare a c = Lt.
Proof.
  revert b c. induction a as [|x a IH]; intros [|y b] [|z c]; simpl; try done.
  destruct (Ascii.compare x y) eqn:Hxy; try done.
  - apply Ascii.compare_eq_iff in Hxy as ->.
    destruct (Ascii.compare y z); try done. apply IH.
  - intros _. destruct (Ascii.compare y z) eqn:Hyz; try done.
    + apply Ascii.compare_eq_iff in Hyz as <-. by rewrite Hxy.
    + by rewrite (ascii_compare_lt_trans _ _ _ Hxy Hyz).
Qed.

Lemma compare_refl (a : string) : String.compare a a = Eq.
Proof. induction a as [|x a IH]; simpl; [done |]. by rewrite ascii_compare_refl. Qed.

Lemma lt_iff (a b : string) : lt a b = true ↔ String.compare a b = Lt.
Proof. unfold lt, String.ltb. destruct (String.compare a b); split; done. Qed.

Lemma ge_iff (a b : string) : ge a b = true ↔ String.compare a b ≠ Lt.
Proof. unfold ge, String.ltb. destruct (String.compare a b); split; done. Qed.

Lemma ge_refl (a : string) : ge a a = true.
Proof. apply ge_iff. by rewrite compare_refl. Qed.

Lemma ge_trans (a b c : string) :
  ge a b = true → ge b c = true → ge a c = true.
Proof.
  rewrite !ge_iff. intros Hab Hbc Hac.
  destruct (String.compare a b) eqn:E1; [| done |].
  - apply String.compare_eq_iff in E1 as ->. done.
  - destruct (String.compare b c) eqn:E2; [| done |].
    + apply String.compare_eq_iff in E2 as ->. congruence.
    + rewrite String.compare_antisym in E1, E2.
      apply (f_equal CompOpp) in E1, E2.
      rewrite CompOpp_involutive in E1, E2. simpl in E1, E2.
      pose proof (compare_lt_trans _ _ _ E2 E1) as H.
      rewrite String.compare_antisym, Hac in H. done.
Qed.

Lemma ge_antisym (a b : string) : ge a b = true → ge b a = true → a = b.
Proof.
  rewrite !ge_iff. intros Hab Hba.
  destruct (String.compare a b) eqn:E; [by apply String.compare_eq_iff | done |].
  rewrite String.compare_antisym, E in Hba. done.
Qed.

Lemma lt_ge (a b : string) : lt a b = true → ge b a = true.
Proof.
  rewrite lt_iff, ge_iff. intros H. rewrite String.compare_antisym, H. done.
Qed.

Lemma not_lt_ge (a b : string) : lt a b = false → ge a b = true.
Proof. unfold ge, lt. by intros ->. Qed.

End StringFacts.

(** ** Sorting and searching *)

Section SortFacts.
Import GoStrings GoSort.

Lemma insertSorted_perm (x : string) (l : list string) :
  insertSorted x l ≡ₚ x :: l.
Proof.
  induction l as [|y l IH]; simpl; [done |].
  destruct (lt y x); [| done]. by rewrite IH, Permutation_swap.
Qed.

Lemma Slice_perm (l : list string) : Slice l ≡ₚ l.
Proof.
  induction l as [|x l IH]; simpl; [done |].
  unfold Slice in *. simpl. by rewrite insertSorted_perm, IH.
Qed.

Lemma insertSorted_sorted (x : string) (l : list string) :
  sorted l → sorted (insertSorted x l).
Proof.
  unfold sorted. induction 1 as [|y l Hl IH Hy]; simpl.
  - repeat constructor.
  - destruct (lt y x) eqn:Hyx.
    + constructor; [done |].
      apply Forall_forall. intros z Hz.
      rewrite insertSorted_perm in Hz.
      apply elem_of_cons in Hz as [-> | Hz]; [by apply lt_ge |].
      by eapply Forall_forall in Hy.
    + apply not_lt_ge in Hyx. constructor; [by constructor |].
      constructor; [done |].
      eapply Forall_impl; [done |]. intros z Hz. simpl in Hz.
      by apply (ge_trans _ y).
Qed.

Lemma Slice_sorted (l : list string) : sorted (Slice l).
Proof.
  induction l as [|x l IH]; [constructor |].
  by apply insertSorted_sorted.
Qed.

Lemma sorted_lookup (l : list string) (i j : nat) (a b : string) :
  sorted l → (i ≤ j)%nat → l !! i = Some a → l !! j = Some b → ge b a = true.
Proof.
  intros Hs. revert i j. induction Hs as [|x l Hl IH Hx]; intros i j Hij Hi Hj.
  - done.
  - destruct i as [|i], j as [|j]; simpl in *; simplify_eq.
    + apply ge_refl.
    + eapply Forall_forall in Hx; [done |].
      by eapply list_elem_of_lookup_2.
    + lia.
    + eapply IH; [| done..]. lia.
Qed.

(** The binary search returns the least index at which a monotone
    predicate holds, or [n]. *)
Lemma searchLoop_spec (n : nat) (f : nat → bool) :
  (∀ i j, (i ≤ j)%nat → (j < n)%nat → f i = true → f j = true) →
  ∀ fuel i j,
    (j - i ≤ fuel)%nat → (i ≤ j)%nat → (j ≤ n)%nat →
    (∀ k, (k < i)%nat → f k = false) →
    ((j < n)%nat → f j = true) →
    let r := searchLoop fuel f i j in
    (r ≤ n)%nat ∧ (∀ k, (k < r)%nat → f k = false) ∧
    ((r < n)%nat → f r = true).
Proof.
  intros Hmono. induction fuel as [|fuel IH]; intros i j Hfuel Hij Hjn Hlo Hhi;
    cbn [searchLoop].
  - assert (i = j) as -> by lia. auto.
  - destruct (Nat.ltb_spec i j) as [Hlt|Hge].
    + pose proof (Nat.div_mod_eq (i + j) 2) as Hdiv.
      pose proof (Nat.mod_upper_bound (i + j) 2 ltac:(lia)) as Hmod.
      remember ((i + j) / 2)%nat as h eqn:Hh. clear Hh.
      destruct (f h) eqn:Hfh; cbn [negb].
      * apply IH; try lia; auto.
      * apply IH; try lia; [| done].
        intros k Hk. destruct (f k) eqn:Hfk; [| done].
        rewrite (Hmono k h) in Hfh; [done | lia | lia | done].
    + assert (i = j) as -> by lia. auto.
Qed.

Lemma Search_spec (n : nat) (f : nat → bool) :
  (∀ i j, (i ≤ j)%nat → (j < n)%nat → f i = true → f j = true) →
  (Search n f ≤ n)%nat ∧ (∀ k, (k < Search n f)%nat → f k = false) ∧
  ((Search n f < n)%nat → f (Search n f) = true).
Proof.
  intros Hmono. unfold Search.
  apply (searchLoop_spec n f Hmono); try lia.
Qed.

Lemma at_index_lookup (l : list Name) (i : nat) (x : Name) :
  l !! i = Some x → at_index l i = x.
Proof. intros H. unfold at_index. by rewrite H. Qed.

Lemma hasConflict_iff (conflicts : list Name) (s : Name) :
  sorted conflicts → hasConflict conflicts s = true ↔ s ∈ conflicts.
Proof.
  intros Hs. unfold hasConflict.
  set (f := λ i, ge (at_index conflicts i) s).
  destruct (Search_spec (length conflicts) f) as (Hle & Hlo & Hhi).
  { intros i j Hij Hj. unfold f.
    destruct (lookup_lt_is_Some_2 conflicts i ltac:(lia)) as [a Ha].
    destruct (lookup_lt_is_Some_2 conflicts j ltac:(lia)) as [b Hb].
    rewrite (at_index_lookup _ _ _ Ha), (at_index_lookup _ _ _ Hb).
    intros Has. apply (ge_trans b a s); [| done].
    by apply (sorted_lookup conflicts i j a b). }
  set (r := Search (length conflicts) f) in *.
  rewrite andb_true_iff, Nat.ltb_lt, String.eqb_eq. split.
  - intros [Hr Heq].
    destruct (lookup_lt_is_Some_2 conflicts r Hr) as [a Ha].
    rewrite (at_index_lookup _ _ _ Ha) in Heq. subst a.
    by eapply list_elem_of_lookup_2.
  - intros (k & Hk)%list_elem_of_lookup_1.
    pose proof (lookup_lt_Some _ _ _ Hk) as Hklt.
    assert (r ≤ k)%nat as Hrk.
    { destruct (Nat.le_gt_cases r k) as [|Hgt]; [done |].
      specialize (Hlo k Hgt). unfold f in Hlo.
      rewrite (at_index_lookup _ _ _ Hk), ge_refl in Hlo. done. }
    assert (r < length conflicts)%nat as Hr by lia.
    split; [done |].
    destruct (lookup_lt_is_Some_2 conflicts r Hr) as [a Ha].
    rewrite (at_index_lookup _ _ _ Ha).
    specialize (Hhi Hr). unfold f in Hhi.
    rewrite (at_index_lookup _ _ _ Ha) in Hhi.
    apply ge_antisym; [done |].
    by apply (sorted_lookup conflicts r k a s).
Qed.

End SortFacts.

(** ** The two passes over a file's declarations *)

Section Declarations.
Import GoStrings GoSort.

Implicit Types (m : gmap Name (sub filesByPackage)) (l c : list Name).

Lemma fold_left_snoc {A} (l acc : list A) :
  fold_left (λ acc x, acc ++ [x])%list l acc = (acc ++ l)%list.
Proof.
  revert acc. induction l as [|x l IH]; intros acc; simpl.
  - by rewrite app_nil_r.
  - by rewrite IH, <- app_assoc.
Qed.

Lemma rangeTopLevelDeclarations_fold {St} (fd : FileDescriptor)
    (f : Name → St → St) (s : St) :
  rangeTopLevelDeclarations fd f s = fold_left (λ s x, f x s) (declList fd) s.
Proof.
  unfold rangeTopLevelDeclarations, declList.
  rewrite !fold_left_app. do 3 f_equal.
  generalize (Enums fd). intros es. revert s.
  induction es as [|e es IH]; intros s; simpl; [done |].
  by rewrite fold_left_app, IH.
Qed.

Lemma topLevelDeclarations_list (fd : FileDescriptor) :
  topLevelDeclarations fd = declList fd.
Proof.
  unfold topLevelDeclarations.
  by rewrite rangeTopLevelDeclarations_fold, fold_left_snoc.
Qed.

Lemma rangeTopLevelDeclarations_decls {St} (fd : FileDescriptor)
    (f : Name → St → St) (s : St) :
  rangeTopLevelDeclarations fd f s =
    fold_left (λ s x, f x s) (topLevelDeclarations fd) s.
Proof.
  by rewrite rangeTopLevelDeclarations_fold, topLevelDeclarations_list.
Qed.

(** After the first pass a name is bound if it was bound before, to what
    it was bound to, or if the file declares it, to the sentinel. *)
Lemma markAll_lookup l m c (k : Name) :
  (markAll l (m, c)).1 !! k =
    match m !! k with
    | Some v => Some v
    | None => if decide (k ∈ l) then Some notProtoPackage else None
    end.
Proof.
  revert m c. induction l as [|s l IH]; intros m c; simpl.
  - by destruct (m !! k).
  - unfold markDeclaration; simpl.
    destruct (m !! s) eqn:Hs.
    + rewrite IH. destruct (m !! k) eqn:Hk; [done |].
      assert (k ≠ s) by congruence.
      destruct (decide (k ∈ l)).
      * by rewrite decide_True by set_solver.
      * rewrite decide_False; [done |]. by intros [? | ?]%elem_of_cons.
    + rewrite IH. destruct (decide (k = s)) as [->|Hne].
      * rewrite lookup_insert_eq, Hs. by rewrite decide_True by set_solver.
      * rewrite lookup_insert_ne by done. destruct (m !! k); [done |].
        destruct (decide (k ∈ l)).
        -- by rewrite decide_True by set_solver.
        -- rewrite decide_False; [done |]. by intros [? | ?]%elem_of_cons.
Qed.

(** Every declared name that was bound before is reported. *)
Lemma markAll_conflicts_complete l m c (s : Name) :
  s ∈ c ∨ (s ∈ l ∧ is_Some (m !! s)) → s ∈ (markAll l (m, c)).2.
Proof.
  revert m c. induction l as [|x l IH]; intros m c; simpl.
  - intros [? | [? _]]; [done | set_solver].
  - intros H. unfold markDeclaration; simpl.
    destruct (m !! x) eqn:Hx.
    + apply IH. destruct H as [? | [[-> | ?]%elem_of_cons ?]].
      * left. set_solver.
      * left. set_solver.
      * by right.
    + apply IH. destruct H as [? | [[-> | ?]%elem_of_cons [v Hv]]].
      * by left.
      * congruence.
      * right. split; [done |].
        destruct (decide (s = x)) as [-> | ?]; [congruence |].
        rewrite lookup_insert_ne by done. by exists v.
Qed.

(** When the file declares no name twice, only names bound before are
    reported. *)
Lemma markAll_conflicts_sound l m c (s : Name) :
  NoDup l → s ∈ (markAll l (m, c)).2 → s ∈ c ∨ (s ∈ l ∧ is_Some (m !! s)).
Proof.
  intros Hnd. revert m c. induction Hnd as [|x l Hx Hnd IH]; intros m c; simpl.
  - by left.
  - unfold markDeclaration; simpl.
    destruct (m !! x) eqn:Hmx; intros H; apply IH in H.
    + destruct H as [[? | ->%list_elem_of_singleton]%elem_of_app | [? ?]].
      * by left.
      * right. split; [set_solver | by eexists].
      * right. split; [set_solver | done].
    + destruct H as [? | [Hs [v Hv]]]; [by left |].
      right. split; [set_solver |].
      assert (s ≠ x) by (intros ->; done).
      rewrite lookup_insert_ne in Hv by done. by exists v.
Qed.

Lemma unmarkDeclaration_has c (s : Name) m :
  unmarkDeclaration c s m = if hasConflict c s then m else delete s m.
Proof. unfold unmarkDeclaration, hasConflict. by destruct (_ && _). Qed.

(** After the second pass exactly the declared names outside [c] are
    gone. *)
Lemma unmarkAll_lookup c l m (k : Name) :
  sorted c →
  unmarkAll c l m !! k =
    if decide (k ∈ l ∧ k ∉ c) then None else m !! k.
Proof.
  intros Hc. revert m. induction l as [|s l IH]; intros m; simpl.
  - done.
  - rewrite IH, unmarkDeclaration_has.
    destruct (hasConflict c s) eqn:Hhas.
    + apply hasConflict_iff in Hhas; [| done].
      destruct (decide (k ∈ l ∧ k ∉ c)) as [[? ?]|Hn].
      * by rewrite decide_True by set_solver.
      * rewrite decide_False; [done |].
        intros [[-> | ?]%elem_of_cons ?]; [done | by apply Hn].
    + assert (s ∉ c) as Hs.
      { intros Hin. apply hasConflict_iff in Hin; [congruence | done]. }
      destruct (decide (k ∈ l ∧ k ∉ c)) as [[? ?]|Hn].
      * by rewrite decide_True by set_solver.
      * destruct (decide (k = s)) as [-> | Hne].
        -- rewrite lookup_delete_eq. by rewrite decide_True by set_solver.
        -- rewrite lookup_delete_ne by done. rewrite decide_False; [done |].
           intros [[-> | ?]%elem_of_cons ?]; [done | by apply Hn].
Qed.

(** The second pass undoes the first. *)
Lemma unmark_mark l m :
  NoDup l →
  unmarkAll (Slice (markAll l (m, [])).2) l (markAll l (m, [])).1 = m.
Proof.
  intros Hnd. apply map_eq. intros k.
  rewrite unmarkAll_lookup by apply Slice_sorted.
  rewrite markAll_lookup.
  destruct (m !! k) eqn:Hk.
  - rewrite decide_False; [done |]. intros [Hl Hn]. apply Hn.
    rewrite Slice_perm. apply markAll_conflicts_complete.
    right. split; [done | by eexists].
  - destruct (decide (k ∈ l)) as [Hl | Hl].
    + rewrite decide_True; [done |]. split; [done |].
      rewrite Slice_perm. intros Hin.
      apply markAll_conflicts_sound in Hin; [| done].
      destruct Hin as [? | [_ [v Hv]]]; [set_solver | congruence].
    + by destruct (decide _).
Qed.

(** A name bound before the two passes is bound the same way after. *)
Lemma unmark_mark_preserves l m (k : Name) v :
  m !! k = Some v →
  unmarkAll (Slice (markAll l (m, [])).2) l (markAll l (m, [])).1 !! k = Some v.
Proof.
  intros Hk. rewrite unmarkAll_lookup by apply Slice_sorted.
  rewrite markAll_lookup, Hk.
  rewrite decide_False; [done |]. intros [Hl Hn]. apply Hn.
  rewrite Slice_perm. apply markAll_conflicts_complete.
  right. split; [done | by eexists].
Qed.

(** [registerAtPackage] in terms of the two passes. *)
Lemma registerAtPackage_eq (file : FileDescriptor) (root : filesByPackage) :
  registerAtPackage file root =
    let st := markAll (topLevelDeclarations file) (subs root, []) in
    if (0 <? length st.2)%nat then
      (mkFilesByPackage (files root)
         (unmarkAll (Slice st.2) (topLevelDeclarations file) st.1),
       Some (NameConflict (Path file)
               (Append (Package file) (at_index (Slice st.2) 0))))
    else (mkFilesByPackage (files root ++ [file]) st.1, None).
Proof.
  unfold registerAtPackage, markAll, unmarkAll.
  rewrite !rangeTopLevelDeclarations_decls.
  destruct (fold_left _ _ _) as [m1 c] eqn:Hst; simpl.
  destruct (0 <? length c)%nat; [| done].
  by rewrite rangeTopLevelDeclarations_decls.
Qed.

Lemma length_pos_nil {A} (l : list A) :
  (0 <? length l)%nat = false ↔ l = [].
Proof. destruct l; simpl; split; done. Qed.

(** A rejection at the package node leaves the node as it was. *)
Lemma registerAtPackage_atomic (file : FileDescriptor) (root root' : filesByPackage) e :
  NoDup (topLevelDeclarations file) →
  registerAtPackage file root = (root', Some e) → root' = root.
Proof.
  intros Hnd. rewrite registerAtPackage_eq. cbv zeta.
  destruct (0 <? length _)%nat; [| done].
  intros [= <- _]. rewrite unmark_mark by done. by destruct root.
Qed.

(** At the package node a file is rejected exactly when one of its names
    is bound there. *)
Lemma registerAtPackage_rejects (file : FileDescriptor) (root : filesByPackage) (s : Name) :
  s ∈ topLevelDeclarations file → is_Some (subs root !! s) →
  is_Some (registerAtPackage file root).2.
Proof.
  intros Hs Hb. rewrite registerAtPackage_eq. cbv zeta.
  destruct (0 <? length _)%nat eqn:Hlen; [by eexists |].
  apply length_pos_nil in Hlen.
  assert (s ∈ (markAll (topLevelDeclarations file) (subs root, [])).2) as Hin
    by (apply markAll_conflicts_complete; by right).
  rewrite Hlen in Hin. set_solver.
Qed.

Lemma registerAtPackage_fresh (file : FileDescriptor) :
  NoDup (topLevelDeclarations file) →
  (registerAtPackage file newFilesByPackage).2 = None.
Proof.
  intros Hnd. rewrite registerAtPackage_eq. cbv zeta.
  destruct (0 <? length _)%nat eqn:Hlen; [| done].
  destruct (markAll _ _).2 as [|s c] eqn:Hc; [done |].
  assert (s ∈ (markAll (topLevelDeclarations file) (subs newFilesByPackage, [])).2)
    as Hin by (rewrite Hc; set_solver).
  apply markAll_conflicts_sound in Hin; [| done].
  destruct Hin as [? | [_ [v Hv]]]; [set_solver |].
  simpl in Hv. by rewrite lookup_empty in Hv.
Qed.

End Declarations.

(** ** The package walk of [Register] *)

Section RegisterWalk.

Lemma filesByPackage_eta (n : filesByPackage) :
  mkFilesByPackage (files n) (subs n) = n.
Proof. by destruct n. Qed.

(** The rounds granted are enough. *)
Lemma registerWalk_total (file : FileDescriptor) (fuel : nat) :
  ∀ pkg root, (String.length pkg < fuel)%nat →
  is_Some (registerWalk fuel file pkg root).
Proof.
  induction fuel as [|fuel IH]; intros pkg root Hlen; [lia |]. simpl.
  destruct (0 <? String.length pkg)%nat eqn:Hpos; [| by eexists].
  apply length_pos_ne in Hpos.
  pose proof (splitPrefix_length pkg Hpos) as Hdec.
  destruct (splitPrefix pkg) as [prefix pkg']; simpl in Hdec.
  destruct (subs root !! prefix) as [[|nextRoot]|].
  - by eexists.
  - destruct (IH pkg' nextRoot ltac:(lia)) as [[next err] ->]. by eexists.
  - destruct (IH pkg' newFilesByPackage ltac:(lia)) as [[next err] ->]. by eexists.
Qed.

(** Below a fresh node nothing can conflict. *)
Lemma registerWalk_fresh (file : FileDescriptor) (fuel : nat) :
  NoDup (topLevelDeclarations file) →
  ∀ pkg root' err,
    registerWalk fuel file pkg newFilesByPackage = Some (root', err) →
    err = None.
Proof.
  intros Hnd. induction fuel as [|fuel IH]; intros pkg root' err; [done |]. simpl.
  destruct (0 <? String.length pkg)%nat.
  - destruct (splitPrefix pkg) as [prefix pkg'].
    rewrite lookup_empty.
    destruct (registerWalk fuel file pkg' newFilesByPackage)
      as [[next err']|] eqn:Hrec; simpl; [| done].
    intros [= _ <-]. by eapply IH.
  - intros [= H]. pose proof (registerAtPackage_fresh file Hnd) as Hf.
    rewrite H in Hf. done.
Qed.

(** A walk that ends in a rejection returns the node it was given. *)
Lemma registerWalk_atomic (file : FileDescriptor) (fuel : nat) :
  NoDup (topLevelDeclarations file) →
  ∀ pkg root root' e,
    registerWalk fuel file pkg root = Some (root', Some e) → root' = root.
Proof.
  intros Hnd. induction fuel as [|fuel IH]; intros pkg root root' e; [done |]. simpl.
  destruct (0 <? String.length pkg)%nat.
  - destruct (splitPrefix pkg) as [prefix pkg'].
    destruct (subs root !! prefix) as [[|nextRoot]|] eqn:Hsub.
    + by intros [= <- _].
    + destruct (registerWalk fuel file pkg' nextRoot)
        as [[next err]|] eqn:Hrec; simpl; [| done].
      intros [= <- ->]. apply IH in Hrec as ->.
      rewrite insert_id by done. apply filesByPackage_eta.
    + destruct (registerWalk fuel file pkg' newFilesByPackage)
        as [[next err]|] eqn:Hrec; simpl; [| done].
      intros [= _ ->]. by apply registerWalk_fresh in Hrec.
  - intros [= H]. by eapply registerAtPackage_atomic.
Qed.

(** Along an existing path the walk reaches the package node and reports
    what [registerAtPackage] reports there. *)
Lemma registerWalk_packageNode (file : FileDescriptor) root pkg node :
  packageNode root pkg node →
  ∀ fuel, (String.length pkg < fuel)%nat →
  ∃ root', registerWalk fuel file pkg root =
             Some (root', (registerAtPackage file node).2).
Proof.
  induction 1 as [root | root pkg prefix pkg' child node Hne Hsplit Hsub _ IH];
    intros [|fuel] Hlen; try lia; simpl.
  - destruct (registerAtPackage file root) as [root' err]. by eexists.
  - apply length_pos_ne in Hne as Hpos. rewrite Hpos, Hsplit, Hsub.
    pose proof (splitPrefix_length pkg Hne) as Hdec.
    rewrite Hsplit in Hdec; simpl in Hdec.
    destruct (IH fuel ltac:(lia)) as [next ->]. simpl. by eexists.
Qed.

End RegisterWalk.

(** ** One round of [fileLoop] *)

Section RegisterFile.

Lemma registerFile_atomic (r r' : Files) (file : FileDescriptor) e :
  NoDup (topLevelDeclarations file) →
  registerFile r file = (r', Some e) → r' = r.
Proof.
  intros Hnd. unfold registerFile.
  destruct (IsPlaceholder file); [done |].
  destruct (registerWalk _ _ _ _) as [[root [err|]]|] eqn:Hw; try done.
  intros [= <- ->]. apply registerWalk_atomic in Hw as ->; [| done].
  by destruct r.
Qed.

Lemma registerFile_collides (r : Files) (file : FileDescriptor) :
  IsPlaceholder file = false → collides r file →
  is_Some (registerFile r file).2.
Proof.
  intros Hph (node & s & Hnode & Hs & Hb). unfold registerFile. rewrite Hph.
  destruct (registerWalk_packageNode file _ _ _ Hnode
              (S (String.length (Package file))) ltac:(lia)) as [root' ->].
  destruct (registerAtPackage_rejects file node s Hs Hb) as [e He].
  destruct (registerAtPackage file node) as [n err]; simpl in *; subst err.
  by eexists.
Qed.

Lemma Register_singleton (r : Files) (file : FileDescriptor) :
  Register r [file] = registerFile r file.
Proof.
  unfold Register; simpl. by destruct (registerFile r file).
Qed.

Lemma registerLoop_app (r : Files) (firstErr : option error)
    (fs1 fs2 : list FileDescriptor) :
  registerLoop r firstErr (fs1 ++ fs2) =
    registerLoop (registerLoop r firstErr fs1).1
      (registerLoop r firstErr fs1).2 fs2.
Proof.
  revert r firstErr. induction fs1 as [|f fs1 IH]; intros r firstErr; simpl.
  - done.
  - destruct (registerFile r f) as [r' err]. apply IH.
Qed.

(** Once an error is stored, the loop returns it. *)
Lemma registerLoop_firstErr (r : Files) (e : error) (fs : list FileDescriptor) :
  (registerLoop r (Some e) fs).2 = Some e.
Proof.
  revert r. induction fs as [|f fs IH]; intros r; simpl; [done |].
  destruct (registerFile r f) as [r' err]. apply IH.
Qed.

(** The registry the loop leaves does not depend on the stored error. *)
Lemma registerLoop_registry (r : Files) (e1 e2 : option error)
    (fs : list FileDescriptor) :
  (registerLoop r e1 fs).1 = (registerLoop r e2 fs).1.
Proof.
  revert r e1 e2. induction fs as [|f fs IH]; intros r e1 e2; simpl; [done |].
  destruct (registerFile r f) as [r' err]. apply IH.
Qed.

End RegisterFile.

(** ** What a successful registration establishes, and what later
       registrations keep *)

Section Declared.
Import GoStrings.

Lemma declaredAt_extends root root' pkg f ss :
  extends root root' → declaredAt root pkg f ss → declaredAt root' pkg f ss.
Proof.
  intros [Hf Hs] (node & Hnode & Hin & Hb).
  inversion Hnode as [? | ? ? prefix pkg' child ? Hne Hsplit Hsub Hrest]; subst.
  - exists root'. split; [constructor | auto].
  - exists node. split; [| done]. eapply packageNode_step; eauto.
Qed.

Lemma registerAtPackage_extends (file : FileDescriptor) (root : filesByPackage) :
  extends root (registerAtPackage file root).1.
Proof.
  rewrite registerAtPackage_eq. cbv zeta.
  destruct (0 <? length _)%nat; simpl; split; simpl.
  - done.
  - intros k v Hk. by apply unmark_mark_preserves.
  - intros fd Hfd. set_solver.
  - intros k v Hk. by rewrite markAll_lookup, Hk.
Qed.

Lemma registerAtPackage_accepts (file : FileDescriptor) (root root' : filesByPackage) :
  registerAtPackage file root = (root', None) →
  file ∈ files root' ∧
  ∀ s, s ∈ topLevelDeclarations file → subs root' !! s = Some notProtoPackage.
Proof.
  rewrite registerAtPackage_eq. cbv zeta.
  destruct (0 <? length _)%nat eqn:Hlen; [done |].
  intros [= <-]; simpl. split; [set_solver |].
  intros s Hs. rewrite markAll_lookup.
  destruct (subs root !! s) eqn:Hb.
  - apply length_pos_nil in Hlen.
    assert (s ∈ (markAll (topLevelDeclarations file) (subs root, [])).2) as Hin
      by (apply markAll_conflicts_complete; right; split; [done | by eexists]).
    rewrite Hlen in Hin. set_solver.
  - by rewrite decide_True.
Qed.

Lemma registerWalk_accepts (file : FileDescriptor) (fuel : nat) :
  ∀ pkg root root',
    registerWalk fuel file pkg root = Some (root', None) →
    ∃ node, packageNode root' pkg node ∧ file ∈ files node ∧
      ∀ s, s ∈ topLevelDeclarations file →
           subs node !! s = Some notProtoPackage.
Proof.
  induction fuel as [|fuel IH]; intros pkg root root'; [done |]. simpl.
  destruct (0 <? String.length pkg)%nat eqn:Hpos.
  - apply length_pos_ne in Hpos.
    destruct (splitPrefix pkg) as [prefix pkg'] eqn:Hsplit.
    assert (∀ start next,
              registerWalk fuel file pkg' start = Some (next, None) →
              ∃ node,
                packageNode
                  (mkFilesByPackage (files root)
                     (<[prefix:=subPackage next]> (subs root))) pkg node ∧
                file ∈ files node ∧
                ∀ s, s ∈ topLevelDeclarations file →
                     subs node !! s = Some notProtoPackage) as Hstep.
    { intros start next Hrec. apply IH in Hrec as (node & Hnode & Hrest).
      exists node. split; [| done].
      eapply packageNode_step; [done | done | | done].
      simpl. apply lookup_insert_eq. }
    destruct (subs root !! prefix) as [[|nextRoot]|]; [done | |].
    + destruct (registerWalk fuel file pkg' nextRoot)
        as [[next err]|] eqn:Hrec; simpl; [| done].
      intros [= <- ->]. by eapply Hstep.
    + destruct (registerWalk fuel file pkg' newFilesByPackage)
        as [[next err]|] eqn:Hrec; simpl; [| done].
      intros [= <- ->]. by eapply Hstep.
  - destruct pkg; [| done]. intros [= H].
    apply registerAtPackage_accepts in H as [? ?].
    exists root'. split; [constructor | done].
Qed.

(** Whatever a later walk does, what is declared stays declared. *)
Lemma registerWalk_preserves (g : FileDescriptor) (f : FileDescriptor)
    (ss : list Name) (fuel : nat) :
  ∀ pkg_g pkg root root' err,
    registerWalk fuel g pkg_g root = Some (root', err) →
    declaredAt root pkg f ss → declaredAt root' pkg f ss.
Proof.
  induction fuel as [|fuel IH]; intros pkg_g pkg root root' err; [done |]. simpl.
  destruct (0 <? String.length pkg_g)%nat.
  - destruct (splitPrefix pkg_g) as [p_g rest_g].
    destruct (subs root !! p_g) as [[|c]|] eqn:Hsub.
    + by intros [= <- _].
    + destruct (registerWalk fuel g rest_g c) as [[c' err']|] eqn:Hrec;
        simpl; [| done].
      intros [= <- _] (node & Hnode & Hin & Hb).
      inversion Hnode as [? | ? ? prefix pkg' child ? Hne Hsplit Hsub' Hrest];
        subst.
      * eexists. split; [constructor |]. simpl. split; [done |].
        intros s Hs. specialize (Hb s Hs).
        rewrite lookup_insert_ne; [done |]. intros ->. congruence.
      * destruct (decide (prefix = p_g)) as [-> | Hne'].
        -- assert (child = c) as -> by congruence.
           destruct (IH _ pkg' _ _ _ Hrec) as (node' & Hnode' & Hrest').
           { by exists node. }
           exists node'. split; [| done].
           eapply packageNode_step; [done | done | | done].
           simpl. apply lookup_insert_eq.
        -- exists node. split; [| done].
           eapply packageNode_step; [done | done | | done].
           simpl. by rewrite lookup_insert_ne.
    + destruct (registerWalk fuel g rest_g newFilesByPackage)
        as [[c' err']|] eqn:Hrec; simpl; [| done].
      intros [= <- _]. apply declaredAt_extends. split; simpl; [done |].
      intros k v Hk. rewrite lookup_insert_ne; [done |]. intros ->. congruence.
  - intros [= H]. apply declaredAt_extends.
    pose proof (registerAtPackage_extends g root) as Hext.
    by rewrite H in Hext.
Qed.

Lemma registerFile_accepts (r r' : Files) (f : FileDescriptor) :
  IsPlaceholder f = false →
  registerFile r f = (r', None) →
  listed r' f ∧
  declaredAt (Files_filesByPackage r') (Package f) f (topLevelDeclarations f).
Proof.
  intros Hph. unfold registerFile. rewrite Hph.
  destruct (registerWalk _ _ _ _) as [[root [err|]]|] eqn:Hw; [done | |].
  - intros [= <-]. split.
    + unfold listed; simpl. rewrite lookup_insert_eq; simpl. set_solver.
    + simpl.
      apply registerWalk_accepts in Hw as (node & Hnode & Hin & Hb).
      exists node. auto.
  - destruct (registerWalk_total f (S (String.length (Package f)))
                (Package f) (Files_filesByPackage r) ltac:(lia)) as [x Hx].
    congruence.
Qed.

Lemma registerFile_preserves (r : Files) (g f : FileDescriptor)
    (ss : list Name) :
  let r' := (registerFile r g).1 in
  (listed r f → listed r' f) ∧
  (∀ pkg, declaredAt (Files_filesByPackage r) pkg f ss →
          declaredAt (Files_filesByPackage r') pkg f ss).
Proof.
  unfold registerFile. destruct (IsPlaceholder g); [done |].
  destruct (registerWalk _ _ _ _) as [[root [err|]]|] eqn:Hw; simpl;
    [| | done].
  - split; [done |]. intros pkg. by eapply registerWalk_preserves.
  - split; [| intros pkg; by eapply registerWalk_preserves].
    unfold listed; simpl. intros Hl.
    destruct (decide (Path g = Path f)) as [Heq | Hne].
    + rewrite Heq, lookup_insert_eq; simpl. set_solver.
    + by rewrite lookup_insert_ne.
Qed.

Lemma registerLoop_preserves (fs : list FileDescriptor) (f : FileDescriptor)
    (ss : list Name) :
  ∀ r firstErr,
    let r' := (registerLoop r firstErr fs).1 in
    (listed r f → listed r' f) ∧
    (∀ pkg, declaredAt (Files_filesByPackage r) pkg f ss →
            declaredAt (Files_filesByPackage r') pkg f ss).
Proof.
  induction fs as [|g fs IH]; intros r firstErr; simpl; [done |].
  pose proof (registerFile_preserves r g f ss) as [Hl Hd].
  destruct (registerFile r g) as [r1 err]; simpl in *.
  destruct (IH r1 (if firstErr is Some _ then firstErr else err)) as [Hl' Hd'].
  split; [auto |]. intros pkg H. auto.
Qed.

Lemma packageNode_holds root pkg node (fd : FileDescriptor) :
  packageNode root pkg node → holds node fd → holds root fd.
Proof.
  induction 1 as [root | root pkg prefix pkg' child node _ _ Hsub _ IH];
    [done |].
  intros H. eapply holds_sub; [done | auto].
Qed.

End Declared.

(** ** Lookups *)

Section Lookups.
Import GoStrings.

Lemma HasSuffix_dot_cons (c : ascii) (t : string) :
  HasSuffix (String c t) "." =
    match t with
    | EmptyString => Ascii.eqb c "."
    | String _ _ => HasSuffix t "."
    end.
Proof.
  unfold HasSuffix, sliceFrom. destruct t as [|c' t']; simpl.
  - destruct (Ascii.eqb_spec c "."); [by subst |].
    destruct c as [[] [] [] [] [] [] [] []]; done.
  - replace (String.length t' - 0)%nat with (String.length t') by lia.
    replace (S (String.length t') - String.length t')%nat with 1%nat by lia.
    replace (S (S (String.length t')) - S (String.length t'))%nat with 1%nat by lia.
    done.
Qed.

Lemma wellFormedPackage_cons (c : ascii) (t : string) :
  wellFormedPackage (String c t) = true →
  match t with
  | EmptyString => Ascii.eqb c "." = false
  | String _ _ => wellFormedPackage t = true
  end.
Proof.
  unfold wellFormedPackage. rewrite HasSuffix_dot_cons.
  destruct t; [| done]. by destruct (Ascii.eqb c ".").
Qed.

Lemma Append_cons (c : ascii) (t : string) (s : Name) :
  Append (String c t) s = String c (t ++ "." ++ s).
Proof. reflexivity. Qed.

Lemma Append_ne (t : string) (s : Name) :
  t ≠ "" → Append t s = t ++ "." ++ s.
Proof. by destruct t. Qed.

Lemma splitPrefix_no_dot (s : string) :
  (IndexByte s "." <? 0)%Z = true → splitPrefix s = (s, "").
Proof.
  unfold splitPrefix. intros H%Z.ltb_lt.
  destruct (Z.leb_spec 0 (IndexByte s ".")); [lia | done].
Qed.

(** The walk over [pkg.s] starts as the walk over [pkg] does. *)
Lemma splitPrefix_Append (pkg : FullName) (s : Name) :
  pkg ≠ "" → wellFormedPackage pkg = true →
  splitPrefix (Append pkg s) =
    ((splitPrefix pkg).1, Append (splitPrefix pkg).2 s) ∧
  wellFormedPackage (splitPrefix pkg).2 = true.
Proof.
  induction pkg as [|c t IH]; [done |]. intros _ Hwf.
  apply wellFormedPackage_cons in Hwf.
  rewrite Append_cons, !splitPrefix_cons.
  destruct (Ascii.eqb c ".") eqn:Hc.
  - destruct t as [|c' t']; [done |]. simpl. split; [done |]. done.
  - destruct t as [|c' t'].
    + change (splitPrefix ("" ++ "." ++ s)) with (splitPrefix (String "." s)).
      rewrite splitPrefix_cons, splitPrefix_nil. done.
    + destruct (IH ltac:(done) Hwf) as [Heq Hwf'].
      change (String c' t' ++ "." ++ s) with (Append (String c' t') s).
      rewrite Heq. done.
Qed.

Lemma searchFiles_found (fds : list FileDescriptor) (f : FileDescriptor)
    (name : FullName) (d : Descriptor) :
  f ∈ fds → DescriptorByName f name = Some d →
  ∃ d', searchFiles fds name = (Some d', None).
Proof.
  induction fds as [|fd fds IH]; [set_solver |].
  intros [-> | Hin]%elem_of_cons Hd; simpl.
  - rewrite Hd. by eexists.
  - destruct (DescriptorByName fd name); [by eexists | auto].
Qed.

Lemma searchFiles_notFound (fds : list FileDescriptor) (name : FullName) :
  (∀ fd, fd ∈ fds → DescriptorByName fd name = None) →
  searchFiles fds name = (None, Some NotFound).
Proof.
  induction fds as [|fd fds IH]; intros H; simpl; [done |].
  rewrite (H fd) by set_solver. apply IH. intros fd' Hfd'. apply H. set_solver.
Qed.

(** A declared name of a listed file is found. *)
Lemma findWalk_declared (name : FullName) (f : FileDescriptor) (s : Name)
    (d : Descriptor) root pkg node :
  packageNode root pkg node →
  f ∈ files node → subs node !! s = Some notProtoPackage →
  wellFormedPackage pkg = true → wellFormedName s = true →
  DescriptorByName f name = Some d →
  ∀ fuel, (String.length (Append pkg s) < fuel)%nat →
  ∃ d', findWalk fuel name (Append pkg s) root = Some (Some d', None).
Proof.
  intros Hnode Hin Hb Hwf Hs Hd.
  apply andb_true_iff in Hs as [Hlen Hdot].
  induction Hnode as [root | root pkg prefix pkg' child node Hne Hsplit Hsub _ IH];
    intros [|fuel] Hfuel; try lia; simpl.
  - change (Append "" s) with s. rewrite Hlen.
    rewrite (splitPrefix_no_dot s Hdot), Hb.
    destruct (searchFiles_found _ _ _ _ Hin Hd) as [d' ->]. by eexists.
  - destruct (splitPrefix_Append pkg s Hne Hwf) as [Heq Hwf'].
    rewrite Hsplit in Heq, Hwf'. simpl in Heq, Hwf'.
    assert (Append pkg s ≠ "") as Hne' by (destruct pkg; done).
    pose proof (splitPrefix_length _ Hne') as Hdec.
    apply length_pos_ne in Hne' as ->.
    rewrite Heq in *. simpl in Hdec. rewrite Hsub.
    apply IH; [done.. | lia].
Qed.

(** The rounds granted to the lookup are enough. *)
Lemma findWalk_total (name : FullName) (fuel : nat) :
  ∀ pkg root, (String.length pkg < fuel)%nat →
  is_Some (findWalk fuel name pkg root).
Proof.
  induction fuel as [|fuel IH]; intros pkg root Hlen; [lia |]. simpl.
  destruct (0 <? String.length pkg)%nat eqn:Hpos; [| by eexists].
  apply length_pos_ne in Hpos.
  pose proof (splitPrefix_length pkg Hpos) as Hdec.
  destruct (splitPrefix pkg) as [prefix pkg']; simpl in Hdec.
  destruct (subs root !! prefix) as [[|nextRoot]|]; try by eexists.
  apply IH. lia.
Qed.

(** A name that no file held by the trie answers is not found. *)
Lemma findWalk_notFound (name : FullName) (fuel : nat) :
  ∀ pkg root res,
    (∀ fd, holds root fd → DescriptorByName fd name = None) →
    findWalk fuel name pkg root = Some res →
    res = (None, Some NotFound).
Proof.
  induction fuel as [|fuel IH]; intros pkg root res Hnone; [done |]. simpl.
  destruct (0 <? String.length pkg)%nat; [| by intros [= <-]].
  destruct (splitPrefix pkg) as [prefix pkg'].
  destruct (subs root !! prefix) as [[|nextRoot]|] eqn:Hsub.
  - intros [= <-]. apply searchFiles_notFound.
    intros fd Hfd. apply Hnone. by constructor.
  - apply IH. intros fd Hfd. apply Hnone. by eapply holds_sub.
  - by intros [= <-].
Qed.

(** The rounds granted to the descent of [RangeFilesByPackage] are
    enough. *)
Lemma rangeWalk_total (fuel : nat) :
  ∀ pkg root, (String.length pkg < fuel)%nat → is_Some (rangeWalk fuel pkg root).
Proof.
  induction fuel as [|fuel IH]; intros pkg root Hlen; [lia |]. simpl.
  destruct root as [node|]; [| by eexists].
  destruct (0 <? String.length pkg)%nat eqn:Hpos; [| by eexists].
  apply length_pos_ne in Hpos.
  pose proof (splitPrefix_length pkg Hpos) as Hdec.
  destruct (splitPrefix pkg) as [prefix pkg']; simpl in Hdec.
  apply IH. lia.
Qed.

End Lookups.

(** ** [RangeFiles] visits exactly the files the trie holds *)

Section Enumeration.

Lemma height_sub (n : filesByPackage) (k : Name) (c : filesByPackage) :
  subs n !! k = Some (subPackage c) → (height c < height n)%nat.
Proof.
  destruct n as [fs sbs]; simpl. intros Hk. apply Nat.lt_succ_r. revert k c Hk.
  apply (map_fold_weak_ind
           (λ r (m : gmap Name (sub filesByPackage)),
              ∀ k c, m !! k = Some (subPackage c) → (height c ≤ r)%nat)).
  - intros k c. by rewrite lookup_empty.
  - intros i x m r Hi IH k c. destruct (decide (k = i)) as [-> | Hne].
    + rewrite lookup_insert_eq. intros [= ->]. lia.
    + rewrite lookup_insert_ne by done. intros H%IH. destruct x; lia.
Qed.

Lemma rangeSlice_logging (fds l : list FileDescriptor) :
  rangeSlice fds (logging visitAll) (l, tt) = (true, ((l ++ fds)%list, tt)).
Proof.
  revert l. induction fds as [|fd fds IH]; intros l; simpl.
  - by rewrite app_nil_r.
  - by rewrite IH, <- app_assoc.
Qed.

Lemma rangeFiles_logging (d : nat) :
  ∀ n l, (height n ≤ d)%nat →
  ∃ X, rangeFiles n (logging visitAll) (l, tt) = (true, ((l ++ X)%list, tt)) ∧
       ∀ fd, fd ∈ X ↔ holds n fd.
Proof.
  induction d as [|d IH]; intros n l Hd.
  { destruct n; simpl in Hd; lia. }
  assert (∀ k c, subs n !! k = Some (subPackage c) → (height c ≤ d)%nat) as Hsubs.
  { intros k c Hk. apply height_sub in Hk. lia. }
  clear Hd. destruct n as [fs sbs]; simpl in Hsubs. cbn [rangeFiles files subs].
  rewrite rangeSlice_logging.
  cut (∃ Y, map_fold
              (λ _ p (acc : bool * (list FileDescriptor * unit)),
                 if acc.1 then
                   match p with
                   | notProtoPackage => acc
                   | subPackage child => rangeFiles child (logging visitAll) acc.2
                   end
                 else acc)
              (true, ((l ++ fs)%list, tt)) sbs
            = (true, ((l ++ fs ++ Y)%list, tt)) ∧
            ∀ fd, fd ∈ Y ↔ ∃ k c, sbs !! k = Some (subPackage c) ∧ holds c fd).
  { intros (Y & -> & HY). exists (fs ++ Y)%list. split; [done |].
    intros fd. rewrite elem_of_app, HY. split.
    - intros [? | (k & c & ? & ?)]; [by constructor | by eapply holds_sub].
    - inversion 1; subst; simpl in *; [by left | right; eauto]. }
  revert Hsubs.
  apply (map_fold_weak_ind
    (λ r (m : gmap Name (sub filesByPackage)),
       (∀ k c, m !! k = Some (subPackage c) → (height c ≤ d)%nat) →
       ∃ Y, r = (true, ((l ++ fs ++ Y)%list, tt)) ∧
            ∀ fd, fd ∈ Y ↔ ∃ k c, m !! k = Some (subPackage c) ∧ holds c fd)).
  - intros _. exists []. rewrite app_nil_r. split; [done |].
    intros fd. split; [set_solver |]. intros (k & c & Hk & _).
    by rewrite lookup_empty in Hk.
  - intros i x m r Hi IHm Hh.
    destruct IHm as (Y & -> & HY).
    { intros k c Hk. apply (Hh k c).
      rewrite lookup_insert_ne; [done |]. intros ->. congruence. }
    simpl. destruct x as [|child].
    + exists Y. split; [done |]. intros fd. rewrite HY.
      split; intros (k & c & Hk & Hc); exists k, c; split; try done.
      * rewrite lookup_insert_ne; [done |]. intros ->. congruence.
      * destruct (decide (k = i)) as [-> | Hne].
        -- by rewrite lookup_insert_eq in Hk.
        -- by rewrite lookup_insert_ne in Hk.
    + destruct (IH child (l ++ fs ++ Y)%list) as (X & -> & HX).
      { apply (Hh i). apply lookup_insert_eq. }
      exists (Y ++ X)%list. split; [by rewrite <- !app_assoc |].
      intros fd. rewrite elem_of_app, HY, HX. split.
      * intros [(k & c & Hk & Hc) | Hc].
        -- exists k, c. split; [| done].
           rewrite lookup_insert_ne; [done |]. intros ->. congruence.
        -- exists i, child. split; [apply lookup_insert_eq | done].
      * intros (k & c & Hk & Hc). destruct (decide (k = i)) as [-> | Hne].
        -- rewrite lookup_insert_eq in Hk. injection Hk as ->. by right.
        -- rewrite lookup_insert_ne in Hk by done. left. eauto.
Qed.

Lemma registered_holds (r : Files) (fd : FileDescriptor) :
  fd ∈ registered (Some r) ↔ holds (Files_filesByPackage r) fd.
Proof.
  unfold registered, RangeFiles, RangeFilesByPackage. simpl.
  destruct (rangeFiles_logging (height (Files_filesByPackage r))
              (Files_filesByPackage r) [] ltac:(lia)) as (X & -> & HX).
  simpl. apply HX.
Qed.

Lemma RangeFilesByPath_logging (r : Files) (path : string) :
  (RangeFilesByPath (Some r) path (logging visitAll) ([], tt)).1 =
    default [] (Files_filesByPath r !! path).
Proof. unfold RangeFilesByPath. by rewrite rangeSlice_logging. Qed.

End Enumeration.

(** ** The registry's properties *)

(** C1.  [Register] is atomic per file for the files whose top-level names
    are pairwise distinct (a file contributes a set of names; [Register]
    relies on the file having no conflict within itself).  If one of the
    names of such a file is already bound at the node of the file's
    package, as a declared name or as a sub-package segment, then the round
    of [Register] for that file returns an error and the registry, trie and
    path index, is exactly the one before the round: no node, no sentinel
    and no file entry was added. *)
Theorem Register_atomic_per_file (r : Files) (file : FileDescriptor) :
  NoDup (topLevelDeclarations file) →
  IsPlaceholder file = false →
  collides r file →
  ∃ e, registerFile r file = (r, Some e) ∧ Register r [file] = (r, Some e).
Proof.
  intros Hnd Hph Hc.
  destruct (registerFile_collides r file Hph Hc) as [e He].
  destruct (registerFile r file) as [r' err] eqn:Hreg; simpl in He; subst err.
  pose proof (registerFile_atomic _ _ _ _ Hnd Hreg) as ->.
  exists e. split; [done |]. by rewrite Register_singleton.
Qed.

Lemma Register_atomic_per_file_witness :
  NoDup (topLevelDeclarations RegistryExamples.F3) ∧
  collides registryF1 RegistryExamples.F3 ∧
  ∃ e, registerFile registryF1 RegistryExamples.F3 = (registryF1, Some e) ∧
       Register registryF1 [RegistryExamples.F3] = (registryF1, Some e).
Proof.
  assert (NoDup (topLevelDeclarations RegistryExamples.F3)) as Hnd.
  { apply (bool_decide_unpack _). vm_compute. exact I. }
  assert (collides registryF1 RegistryExamples.F3) as Hc.
  { eexists _, "M". split; [| split].
    - eapply (packageNode_step _ "p" "p" "");
        [done | reflexivity | vm_compute; reflexivity | apply packageNode_here].
    - apply (bool_decide_unpack _). vm_compute. exact I.
    - eexists. vm_compute. reflexivity. }
  split; [exact Hnd |]. split; [exact Hc |].
  exact (Register_atomic_per_file registryF1 RegistryExamples.F3 Hnd eq_refl Hc).
Defined.

(** Without distinct names the registry does not stay as it was.  The
    file [Twice] of package [p] lists [M], [N], [N]; [M] is declared in
    the registry, so the file collides and is turned away over [p.M].  The
    first pass marks the first [N] and reports the second as a conflict,
    the second pass keeps what is among the conflicts, and so [N], which
    was free at the node of [p], is bound to the sentinel afterwards. *)
Lemma Register_leaves_repeated_name :
  collides registryF1 RegistrySamples.Twice ∧
  (registerFile registryF1 RegistrySamples.Twice).2
    = Some (NameConflict "twice.proto" "p.M") ∧
  subs (RegistrySamples.child (Files_filesByPackage registryF1) "p") !! "N"
    = None ∧
  subs (RegistrySamples.child
          (Files_filesByPackage (registerFile registryF1 RegistrySamples.Twice).1)
          "p") !! "N"
    = Some notProtoPackage ∧
  (registerFile registryF1 RegistrySamples.Twice).1 ≠ registryF1 ∧
  (Register registryF1 [RegistrySamples.Twice]).1 ≠ registryF1.
Proof.
  assert (∀ r, r = registryF1 →
               subs (RegistrySamples.child (Files_filesByPackage r) "p") !! "N"
               = None) as Hfree.
  { intros r ->. vm_compute. reflexivity. }
  assert (subs (RegistrySamples.child
                  (Files_filesByPackage
                     (registerFile registryF1 RegistrySamples.Twice).1) "p")
            !! "N" = Some notProtoPackage) as Hbound
    by (vm_compute; reflexivity).
  split; [| split; [| split; [| split; [| split]]]].
  - eexists _, "M". split; [| split].
    + eapply (packageNode_step _ "p" "p" "");
        [done | reflexivity | vm_compute; reflexivity | apply packageNode_here].
    + apply (bool_decide_unpack _). vm_compute. exact I.
    + eexists. vm_compute. reflexivity.
  - vm_compute. reflexivity.
  - by apply Hfree.
  - exact Hbound.
  - intros Heq. apply Hfree in Heq. congruence.
  - rewrite Register_singleton. intros Heq. apply Hfree in Heq. congruence.
Qed.

(** A file listed under its path and installed at its package node is
    enumerated and its declared names are found. *)
Lemma declared_findable (r : Files) (f : FileDescriptor) :
  listed r f →
  declaredAt (Files_filesByPackage r) (Package f) f (topLevelDeclarations f) →
  f ∈ (RangeFilesByPath (Some r) (Path f) (logging visitAll) ([], tt)).1 ∧
  f ∈ (RangeFiles (Some r) (logging visitAll) ([], tt)).1 ∧
  ∀ s d,
    s ∈ topLevelDeclarations f →
    wellFormedPackage (Package f) = true →
    wellFormedName s = true →
    DescriptorByName f (Append (Package f) s) = Some d →
    ∃ d', FindDescriptorByName (Some r) (Append (Package f) s) = (Some d', None).
Proof.
  intros Hl (node & Hnode & Hin & Hb). split; [| split].
  - by rewrite RangeFilesByPath_logging.
  - apply registered_holds. eapply packageNode_holds; [done |]. by constructor.
  - intros s d Hs Hwp Hws Hdesc. unfold FindDescriptorByName.
    destruct (findWalk_declared (Append (Package f) s) f s d _ _ _
                Hnode Hin (Hb s Hs) Hwp Hws Hdesc
                (S (String.length (Append (Package f) s))) ltac:(lia))
      as [d' ->].
    by exists d'.
Qed.

(** C6.  In one [Register] call the error returned is that of the first
    file rejected, and a rejected file whose top-level names are pairwise
    distinct does not stand in the way of the files after it.  If no file
    of [pre] is rejected and [bad], whose names are pairwise distinct, is
    rejected with [e], then the call on [pre ++ bad :: post] returns [e]
    and leaves the registry that the call without [bad] leaves.  Every
    later file accepted in its turn is afterwards enumerated under its
    path and among all files, and each of its declared names that it
    answers for is found by [FindDescriptorByName]. *)
Theorem Register_first_conflict (r : Files) (pre post : list FileDescriptor)
    (bad : FileDescriptor) (e : error) :
  (Register r pre).2 = None →
  NoDup (topLevelDeclarations bad) →
  (registerFile (Register r pre).1 bad).2 = Some e →
  Register r (pre ++ bad :: post) = ((Register r (pre ++ post)).1, Some e) ∧
  ∀ p1 good p2,
    post = (p1 ++ good :: p2)%list →
    IsPlaceholder good = false →
    (registerFile (Register r (pre ++ p1)).1 good).2 = None →
    let final := Some (Register r (pre ++ bad :: post)).1 in
    good ∈ (RangeFilesByPath final (Path good) (logging visitAll) ([], tt)).1 ∧
    good ∈ (RangeFiles final (logging visitAll) ([], tt)).1 ∧
    ∀ s d,
      s ∈ topLevelDeclarations good →
      wellFormedPackage (Package good) = true →
      wellFormedName s = true →
      DescriptorByName good (Append (Package good) s) = Some d →
      ∃ d', FindDescriptorByName final (Append (Package good) s) = (Some d', None).
Proof.
  intros Hpre Hnd Hbad.
  assert (Register r (pre ++ bad :: post) = ((Register r (pre ++ post)).1, Some e))
    as Hfinal.
  { unfold Register. rewrite !registerLoop_app. fold (Register r pre).
    rewrite Hpre. simpl.
    destruct (registerFile (Register r pre).1 bad) as [r' err] eqn:Hreg.
    simpl in Hbad; subst err.
    apply registerFile_atomic in Hreg as ->; [| done].
    rewrite (surjective_pairing (registerLoop _ (Some e) post)).
    by rewrite registerLoop_firstErr, (registerLoop_registry _ (Some e) None). }
  split; [done |].
  intros p1 good p2 -> Hph Hgood final. subst final. rewrite Hfinal.
  cbn [fst]. rewrite app_assoc. unfold Register. rewrite registerLoop_app.
  fold (Register r (pre ++ p1)). cbn [registerLoop].
  destruct (registerFile (Register r (pre ++ p1)).1 good) as [r1 err] eqn:Hreg.
  simpl in Hgood; subst err.
  destruct (registerFile_accepts _ _ _ Hph Hreg) as [Hl Hd].
  set (firstErr := if (Register r (pre ++ p1)).2 is Some _
                   then (Register r (pre ++ p1)).2 else None).
  destruct (registerLoop_preserves p2 good (topLevelDeclarations good) r1 firstErr)
    as [Hl' Hd'].
  apply declared_findable; auto.
Qed.

Lemma Register_first_conflict_witness :
  let r := newFiles in
  let pre := [RegistryExamples.F1] in
  let bad := RegistryExamples.F3 in
  let post := [RegistryExamples.F2; RegistryExamples.F4] in
  let e := NameConflict "f3.proto" "p.M" in
  Register r (pre ++ bad :: post) = ((Register r (pre ++ post)).1, Some e) ∧
  ∃ d', FindDescriptorByName (Some (Register r (pre ++ bad :: post)).1) "p.N"
        = (Some d', None).
Proof.
  intros r pre bad post e.
  assert ((Register r pre).2 = None) as H1 by (vm_compute; reflexivity).
  assert (NoDup (topLevelDeclarations bad)) as H2.
  { apply (bool_decide_unpack _). vm_compute. exact I. }
  assert ((registerFile (Register r pre).1 bad).2 = Some e) as H3
    by (vm_compute; reflexivity).
  destruct (Register_first_conflict r pre post bad e H1 H2 H3) as [Hfinal Hgood].
  split; [exact Hfinal |].
  destruct (Hgood [] RegistryExamples.F2 [RegistryExamples.F4] eq_refl eq_refl)
    as (_ & _ & Hfind).
  { vm_compute. reflexivity. }
  apply (Hfind "N" (mkDescriptor "p.N" "f2.proto")).
  - apply (bool_decide_unpack _). vm_compute. exact I.
  - reflexivity.
  - reflexivity.
  - vm_compute. reflexivity.
Defined.

(** A rejected file that lists a name twice does stand in the way.  [F2]
    declares [N] in package [p] and conflicts with nothing in the
    registry: registered on its own it is accepted and [p.N] is found.  In
    a call after [Twice], which is rejected over [p.M] and leaves [N]
    bound, [F2] is turned away over [p.N]: the call returns the error of
    [Twice], [F2] is enumerated neither among all files nor under its
    path, and [p.N] is not found. *)
Lemma Register_later_file_turned_away :
  (Register registryF1 [RegistryExamples.F2]).2 = None ∧
  FindDescriptorByName (Some (Register registryF1 [RegistryExamples.F2]).1) "p.N"
    = (Some (mkDescriptor "p.N" "f2.proto"), None) ∧
  (Register registryF1 [RegistrySamples.Twice; RegistryExamples.F2]).2
    = Some (NameConflict "twice.proto" "p.M") ∧
  (registerFile (registerFile registryF1 RegistrySamples.Twice).1
     RegistryExamples.F2).2
    = Some (NameConflict "f2.proto" "p.N") ∧
  Path <$> registered
             (Some (Register registryF1
                      [RegistrySamples.Twice; RegistryExamples.F2]).1)
    = ["f1.proto"] ∧
  filesAtPath
    (Some (Register registryF1 [RegistrySamples.Twice; RegistryExamples.F2]).1)
    "f2.proto" = [] ∧
  FindDescriptorByName
    (Some (Register registryF1 [RegistrySamples.Twice; RegistryExamples.F2]).1)
    "p.N" = (None, Some NotFound).
Proof. repeat split; vm_compute; reflexivity. Qed.

(** C7.  [FindDescriptorByName] on a full name that no registered file
    answers returns the nil descriptor with the [NotFound] sentinel, for
    every registry, nil or not, and every name; the lookup has no panic
    and always returns. *)
Theorem FindDescriptorByName_notFound (r : option Files) (name : FullName) :
  (∀ fd, fd ∈ registered r → DescriptorByName fd name = None) →
  FindDescriptorByName r name = (None, Some NotFound).
Proof.
  destruct r as [r|]; [| done]. intros Hnone. unfold FindDescriptorByName.
  destruct (findWalk_total name (S (String.length name)) name
              (Files_filesByPackage r) ltac:(lia)) as [res Hres].
  rewrite Hres. simpl. eapply findWalk_notFound; [| done].
  intros fd Hfd. apply Hnone. by apply registered_holds.
Qed.

Lemma registered_registryF1 :
  registered (Some registryF1) = [RegistryExamples.F1].
Proof. vm_compute. reflexivity. Defined.

Lemma FindDescriptorByName_notFound_witness :
  (∀ fd, fd ∈ registered (Some registryF1) → DescriptorByName fd "p.N" = None) ∧
  FindDescriptorByName (Some registryF1) "p.N" = (None, Some NotFound).
Proof.
  assert (∀ fd, fd ∈ registered (Some registryF1) →
                DescriptorByName fd "p.N" = None) as H.
  { intros fd Hfd. rewrite registered_registryF1 in Hfd.
    apply list_elem_of_singleton in Hfd as ->. reflexivity. }
  split; [exact H |].
  exact (FindDescriptorByName_notFound (Some registryF1) "p.N" H).
Defined.

(** The scenario of three files in one package: [F1] declares [M], [F2]
    declares [N], [F3] declares [M] again.  The third is turned away with a
    conflict over [p.M], and [p.M] still resolves to the descriptor of
    [F1]. *)
Example three_files_in_one_package :
  let r := Register newFiles
             [RegistryExamples.F1; RegistryExamples.F2; RegistryExamples.F3] in
  r.2 = Some (NameConflict "f3.proto" "p.M") ∧
  FindDescriptorByName (Some r.1) "p.M"
    = (Some (mkDescriptor "p.M" "f1.proto"), None) ∧
  FindDescriptorByName (Some r.1) "p.N"
    = (Some (mkDescriptor "p.N" "f2.proto"), None) ∧
  FindDescriptorByName (Some r.1) "p.K" = (None, Some NotFound) ∧
  Path <$> registered (Some r.1) = ["f1.proto"; "f2.proto"].
Proof. repeat split; vm_compute; reflexivity. Qed.

(** C10.  Every lookup on a nil registry returns without a panic:
    [FindDescriptorByName] answers [NotFound], and [RangeFiles],
    [RangeFilesByPackage] and [RangeFilesByPath] call their callback zero
    times, leaving the callback's state and the log of its calls as they
    were. *)
Theorem nil_registry_lookups {St : Type} (f : callback St) (s : St)
    (name pkg : FullName) (path : string) :
  FindDescriptorByName None name = (None, Some NotFound) ∧
  RangeFiles None (logging f) ([], s) = ([], s) ∧
  RangeFilesByPackage None pkg (logging f) ([], s) = ([], s) ∧
  RangeFilesByPath None path (logging f) ([], s) = ([], s).
Proof. repeat split. Qed.

(** * Further properties of the registry *)

(** ** Names *)

Section NameFacts.
Import GoStrings.

Lemma IndexByte_cons (c a : ascii) (s : string) :
  IndexByte (String a s) c =
    if Ascii.eqb a c then 0%Z
    else if (IndexByte s c <? 0)%Z then (-1)%Z else (IndexByte s c + 1)%Z.
Proof. reflexivity. Qed.

Lemma IndexByte_neg (s : string) (c : ascii) :
  (IndexByte s c < 0)%Z → IndexByte s c = (-1)%Z.
Proof. pose proof (IndexByte_bounds s c). lia. Qed.

End NameFacts.

(** X1.  [splitPrefix] cuts a full name at its first dot: the prefix holds
    no dot, the name is the prefix, the dot and the rest put together again,
    and a name without a dot is its own prefix with nothing left. *)
Theorem splitPrefix_join (name : FullName) :
  GoStrings.IndexByte (splitPrefix name).1 "." = (-1)%Z ∧
  name = (if (0 <=? GoStrings.IndexByte name ".")%Z
          then (splitPrefix name).1 ++ "." ++ (splitPrefix name).2
          else (splitPrefix name).1) ∧
  (if (0 <=? GoStrings.IndexByte name ".")%Z then True
   else (splitPrefix name).2 = "").
Proof.
  induction name as [|c s (IH1 & IH2 & IH3)]; [done |].
  rewrite splitPrefix_cons, IndexByte_cons.
  destruct (Ascii.eqb_spec c ".") as [-> | Hc]; [done |].
  cbn [fst snd]. rewrite IndexByte_cons.
  destruct (Ascii.eqb_spec c ".") as [-> | _]; [done |].
  rewrite IH1. cbn [Z.ltb Z.compare].
  pose proof (IndexByte_bounds s ".") as Hb.
  destruct (Z.ltb_spec (GoStrings.IndexByte s ".") 0) as [Hneg | Hpos].
  - cbn [Z.leb Z.compare]. split; [done |].
    destruct (Z.leb_spec 0 (GoStrings.IndexByte s ".")) as [? | _]; [lia |].
    split; [by rewrite <- IH2 | done].
  - destruct (Z.leb_spec 0 (GoStrings.IndexByte s ".")) as [_ | ?]; [| lia].
    destruct (Z.leb_spec 0 (GoStrings.IndexByte s "." + 1)) as [_ | ?]; [| lia].
    split; [done |]. split; [| done]. by rewrite IH2 at 1.
Qed.

(** ** Batches *)

Section BatchFacts.

Lemma registerLoop_acc (r : Files) (e : option error)
    (fs : list FileDescriptor) :
  registerLoop r e fs =
    ((registerLoop r None fs).1,
     if e is Some _ then e else (registerLoop r None fs).2).
Proof.
  destruct e as [e|].
  - rewrite (surjective_pairing (registerLoop r (Some e) fs)).
    by rewrite registerLoop_firstErr, (registerLoop_registry _ (Some e) None).
  - by rewrite <- surjective_pairing.
Qed.

Lemma registerFile_placeholder (r : Files) (file : FileDescriptor) :
  IsPlaceholder file = true → registerFile r file = (r, None).
Proof. unfold registerFile. by intros ->. Qed.

End BatchFacts.

(** X2.  [Register] ignores placeholder files: a batch leaves the registry
    and returns the error that the batch without its placeholders does. *)
Theorem Register_skips_placeholders (r : Files) (fs : list FileDescriptor) :
  Register r fs = Register r (filter (λ f, IsPlaceholder f = false) fs).
Proof.
  unfold Register. generalize (@None error) as e. revert r.
  induction fs as [|f fs IH]; intros r e; [done |].
  rewrite filter_cons. destruct (decide (IsPlaceholder f = false)) as [Hf | Hf].
  - simpl. destruct (registerFile r f) as [r' err]. apply IH.
  - apply not_false_is_true in Hf. cbn [registerLoop].
    rewrite registerFile_placeholder by done. rewrite <- IH. by destruct e.
Qed.

(** X3.  One [Register] call on a batch is the calls on its two halves one
    after the other: the second half is registered into what the first
    left, and the error is that of the first half if it has one, else that
    of the second. *)
Theorem Register_batches (r : Files) (fs1 fs2 : list FileDescriptor) :
  Register r (fs1 ++ fs2) =
    ((Register (Register r fs1).1 fs2).1,
     if (Register r fs1).2 is Some _ then (Register r fs1).2
     else (Register (Register r fs1).1 fs2).2).
Proof.
  unfold Register. rewrite registerLoop_app. apply registerLoop_acc.
Qed.

(** ** Enumerations *)

Section EnumerationFacts.

Lemma rangeSlice_app {St} (a b : list FileDescriptor) (f : callback St) (s : St) :
  rangeSlice (a ++ b) f s =
    if (rangeSlice a f s).1 then rangeSlice b f (rangeSlice a f s).2
    else (false, (rangeSlice a f s).2).
Proof.
  revert s. induction a as [|fd a IH]; intros s; [done |].
  simpl. destruct (f fd s) as [c s']. destruct c; [apply IH | done].
Qed.

Lemma filesOf_unfold (n : filesByPackage) :
  filesOf n = (files n ++ subFiles (map_to_list (subs n)))%list.
Proof.
  destruct n as [fs sbs]. cbn [filesOf files subs]. f_equal.
  rewrite map_fold_foldr. unfold subFiles.
  induction (map_to_list sbs) as [|[k p] l IH]; [done |].
  simpl. rewrite IH. destruct p; simpl; [by rewrite app_nil_r | done].
Qed.

Lemma rangeFiles_run (d : nat) :
  ∀ n, (height n ≤ d)%nat →
  ∀ St (f : callback St) (s : St), rangeFiles n f s = rangeSlice (filesOf n) f s.
Proof.
  induction d as [|d IH]; intros n Hd St f s.
  { destruct n; simpl in Hd; lia. }
  assert (∀ k c, (k, subPackage c) ∈ map_to_list (subs n) → (height c ≤ d)%nat)
    as Hsubs.
  { intros k c Hk%elem_of_map_to_list%height_sub. lia. }
  clear Hd. rewrite filesOf_unfold, rangeSlice_app.
  destruct n as [fs sbs]; cbn [rangeFiles files subs] in *.
  destruct (rangeSlice fs f s) as [b s1]. destruct b; [| done].
  rewrite map_fold_foldr. cbn [fst snd].
  induction (map_to_list sbs) as [|[k p] l IHl]; [done |].
  cbn [foldr subFiles]. fold (subFiles l). rewrite rangeSlice_app.
  rewrite IHl by (intros k' c' ?; apply (Hsubs k' c'); by right).
  cbn [uncurry fst snd].
  destruct (rangeSlice (subFiles l) f s1) as [b s2]. cbn [fst snd].
  destruct b; [| done]. destruct p as [|c]; [done |].
  apply IH, (Hsubs k). by left.
Qed.

Lemma rangeFiles_filesOf {St} (n : filesByPackage) (f : callback St) (s : St) :
  rangeFiles n f s = rangeSlice (filesOf n) f s.
Proof. by apply (rangeFiles_run (height n)). Qed.

Lemma filesUnder_None (pkg : FullName) : filesUnder None pkg = [].
Proof. reflexivity. Qed.

Lemma registered_filesOf (r : Files) :
  registered (Some r) = filesOf (Files_filesByPackage r).
Proof.
  unfold registered, RangeFiles, RangeFilesByPackage. simpl.
  by rewrite rangeFiles_filesOf, rangeSlice_logging.
Qed.

End EnumerationFacts.

(** X4.  [RangeFilesByPackage], [RangeFiles] and [RangeFilesByPath] are
    loops with a break over a list of files that does not depend on the
    callback: the callback is called on the files in the order of the list
    until it answers false, and never after that. *)
Theorem RangeFiles_run {St : Type} (r : option Files) (pkg : FullName)
    (path : string) (f : callback St) (s : St) :
  RangeFilesByPackage r pkg f s = (rangeSlice (filesUnder r pkg) f s).2 ∧
  RangeFiles r f s = (rangeSlice (registered r) f s).2 ∧
  RangeFilesByPath r path f s = (rangeSlice (filesAtPath r path) f s).2.
Proof.
  assert (∀ pkg, RangeFilesByPackage r pkg f s
                 = (rangeSlice (filesUnder r pkg) f s).2) as H.
  { intros q. unfold filesUnder, RangeFilesByPackage.
    destruct r as [r|]; [| done].
    destruct (GoStrings.HasSuffix q "."); [done |].
    destruct (rangeWalk _ _ _) as [[root|]|]; [| done | done].
    by rewrite !rangeFiles_filesOf, rangeSlice_logging. }
  split; [apply H |]. split; [apply H |].
  unfold filesAtPath, RangeFilesByPath. destruct r as [r|]; [| done].
  by rewrite rangeSlice_logging.
Qed.

Section ExactMatches.

Lemma rangeWalk_packageNode root pkg node :
  packageNode root pkg node →
  ∀ fuel, (String.length pkg < fuel)%nat →
  rangeWalk fuel pkg (Some root) = Some (Some node).
Proof.
  induction 1 as [root | root pkg prefix pkg' child node Hne Hsplit Hsub _ IH];
    intros [|fuel] Hfuel; try lia; [done |].
  cbn [rangeWalk]. rewrite (proj2 (length_pos_ne pkg) Hne), Hsplit, Hsub.
  apply IH. pose proof (splitPrefix_length pkg Hne) as Hlen.
  rewrite Hsplit in Hlen. simpl in Hlen. lia.
Qed.

Lemma elem_of_filesOf (n : filesByPackage) (fd : FileDescriptor) :
  fd ∈ filesOf n ↔ holds n fd.
Proof.
  destruct (rangeFiles_logging (height n) n [] ltac:(lia)) as (X & HX & Hin).
  rewrite rangeFiles_filesOf, rangeSlice_logging in HX.
  injection HX as <-. apply Hin.
Qed.

Lemma elem_of_subFiles (l : list (Name * sub filesByPackage))
    (fd : FileDescriptor) :
  fd ∈ subFiles l ↔ ∃ k c, (k, subPackage c) ∈ l ∧ holds c fd.
Proof.
  induction l as [|[k p] l IH]; simpl.
  - split; [by intros ?%elem_of_nil | by intros (? & ? & ?%elem_of_nil & _)].
  - fold (subFiles l). rewrite elem_of_app, IH. split.
    + intros [(k' & c & Hk & Hc) | Hp].
      * exists k', c. split; [by right | done].
      * destruct p as [|c]; [by apply elem_of_nil in Hp |].
        exists k, c. split; [by left | by apply elem_of_filesOf].
    + intros (k' & c & Hk & Hc). apply elem_of_cons in Hk as [[= -> <-] | Hk].
      * right. by apply elem_of_filesOf.
      * left. eauto.
Qed.

End ExactMatches.

(** X5.  [RangeFilesByPackage] visits the files whose package is exactly
    [pkg], those listed at the node of [pkg], in the order of that list,
    before any file of a package below [pkg]; what follows them are the
    files held by the sub-package nodes of the node of [pkg]. *)
Theorem RangeFilesByPackage_exact_first (r : Files) (pkg : FullName)
    (node : filesByPackage) :
  packageNode (Files_filesByPackage r) pkg node →
  wellFormedPackage pkg = true →
  ∃ below,
    filesUnder (Some r) pkg = (files node ++ below)%list ∧
    ∀ fd, fd ∈ below ↔
          ∃ k c, subs node !! k = Some (subPackage c) ∧ holds c fd.
Proof.
  intros Hnode Hwf. exists (subFiles (map_to_list (subs node))). split.
  - unfold filesUnder, RangeFilesByPackage.
    unfold wellFormedPackage in Hwf. apply negb_true_iff in Hwf. rewrite Hwf.
    rewrite (rangeWalk_packageNode _ _ _ Hnode) by lia.
    by rewrite rangeFiles_filesOf, rangeSlice_logging, filesOf_unfold.
  - intros fd. rewrite elem_of_subFiles.
    by setoid_rewrite elem_of_map_to_list.
Qed.

(** ** What a round of [Register] adds to the enumerations *)

Section Added.

Lemma subFiles_cons (kp : Name * sub filesByPackage)
    (l : list (Name * sub filesByPackage)) :
  subFiles (kp :: l) = (subFiles l ++ entryFiles kp.2)%list.
Proof. reflexivity. Qed.

Lemma subFiles_perm (l l' : list (Name * sub filesByPackage)) :
  l ≡ₚ l' → subFiles l ≡ₚ subFiles l'.
Proof.
  induction 1 as [| x l l' _ IH | x y l | l l' l'' _ IH1 _ IH2].
  - done.
  - rewrite !subFiles_cons. by rewrite IH.
  - rewrite !subFiles_cons, <- !app_assoc. f_equiv. apply Permutation_app_comm.
  - by etrans.
Qed.

Lemma subFiles_insert (m : gmap Name (sub filesByPackage)) (k : Name)
    (p : sub filesByPackage) :
  subFiles (map_to_list (<[k := p]> m))
    ≡ₚ (subFiles (map_to_list (delete k m)) ++ entryFiles p)%list.
Proof.
  rewrite <- insert_delete_eq.
  rewrite (subFiles_perm _ _ (map_to_list_insert (delete k m) k p
                                (lookup_delete_eq m k))).
  by rewrite subFiles_cons.
Qed.

Lemma subFiles_lookup (m : gmap Name (sub filesByPackage)) (k : Name)
    (p : sub filesByPackage) :
  m !! k = Some p →
  subFiles (map_to_list m)
    ≡ₚ (subFiles (map_to_list (delete k m)) ++ entryFiles p)%list.
Proof.
  intros Hk. rewrite <- (insert_id m k p Hk) at 1. apply subFiles_insert.
Qed.

Lemma subFiles_sentinels (l : list (Name * sub filesByPackage)) :
  (∀ k c, (k, subPackage c) ∉ l) → subFiles l = [].
Proof.
  induction l as [|[k p] l IH]; intros Hl; [done |].
  rewrite subFiles_cons, IH.
  - destruct p as [|c]; [done |]. exfalso. apply (Hl k c). by left.
  - intros k' c' Hin. apply (Hl k' c'). by right.
Qed.

Lemma sameNodes_refl m : sameNodes m m.
Proof. by intros k c. Qed.

Lemma sameNodes_trans m1 m2 m3 :
  sameNodes m1 m2 → sameNodes m2 m3 → sameNodes m1 m3.
Proof. intros H1 H2 k c. by rewrite (H1 k c). Qed.

Lemma subFiles_sameNodes (m : gmap Name (sub filesByPackage)) :
  ∀ m', sameNodes m m' →
  subFiles (map_to_list m) ≡ₚ subFiles (map_to_list m').
Proof.
  induction m as [|i x m Hi IH] using map_ind; intros m' Hs.
  - rewrite map_to_list_empty. simpl. rewrite subFiles_sentinels; [done |].
    intros k c Hk%elem_of_map_to_list. apply Hs in Hk.
    by rewrite lookup_empty in Hk.
  - rewrite (subFiles_perm _ _ (map_to_list_insert m i x Hi)), subFiles_cons.
    destruct x as [|c]; simpl.
    + rewrite app_nil_r. apply IH. intros k c.
      destruct (decide (k = i)) as [-> | Hne].
      * rewrite Hi. split; [done |]. intros Hk%Hs.
        by rewrite lookup_insert_eq in Hk.
      * by rewrite <- (Hs k c), lookup_insert_ne.
    + assert (m' !! i = Some (subPackage c)) as Hi'.
      { apply Hs. apply lookup_insert_eq. }
      rewrite (subFiles_lookup m' i _ Hi'). simpl. f_equiv.
      apply IH. intros k c'. destruct (decide (k = i)) as [-> | Hne].
      * by rewrite Hi, lookup_delete_eq.
      * by rewrite lookup_delete_ne, <- (Hs k c'), lookup_insert_ne.
Qed.

Lemma registerAtPackage_sameNodes (file : FileDescriptor) (root : filesByPackage) :
  sameNodes (subs root) (subs (registerAtPackage file root).1).
Proof.
  rewrite registerAtPackage_eq. cbv zeta.
  set (l := topLevelDeclarations file).
  assert (sameNodes (subs root) (markAll l (subs root, [])).1) as Hmark.
  { intros k c. rewrite markAll_lookup.
    destruct (subs root !! k) as [v|]; [done |]. by destruct (decide _). }
  destruct (0 <? length _)%nat eqn:Hc; cbn [fst subs]; [| done].
  intros k c. rewrite unmarkAll_lookup by apply Slice_sorted.
  destruct (decide _) as [[Hl Hnc] | _]; [| apply Hmark].
  split; [| done]. intros Hk. exfalso. apply Hnc.
  rewrite Slice_perm. apply markAll_conflicts_complete. right.
  split; [done | by eexists].
Qed.

Lemma registerAtPackage_filesOf (file : FileDescriptor) (root : filesByPackage) :
  filesOf (registerAtPackage file root).1
    ≡ₚ (filesOf root ++
        if (registerAtPackage file root).2 is None then [file] else [])%list.
Proof.
  pose proof (subFiles_sameNodes _ _ (registerAtPackage_sameNodes file root))
    as Hs.
  rewrite !filesOf_unfold, <- Hs. clear Hs.
  rewrite registerAtPackage_eq. cbv zeta.
  destruct (0 <? length _)%nat; cbn [fst snd files].
  - by rewrite app_nil_r.
  - rewrite <- !app_assoc. f_equiv. apply Permutation_app_comm.
Qed.

Lemma registerWalk_filesOf (file : FileDescriptor) (fuel : nat) :
  ∀ pkg root root' err,
    registerWalk fuel file pkg root = Some (root', err) →
    filesOf root' ≡ₚ (filesOf root ++ if err is None then [file] else [])%list.
Proof.
  induction fuel as [|fuel IH]; intros pkg root root' err; [done |].
  cbn [registerWalk]. destruct (0 <? String.length pkg)%nat.
  - destruct (splitPrefix pkg) as [prefix pkg'].
    destruct (subs root !! prefix) as [[|child]|] eqn:Hsub.
    + intros [= <- <-]. by rewrite app_nil_r.
    + destruct (registerWalk fuel file pkg' child) as [[next e]|] eqn:Hw;
        [| done].
      simpl. intros [= <- <-]. apply IH in Hw.
      rewrite !filesOf_unfold. cbn [files subs].
      rewrite subFiles_insert, (subFiles_lookup _ _ _ Hsub). simpl.
      rewrite Hw. by rewrite <- !app_assoc.
    + destruct (registerWalk fuel file pkg' newFilesByPackage)
        as [[next e]|] eqn:Hw; [| done].
      simpl. intros [= <- <-]. apply IH in Hw.
      rewrite !filesOf_unfold. cbn [files subs].
      rewrite subFiles_insert, delete_id by done. simpl.
      rewrite Hw. rewrite filesOf_unfold. simpl.
      rewrite map_to_list_empty. simpl. by rewrite <- !app_assoc.
  - intros [= Hreg]. pose proof (registerAtPackage_filesOf file root) as H.
    by rewrite Hreg in H.
Qed.

Lemma registerFile_registered (r : Files) (file : FileDescriptor) :
  registered (Some (registerFile r file).1)
    ≡ₚ (registered (Some r) ++ if accepted r file then [file] else [])%list.
Proof.
  rewrite !registered_filesOf. unfold accepted, registerFile.
  destruct (IsPlaceholder file); cbn [negb andb fst snd];
    [by rewrite app_nil_r |].
  destruct (registerWalk _ _ _ _) as [[root [e|]]|] eqn:Hw;
    cbn [fst snd Files_filesByPackage].
  - apply registerWalk_filesOf in Hw. by rewrite Hw.
  - by apply registerWalk_filesOf in Hw.
  - destruct (registerWalk_total file (S (String.length (Package file)))
                (Package file) (Files_filesByPackage r)) as [? ?];
      [lia | congruence].
Qed.

Lemma registerFile_filesAtPath (r : Files) (file : FileDescriptor)
    (path : string) :
  filesAtPath (Some (registerFile r file).1) path =
    (filesAtPath (Some r) path ++
     if accepted r file && bool_decide (Path file = path) then [file] else [])%list.
Proof.
  unfold filesAtPath. rewrite !RangeFilesByPath_logging.
  unfold accepted, registerFile.
  destruct (IsPlaceholder file); cbn [negb andb fst snd];
    [by rewrite app_nil_r |].
  destruct (registerWalk _ _ _ _) as [[root [e|]]|] eqn:Hw;
    cbn [negb andb fst snd Files_filesByPath]; [by rewrite app_nil_r | |].
  2:{ destruct (registerWalk_total file (S (String.length (Package file)))
                  (Package file) (Files_filesByPackage r)) as [? ?];
        [lia | congruence]. }
  case_bool_decide as Hp.
  - subst path. by rewrite lookup_insert_eq.
  - rewrite lookup_insert_ne by done. by rewrite app_nil_r.
Qed.

Lemma Register_cons (r : Files) (file : FileDescriptor)
    (fs : list FileDescriptor) :
  (Register r (file :: fs)).1 = (Register (registerFile r file).1 fs).1.
Proof.
  unfold Register. cbn [registerLoop].
  destruct (registerFile r file) as [r' e]. apply registerLoop_registry.
Qed.

End Added.

(** X6.  What [RangeFiles] enumerates after a [Register] call is what it
    enumerated before together with the files the call accepted, each of
    these once; a file that was rejected or is a placeholder is not
    added, and no file is dropped. *)
Theorem Register_registered (r : Files) (fs : list FileDescriptor) :
  registered (Some (Register r fs).1)
    ≡ₚ (registered (Some r) ++ acceptedFiles r fs)%list.
Proof.
  revert r. induction fs as [|f fs IH]; intros r.
  - simpl. by rewrite app_nil_r.
  - rewrite Register_cons, IH, registerFile_registered. simpl.
    by rewrite <- app_assoc.
Qed.

(** X7.  [RangeFilesByPath] enumerates, after a [Register] call, the files
    it enumerated before followed by the accepted files of that path in the
    order of the call: files that share a path are all kept, in the order
    of their registration. *)
Theorem Register_filesAtPath (r : Files) (fs : list FileDescriptor)
    (path : string) :
  filesAtPath (Some (Register r fs).1) path =
    (filesAtPath (Some r) path ++
     filter (λ f, Path f = path) (acceptedFiles r fs))%list.
Proof.
  revert r. induction fs as [|f fs IH]; intros r.
  - simpl. by rewrite app_nil_r.
  - rewrite Register_cons, IH, registerFile_filesAtPath. simpl.
    rewrite <- app_assoc. f_equal. rewrite filter_app. f_equal.
    destruct (accepted r f); simpl; [| done].
    rewrite filter_cons, filter_nil. by case_bool_decide; case_decide.
Qed.

Section IndexFacts.

Lemma registered_newFiles : registered (Some newFiles) = [].
Proof. reflexivity. Qed.

Lemma filesAtPath_newFiles (path : string) : filesAtPath (Some newFiles) path = [].
Proof. unfold filesAtPath. by rewrite RangeFilesByPath_logging. Qed.

End IndexFacts.

(** X8.  The two indexes of the registry stay in step.  If the files
    [RangeFilesByPath] enumerates for every path are those [RangeFiles]
    enumerates that have this path, then this is so after any [Register]
    call; it is so in the empty registry, hence in every registry built by
    [NewFiles] and [Register]. *)
Theorem Register_indexes_agree (r : Files) (fs : list FileDescriptor) :
  (∀ path, filesAtPath (Some r) path
             ≡ₚ filter (λ f, Path f = path) (registered (Some r))) →
  ∀ path, filesAtPath (Some (Register r fs).1) path
            ≡ₚ filter (λ f, Path f = path) (registered (Some (Register r fs).1)).
Proof.
  intros Hr path. revert r Hr. induction fs as [|f fs IH]; intros r Hr.
  - apply Hr.
  - rewrite Register_cons. apply IH. intros q.
    rewrite registerFile_filesAtPath, registerFile_registered, filter_app, Hr.
    f_equiv. destruct (accepted r f); simpl; [| done].
    rewrite filter_cons, filter_nil. by case_bool_decide; case_decide.
Qed.

(** ** Lookups by name *)

Section NameLookups.
Import GoStrings.

Lemma findWalk_packageNode (name : FullName) root pkg node :
  packageNode root pkg node →
  ∀ fuel, (String.length pkg < fuel)%nat →
  findWalk fuel name pkg root = Some (None, Some NotFound).
Proof.
  induction 1 as [root | root pkg prefix pkg' child node Hne Hsplit Hsub _ IH];
    intros [|fuel] Hfuel; try lia; [done |].
  cbn [findWalk]. rewrite (proj2 (length_pos_ne pkg) Hne), Hsplit, Hsub.
  apply IH. pose proof (splitPrefix_length pkg Hne) as Hlen.
  rewrite Hsplit in Hlen. simpl in Hlen. lia.
Qed.

Lemma Append_nil (q : string) : Append "" q = q.
Proof. reflexivity. Qed.

Lemma Append_not_nil (pkg : FullName) (q : string) :
  q ≠ "" → Append pkg q ≠ "".
Proof. destruct pkg; [done | by rewrite Append_cons]. Qed.

(** The walk over [pkg.q] goes down to the node of [pkg] and looks [q]
    up there. *)
Lemma findWalk_resolve (name : FullName) root pkg node (q : string)
    (s : Name) (rest : string) :
  packageNode root pkg node →
  wellFormedPackage pkg = true →
  q ≠ "" → splitPrefix q = (s, rest) →
  subs node !! s = Some notProtoPackage →
  ∀ fuel, (String.length (Append pkg q) < fuel)%nat →
  findWalk fuel name (Append pkg q) root = Some (searchFiles (files node) name).
Proof.
  intros Hnode Hwf Hq Hsq Hb.
  induction Hnode as [root | root pkg prefix pkg' child node Hne Hsplit Hsub _ IH];
    intros [|fuel] Hfuel; try lia; cbn [findWalk].
  - rewrite Append_nil. by rewrite (proj2 (length_pos_ne q) Hq), Hsq, Hb.
  - destruct (splitPrefix_Append pkg q Hne Hwf) as [Heq Hwf'].
    rewrite Hsplit in Heq, Hwf'. simpl in Heq, Hwf'.
    pose proof (Append_not_nil pkg q Hq) as Hne'.
    pose proof (splitPrefix_length _ Hne') as Hdec.
    rewrite (proj2 (length_pos_ne _) Hne').
    rewrite Heq in *. simpl in Hdec. rewrite Hsub.
    apply IH; [done.. | lia].
Qed.

Lemma searchFiles_firstAnswer (fds : list FileDescriptor) (name : FullName) :
  searchFiles fds name =
    match firstAnswer fds name with
    | Some d => (Some d, None)
    | None => (None, Some NotFound)
    end.
Proof.
  unfold firstAnswer. induction fds as [|fd fds IH]; [done |].
  simpl. destruct (DescriptorByName fd name); [done | apply IH].
Qed.

Lemma splitPrefix_name (s : Name) :
  wellFormedName s = true → splitPrefix s = (s, "").
Proof. intros [_ Hdot]%andb_true_iff. by apply splitPrefix_no_dot. Qed.

Lemma splitPrefix_nested (s : Name) (rest : string) :
  wellFormedName s = true → splitPrefix (s ++ "." ++ rest) = (s, rest).
Proof.
  intros [_ Hdot]%andb_true_iff. apply Z.ltb_lt in Hdot.
  induction s as [|c s IH]; [exact (splitPrefix_cons "." rest) |].
  rewrite IndexByte_cons in Hdot.
  change (String c s ++ "." ++ rest) with (String c (s ++ "." ++ rest)).
  rewrite splitPrefix_cons.
  destruct (Ascii.eqb c "."); [lia |].
  destruct (Z.ltb_spec (IndexByte s ".") 0); [| lia].
  by rewrite IH.
Qed.

Lemma wellFormedName_ne (s : Name) : wellFormedName s = true → s ≠ "".
Proof. by destruct s. Qed.

Lemma findWalk_sound (name : FullName) (fuel : nat) :
  ∀ pkg root res,
    findWalk fuel name pkg root = Some res →
    res = (None, Some NotFound) ∨
    ∃ d fd, holds root fd ∧ DescriptorByName fd name = Some d ∧
            res = (Some d, None).
Proof.
  induction fuel as [|fuel IH]; intros pkg root res; [done |]. cbn [findWalk].
  destruct (0 <? String.length pkg)%nat; [| intros [= <-]; by left].
  destruct (splitPrefix pkg) as [prefix pkg'].
  destruct (subs root !! prefix) as [[|child]|] eqn:Hsub.
  - intros [= <-]. rewrite searchFiles_firstAnswer.
    destruct (firstAnswer (files root) name) as [d|] eqn:Hfirst; [| by left].
    right. unfold firstAnswer in Hfirst.
    apply head_Some_elem_of, list_elem_of_omap in Hfirst as (fd & Hfd & Hd).
    exists d, fd. split; [by constructor | done].
  - intros Hw. apply IH in Hw as [-> | (d & fd & Hh & Hd & ->)]; [by left |].
    right. exists d, fd. split; [by eapply holds_sub | done].
  - intros [= <-]. by left.
Qed.

End NameLookups.

(** X9.  The name of a package resolves to no descriptor: a lookup of a
    full name whose segments lead through sub-package nodes only, the empty
    name among them, answers [NotFound]. *)
Theorem FindDescriptorByName_package (r : Files) (name : FullName)
    (node : filesByPackage) :
  packageNode (Files_filesByPackage r) name node →
  FindDescriptorByName (Some r) name = (None, Some NotFound).
Proof.
  intros Hnode. unfold FindDescriptorByName.
  by rewrite (findWalk_packageNode name _ _ _ Hnode) by lia.
Qed.

(** X10.  A full name that is, or lies within, a top-level name [s] declared
    in the package [pkg] is resolved by the files of that package alone:
    the answer is that of the first of them, in the order of the list at
    the node of [pkg], that knows the full name, and [NotFound] if none of
    them does. *)
Theorem FindDescriptorByName_resolves (r : Files) (pkg : FullName)
    (node : filesByPackage) (s : Name) (rest : string) (name : FullName) :
  packageNode (Files_filesByPackage r) pkg node →
  wellFormedPackage pkg = true →
  wellFormedName s = true →
  subs node !! s = Some notProtoPackage →
  name = Append pkg s ∨ name = Append pkg (s ++ "." ++ rest) →
  FindDescriptorByName (Some r) name =
    match firstAnswer (files node) name with
    | Some d => (Some d, None)
    | None => (None, Some NotFound)
    end.
Proof.
  intros Hnode Hwf Hs Hb Hname. unfold FindDescriptorByName.
  rewrite <- searchFiles_firstAnswer.
  destruct Hname as [-> | ->].
  - rewrite (findWalk_resolve _ _ _ _ s s "" Hnode Hwf); try done; try lia.
    + by apply wellFormedName_ne.
    + by apply splitPrefix_name.
  - rewrite (findWalk_resolve _ _ _ _ (s ++ "." ++ rest) s rest Hnode Hwf);
      try done; try lia.
    + apply wellFormedName_ne in Hs. by destruct s.
    + by apply splitPrefix_nested.
Qed.

(** X11.  [FindDescriptorByName] answers either [NotFound] with no
    descriptor, or a descriptor with no error, and then the descriptor is
    the answer of a registered file, one that [RangeFiles] enumerates, to
    the very name asked for. *)
Theorem FindDescriptorByName_sound (r : option Files) (name : FullName) :
  FindDescriptorByName r name = (None, Some NotFound) ∨
  ∃ d fd, fd ∈ registered r ∧ DescriptorByName fd name = Some d ∧
          FindDescriptorByName r name = (Some d, None).
Proof.
  destruct r as [r|]; [| by left]. unfold FindDescriptorByName.
  destruct (findWalk _ _ _ _) as [res|] eqn:Hw; [| by left].
  apply findWalk_sound in Hw as [-> | (d & fd & Hh & Hd & ->)]; [by left |].
  right. exists d, fd. split; [by apply registered_holds | done].
Qed.

(** ** Conflicts *)

Section SuffixFacts.
Import GoStrings.

Lemma string_length_app (a b : string) :
  String.length (a ++ b) = (String.length a + String.length b)%nat.
Proof. induction a as [|c a IH]; simpl; [done | by rewrite IH]. Qed.

Lemma sliceTo_app (a b : string) : sliceTo (a ++ b) (String.length a) = a.
Proof.
  unfold sliceTo. induction a as [|c a IH]; simpl; [by destruct b | by rewrite IH].
Qed.

Lemma sliceFrom_app (a b : string) : sliceFrom (a ++ b) (String.length a) = b.
Proof.
  unfold sliceFrom. rewrite string_length_app.
  replace (String.length a + String.length b - String.length a)%nat
    with (String.length b) by lia.
  induction a as [|c a IH]; simpl; [apply substring_all | apply IH].
Qed.

Lemma HasSuffix_app (a b : string) : HasSuffix (a ++ b) b = true.
Proof.
  unfold HasSuffix. rewrite string_length_app.
  replace (String.length a + String.length b - String.length b)%nat
    with (String.length a) by lia.
  rewrite sliceFrom_app, String.eqb_refl, andb_true_r.
  apply Nat.leb_le. lia.
Qed.

Lemma TrimSuffix_app (a b : string) : TrimSuffix (a ++ b) b = a.
Proof.
  unfold TrimSuffix. rewrite HasSuffix_app, string_length_app.
  replace (String.length a + String.length b - String.length b)%nat
    with (String.length a) by lia.
  apply sliceTo_app.
Qed.

Lemma app_cons_string (c : ascii) (a b : string) :
  String c a ++ b = String c (a ++ b).
Proof. reflexivity. Qed.

Lemma app_nil_r_string (a : string) : a ++ "" = a.
Proof.
  induction a as [|c a IH]; [done |]. by rewrite app_cons_string, IH.
Qed.

Lemma app_assoc_string (a b c : string) : (a ++ b) ++ c = a ++ b ++ c.
Proof.
  induction a as [|x a IH]; [done |]. by rewrite !app_cons_string, IH.
Qed.

Lemma TrimSuffix_nil (a : string) : TrimSuffix a "" = a.
Proof. rewrite <- (app_nil_r_string a) at 1. apply TrimSuffix_app. Qed.

Lemma TrimSuffix_none (a b : string) : HasSuffix a b = false → TrimSuffix a b = a.
Proof. unfold TrimSuffix. by intros ->. Qed.

Lemma HasSuffix_dot_app (a b : string) :
  b ≠ "" → HasSuffix (a ++ b) "." = HasSuffix b ".".
Proof.
  intros Hb. induction a as [|c a IH]; [done |].
  change (String c a ++ b) with (String c (a ++ b)).
  rewrite HasSuffix_dot_cons.
  destruct (a ++ b) eqn:Hab; [| done].
  destruct a; [| done]. simpl in Hab. by subst.
Qed.

Lemma HasSuffix_dot_name (s : Name) :
  wellFormedName s = true → HasSuffix s "." = false.
Proof.
  intros [_ Hdot]%andb_true_iff. apply Z.ltb_lt in Hdot.
  induction s as [|c s IH]; [done |].
  rewrite IndexByte_cons in Hdot. rewrite HasSuffix_dot_cons.
  destruct (Ascii.eqb c ".") eqn:Hc; [lia |].
  destruct (Z.ltb_spec (IndexByte s ".") 0); [| lia].
  destruct s; [done | by apply IH].
Qed.

Lemma Append_app (pkg : FullName) (a b : string) :
  Append pkg (a ++ b) = Append pkg a ++ b.
Proof.
  destruct pkg as [|c t]; [done |].
  rewrite !Append_cons.
  change (String c (t ++ "." ++ a) ++ b) with (String c ((t ++ "." ++ a) ++ b)).
  f_equal. by rewrite (app_assoc_string t ("." ++ a) b).
Qed.

Lemma HasSuffix_dot_Append (pkg : FullName) (s : Name) :
  wellFormedName s = true → HasSuffix (Append pkg s) "." = false.
Proof.
  intros Hs. pose proof (wellFormedName_ne s Hs) as Hne.
  destruct pkg as [|c t]; [by apply HasSuffix_dot_name |].
  rewrite Append_cons.
  change (String c (t ++ "." ++ s)) with (String c t ++ String "." s).
  rewrite HasSuffix_dot_app, HasSuffix_dot_cons by done.
  destruct s; [done | by apply HasSuffix_dot_name].
Qed.

End SuffixFacts.

Section PackageConflicts.
Import GoStrings.

(** The walk over [pkg.q] goes down to the node of [pkg]; a first segment
    of [q] that is a declared name there ends it. *)
Lemma registerWalk_blocked (file : FileDescriptor) root pkg node (q : string)
    (s : Name) (rest : string) :
  packageNode root pkg node →
  wellFormedPackage pkg = true →
  q ≠ "" → splitPrefix q = (s, rest) →
  subs node !! s = Some notProtoPackage →
  ∀ fuel, (String.length (Append pkg q) < fuel)%nat →
  registerWalk fuel file (Append pkg q) root =
    Some (root,
          Some (NameConflict (Path file)
                  (TrimSuffix (TrimSuffix (Package file) rest) "."))).
Proof.
  intros Hnode Hwf Hq Hsq Hb.
  induction Hnode as [root | root pkg prefix pkg' child node Hne Hsplit Hsub _ IH];
    intros [|fuel] Hfuel; try lia; cbn [registerWalk].
  - rewrite Append_nil. by rewrite (proj2 (length_pos_ne q) Hq), Hsq, Hb.
  - destruct (splitPrefix_Append pkg q Hne Hwf) as [Heq Hwf'].
    rewrite Hsplit in Heq, Hwf'. simpl in Heq, Hwf'.
    pose proof (Append_not_nil pkg q Hq) as Hne'.
    pose proof (splitPrefix_length _ Hne') as Hdec.
    rewrite (proj2 (length_pos_ne _) Hne').
    rewrite Heq in *. simpl in Hdec. rewrite Hsub.
    rewrite IH by (done || lia). simpl.
    by rewrite insert_id, filesByPackage_eta.
Qed.

Lemma registerAtPackage_least (file : FileDescriptor) (root root' : filesByPackage)
    (e : error) :
  NoDup (topLevelDeclarations file) →
  registerAtPackage file root = (root', Some e) →
  ∃ s, e = NameConflict (Path file) (Append (Package file) s) ∧
       s ∈ topLevelDeclarations file ∧ is_Some (subs root !! s) ∧
       ∀ s', s' ∈ topLevelDeclarations file → is_Some (subs root !! s') →
             ge s' s = true.
Proof.
  intros Hnd. rewrite registerAtPackage_eq. cbv zeta.
  set (l := topLevelDeclarations file) in *.
  set (c := (markAll l (subs root, [])).2).
  destruct (0 <? length c)%nat eqn:Hlen; [| done].
  intros [= _ <-]. apply Nat.ltb_lt in Hlen.
  assert (length (GoSort.Slice c) = length c) as Hlen'
    by (by rewrite Slice_perm).
  destruct (GoSort.Slice c !! 0%nat) as [s|] eqn:H0.
  2:{ apply lookup_ge_None in H0. lia. }
  exists s. rewrite (at_index_lookup _ _ _ H0). split; [done |].
  assert (s ∈ c) as Hs.
  { rewrite <- Slice_perm. by eapply list_elem_of_lookup_2. }
  apply (markAll_conflicts_sound _ _ _ _ Hnd) in Hs as [Hs | [Hs Hb]].
  { by apply elem_of_nil in Hs. }
  split; [done |]. split; [done |].
  intros s' Hs' Hb'.
  assert (s' ∈ GoSort.Slice c) as Hin.
  { rewrite Slice_perm. apply markAll_conflicts_complete. by right. }
  apply list_elem_of_lookup_1 in Hin as [j Hj].
  eapply (sorted_lookup _ 0 j); [apply Slice_sorted | lia | done | done].
Qed.

Lemma blocked_inv root pkg prefix pkg' :
  splitPrefix pkg = (prefix, pkg') →
  blocked root pkg →
  subs root !! prefix = Some notProtoPackage ∨
  ∃ child, subs root !! prefix = Some (subPackage child) ∧ blocked child pkg'.
Proof.
  intros Hsplit. inversion 1 as [? ? p q Hne Hs Hsub | ? ? p q child Hne Hs Hsub Hb];
    subst; rewrite Hsplit in Hs; injection Hs as <- <-; [by left | right; eauto].
Qed.

Lemma packageNode_inv root pkg prefix pkg' node :
  pkg ≠ "" → splitPrefix pkg = (prefix, pkg') →
  packageNode root pkg node →
  ∃ child, subs root !! prefix = Some (subPackage child) ∧
           packageNode child pkg' node.
Proof.
  intros Hne Hsplit.
  inversion 1 as [? | ? ? p q child ? _ Hs Hsub Hrest]; subst; [done |].
  rewrite Hsplit in Hs. injection Hs as <- <-. eauto.
Qed.

Lemma registerWalk_rejects_iff (file : FileDescriptor) (fuel : nat) :
  NoDup (topLevelDeclarations file) →
  ∀ pkg root root' err,
    registerWalk fuel file pkg root = Some (root', err) →
    is_Some err ↔
      blocked root pkg ∨
      ∃ node s, packageNode root pkg node ∧ s ∈ topLevelDeclarations file ∧
                is_Some (subs node !! s).
Proof.
  intros Hnd. induction fuel as [|fuel IH]; intros pkg root root' err; [done |].
  cbn [registerWalk]. destruct (0 <? String.length pkg)%nat eqn:Hpos.
  - apply length_pos_ne in Hpos.
    destruct (splitPrefix pkg) as [prefix pkg'] eqn:Hsplit.
    destruct (subs root !! prefix) as [[|child]|] eqn:Hsub.
    + intros [= <- <-]. split; [| by eexists].
      intros _. left. by eapply blocked_here.
    + destruct (registerWalk fuel file pkg' child) as [[next e]|] eqn:Hw;
        [| done].
      simpl. intros [= <- <-]. rewrite (IH _ _ _ _ Hw). split.
      * intros [Hb | (node & s & Hnode & Hs)].
        -- left. by eapply blocked_step.
        -- right. exists node, s. split; [| done]. by eapply packageNode_step.
      * intros [Hb | (node & s & Hnode & Hs)].
        -- left. apply (blocked_inv _ _ _ _ Hsplit) in Hb
             as [Hb | (c & Hc & Hb)]; congruence.
        -- right. apply (packageNode_inv _ _ _ _ _ Hpos Hsplit) in Hnode
             as (c & Hc & Hnode).
           exists node, s. split; [congruence | done].
    + destruct (registerWalk fuel file pkg' newFilesByPackage)
        as [[next e]|] eqn:Hw; [| done].
      simpl. intros [= <- <-].
      apply (registerWalk_fresh file fuel Hnd) in Hw as ->. split.
      * by intros [? ?].
      * intros [Hb | (node & s & Hnode & Hs)].
        -- apply (blocked_inv _ _ _ _ Hsplit) in Hb
             as [Hb | (c & Hc & Hb)]; congruence.
        -- apply (packageNode_inv _ _ _ _ _ Hpos Hsplit) in Hnode
             as (c & Hc & Hnode). congruence.
  - destruct pkg; [| done]. intros [= Hreg]. split.
    + intros [e ->]. right.
      apply registerAtPackage_least in Hreg as (s & _ & Hs & Hb & _); [| done].
      exists root, s. split; [constructor | done].
    + intros [Hb | (node & s & Hnode & Hs & Hb)].
      * inversion Hb; done.
      * assert (node = root) as -> by (by inversion Hnode).
        pose proof (registerAtPackage_rejects file root s Hs Hb) as H.
        by rewrite Hreg in H.
Qed.

End PackageConflicts.

(** X12.  A file whose package is a top-level name declared in the
    registry, or lies below one, is rejected: the error is the conflict
    over that declared name and the registry is left as it was. *)
Theorem Register_package_conflict (r : Files) (file : FileDescriptor)
    (pkg : FullName) (node : filesByPackage) (s : Name) (rest : string) :
  IsPlaceholder file = false →
  packageNode (Files_filesByPackage r) pkg node →
  wellFormedPackage pkg = true →
  subs node !! s = Some notProtoPackage →
  wellFormedName s = true →
  Package file = Append pkg s ∨ Package file = Append pkg (s ++ "." ++ rest) →
  registerFile r file = (r, Some (NameConflict (Path file) (Append pkg s))).
Proof.
  intros Hph Hnode Hwf Hb Hs Hpkg. unfold registerFile. rewrite Hph.
  pose proof (wellFormedName_ne s Hs) as Hne.
  destruct Hpkg as [Hpkg | Hpkg]; rewrite Hpkg.
  - rewrite (registerWalk_blocked file _ _ _ s s "" Hnode Hwf);
      try done; try lia; [| by apply splitPrefix_name].
    rewrite Hpkg, TrimSuffix_nil, TrimSuffix_none
      by (by apply HasSuffix_dot_Append).
    by destruct r.
  - rewrite (registerWalk_blocked file _ _ _ (s ++ "." ++ rest) s rest Hnode Hwf);
      try done; try lia;
      [| by destruct s | by apply splitPrefix_nested].
    rewrite Hpkg.
    replace (Append pkg (s ++ "." ++ rest)) with ((Append pkg s ++ ".") ++ rest).
    2:{ rewrite app_assoc_string. symmetry. apply Append_app. }
    rewrite !TrimSuffix_app. by destruct r.
Qed.

(** X13.  A file rejected at the node of its package is rejected with the
    conflict over the least, in the order of Go's strings, of its
    top-level names that were already bound there. *)
Theorem Register_least_conflict (r : Files) (file : FileDescriptor)
    (node : filesByPackage) (e : error) :
  NoDup (topLevelDeclarations file) →
  IsPlaceholder file = false →
  packageNode (Files_filesByPackage r) (Package file) node →
  (registerFile r file).2 = Some e →
  ∃ s, e = NameConflict (Path file) (Append (Package file) s) ∧
       s ∈ topLevelDeclarations file ∧ is_Some (subs node !! s) ∧
       ∀ s', s' ∈ topLevelDeclarations file → is_Some (subs node !! s') →
             GoStrings.ge s' s = true.
Proof.
  intros Hnd Hph Hnode. unfold registerFile. rewrite Hph.
  destruct (registerWalk_packageNode file _ _ _ Hnode
              (S (String.length (Package file))) ltac:(lia)) as [root' ->].
  destruct (registerAtPackage file node) as [node' [e'|]] eqn:Hreg; [| done].
  simpl. intros [= <-]. by eapply registerAtPackage_least.
Qed.

(** X14.  [Register] turns a file away for a conflict and for nothing
    else.  A round for a file with pairwise distinct top-level names ends
    in an error exactly when a segment of the file's package is a declared
    name, or one of the file's top-level names is already bound at the
    node of its package. *)
Theorem Register_rejects_iff (r : Files) (file : FileDescriptor) :
  NoDup (topLevelDeclarations file) →
  IsPlaceholder file = false →
  is_Some (registerFile r file).2 ↔
    blocked (Files_filesByPackage r) (Package file) ∨ collides r file.
Proof.
  intros Hnd Hph. unfold registerFile, collides. rewrite Hph.
  destruct (registerWalk_total file (S (String.length (Package file)))
              (Package file) (Files_filesByPackage r) ltac:(lia))
    as [[root' err] Hw].
  rewrite Hw. rewrite <- (registerWalk_rejects_iff file _ Hnd _ _ _ _ Hw).
  by destruct err.
Qed.

(** ** The first file of a package *)

Section FirstFile.

Lemma leadsAt_grows root root' pkg f ss :
  grows root root' → leadsAt root pkg f ss → leadsAt root' pkg f ss.
Proof.
  intros [Hf Hs] (node & Hnode & Hin & Hb).
  inversion Hnode as [? | ? ? prefix pkg' child ? Hne Hsplit Hsub Hrest]; subst.
  - exists root'. split; [constructor | auto].
  - exists node. split; [| done]. eapply packageNode_step; eauto.
Qed.

Lemma registerAtPackage_grows (file : FileDescriptor) (root : filesByPackage) :
  grows root (registerAtPackage file root).1.
Proof.
  split; [| apply registerAtPackage_extends].
  rewrite registerAtPackage_eq. cbv zeta.
  destruct (0 <? length _)%nat; cbn [fst files]; [done |].
  intros f. by destruct (files root).
Qed.

Lemma registerWalk_leads (g : FileDescriptor) (f : FileDescriptor)
    (ss : list Name) (fuel : nat) :
  ∀ pkg_g pkg root root' err,
    registerWalk fuel g pkg_g root = Some (root', err) →
    leadsAt root pkg f ss → leadsAt root' pkg f ss.
Proof.
  induction fuel as [|fuel IH]; intros pkg_g pkg root root' err; [done |].
  cbn [registerWalk]. destruct (0 <? String.length pkg_g)%nat.
  - destruct (splitPrefix pkg_g) as [p_g rest_g].
    destruct (subs root !! p_g) as [[|c]|] eqn:Hsub.
    + by intros [= <- _].
    + destruct (registerWalk fuel g rest_g c) as [[c' err']|] eqn:Hrec;
        simpl; [| done].
      intros [= <- _] (node & Hnode & Hin & Hb).
      inversion Hnode as [? | ? ? prefix pkg' child ? Hne Hsplit Hsub' Hrest];
        subst.
      * eexists. split; [constructor |]. simpl. split; [done |].
        intros s Hs. specialize (Hb s Hs).
        rewrite lookup_insert_ne; [done |]. intros ->. congruence.
      * destruct (decide (prefix = p_g)) as [-> | Hne'].
        -- assert (child = c) as -> by congruence.
           destruct (IH _ pkg' _ _ _ Hrec) as (node' & Hnode' & Hrest').
           { by exists node. }
           exists node'. split; [| done].
           eapply packageNode_step; [done | done | | done].
           simpl. apply lookup_insert_eq.
        -- exists node. split; [| done].
           eapply packageNode_step; [done | done | | done].
           simpl. by rewrite lookup_insert_ne.
    + destruct (registerWalk fuel g rest_g newFilesByPackage)
        as [[c' err']|] eqn:Hrec; simpl; [| done].
      intros [= <- _]. apply leadsAt_grows. split; simpl; [done |].
      intros k v Hk. rewrite lookup_insert_ne; [done |]. intros ->. congruence.
  - intros [= H]. apply leadsAt_grows.
    pose proof (registerAtPackage_grows g root) as Hext.
    by rewrite H in Hext.
Qed.

Lemma registerFile_leads (r : Files) (g f : FileDescriptor) (ss : list Name)
    (pkg : FullName) :
  leadsAt (Files_filesByPackage r) pkg f ss →
  leadsAt (Files_filesByPackage (registerFile r g).1) pkg f ss.
Proof.
  unfold registerFile. destruct (IsPlaceholder g); [done |].
  destruct (registerWalk _ _ _ _) as [[root [e|]]|] eqn:Hw;
    cbn [fst Files_filesByPackage]; [| | done];
    by eapply registerWalk_leads.
Qed.

Lemma Register_leads (fs : list FileDescriptor) (f : FileDescriptor)
    (ss : list Name) (pkg : FullName) :
  ∀ r, leadsAt (Files_filesByPackage r) pkg f ss →
       leadsAt (Files_filesByPackage (Register r fs).1) pkg f ss.
Proof.
  induction fs as [|g fs IH]; intros r H; [done |].
  rewrite Register_cons. by apply IH, registerFile_leads.
Qed.

(** The first file of a package is alone in the node it made. *)
Lemma registerWalk_first (file : FileDescriptor) (fuel : nat) :
  ∀ pkg root',
    registerWalk fuel file pkg newFilesByPackage = Some (root', None) →
    leadsAt root' pkg file (topLevelDeclarations file).
Proof.
  induction fuel as [|fuel IH]; intros pkg root'; [done |].
  cbn [registerWalk]. destruct (0 <? String.length pkg)%nat eqn:Hpos.
  - apply length_pos_ne in Hpos.
    destruct (splitPrefix pkg) as [prefix pkg'] eqn:Hsplit.
    cbn [subs newFilesByPackage]. rewrite lookup_empty.
    destruct (registerWalk fuel file pkg' newFilesByPackage)
      as [[next e]|] eqn:Hw; [| done].
    simpl. intros [= <- ->]. apply IH in Hw as (node & Hnode & Hrest).
    exists node. split; [| done].
    eapply packageNode_step; [done | done | | done].
    simpl. apply lookup_insert_eq.
  - destruct pkg; [| done]. intros [= H].
    pose proof (registerAtPackage_accepts _ _ _ H) as [_ Hb].
    exists root'. split; [constructor |]. split; [| done].
    rewrite registerAtPackage_eq in H. cbv zeta in H.
    destruct (0 <? length _)%nat; [done |]. by injection H as <-.
Qed.

Lemma searchFiles_head (fds : list FileDescriptor) (f : FileDescriptor)
    (name : FullName) (d : Descriptor) :
  head fds = Some f → DescriptorByName f name = Some d →
  searchFiles fds name = (Some d, None).
Proof. destruct fds as [|fd fds]; [done |]. intros [= ->] Hd. simpl. by rewrite Hd. Qed.

End FirstFile.

(** X15.  Of the files given to [NewFiles] the first takes precedence.
    The first file is no placeholder and its top-level names are pairwise
    distinct; then a top-level name that it declares and answers for
    resolves to the first file's descriptor, whatever files follow it,
    also files that declare the same name. *)
Theorem NewFiles_first_wins (f : FileDescriptor) (fs : list FileDescriptor)
    (s : Name) (d : Descriptor) :
  IsPlaceholder f = false →
  NoDup (topLevelDeclarations f) →
  s ∈ topLevelDeclarations f →
  wellFormedPackage (Package f) = true →
  wellFormedName s = true →
  DescriptorByName f (Append (Package f) s) = Some d →
  FindDescriptorByName (Some (NewFiles (f :: fs))) (Append (Package f) s)
    = (Some d, None).
Proof.
  intros Hph Hnd Hs Hwf Hws Hd. unfold NewFiles. rewrite Register_cons.
  assert (leadsAt (Files_filesByPackage (registerFile newFiles f).1)
            (Package f) f (topLevelDeclarations f)) as Hlead.
  { unfold registerFile. rewrite Hph.
    destruct (registerWalk_total f (S (String.length (Package f))) (Package f)
                (Files_filesByPackage newFiles) ltac:(lia)) as [[root err] Hw].
    rewrite Hw.
    pose proof (registerWalk_fresh f _ Hnd _ _ _ Hw) as ->.
    by apply registerWalk_first in Hw. }
  apply (Register_leads fs) in Hlead as (node & Hnode & Hhead & Hb).
  unfold FindDescriptorByName.
  rewrite (findWalk_resolve _ _ _ _ s s "" Hnode Hwf); try lia.
  - simpl. by apply searchFiles_head with f.
  - by apply wellFormedName_ne.
  - by apply splitPrefix_name.
  - by apply Hb.
Qed.

(** ** The invariant of [subs] *)

Section Keys.

Lemma keysNonEmpty_new : keysNonEmpty newFilesByPackage.
Proof.
  constructor; [done |]. intros k c Hk. simpl in Hk. by rewrite lookup_empty in Hk.
Qed.

Lemma registerAtPackage_keys (file : FileDescriptor) (root : filesByPackage) :
  keysNonEmpty root → "" ∉ topLevelDeclarations file →
  keysNonEmpty (registerAtPackage file root).1.
Proof.
  intros Hk Hne. inversion Hk as [? Hroot Hsubs]; subst. constructor.
  - rewrite registerAtPackage_eq. cbv zeta.
    assert ((markAll (topLevelDeclarations file) (subs root, [])).1 !! ""
            = None) as Hmark.
    { rewrite markAll_lookup, Hroot. by rewrite decide_False. }
    destruct (0 <? length _)%nat; cbn [fst subs]; [| done].
    rewrite unmarkAll_lookup by apply Slice_sorted. by destruct (decide _).
  - intros k c Hc. apply registerAtPackage_sameNodes in Hc. eauto.
Qed.

Lemma registerWalk_keys (file : FileDescriptor) (fuel : nat) :
  "" ∉ topLevelDeclarations file →
  ∀ pkg root root' err,
    keysNonEmpty root → properPackage pkg →
    registerWalk fuel file pkg root = Some (root', err) →
    keysNonEmpty root'.
Proof.
  intros Hne. induction fuel as [|fuel IH]; intros pkg root root' err Hk Hp;
    [done |].
  cbn [registerWalk]. destruct (0 <? String.length pkg)%nat eqn:Hpos.
  - apply length_pos_ne in Hpos.
    inversion Hp as [| ? prefix pkg' _ Hsplit Hprefix Hp']; subst; [done |].
    rewrite Hsplit. inversion Hk as [? Hroot Hsubs]; subst.
    assert (∀ next, keysNonEmpty next →
                    keysNonEmpty
                      (mkFilesByPackage (files root)
                         (<[prefix := subPackage next]> (subs root)))) as Hstep.
    { intros next Hnext. constructor; cbn [subs].
      - by rewrite lookup_insert_ne.
      - intros k c. destruct (decide (k = prefix)) as [-> | Hkp].
        + rewrite lookup_insert_eq. by intros [= <-].
        + rewrite lookup_insert_ne by done. apply Hsubs. }
    destruct (subs root !! prefix) as [[|child]|] eqn:Hsub.
    + by intros [= <- _].
    + destruct (registerWalk fuel file pkg' child) as [[next e]|] eqn:Hw;
        [| done].
      simpl. intros [= <- _]. apply Hstep. eapply IH; [| done | done]. eauto.
    + destruct (registerWalk fuel file pkg' newFilesByPackage)
        as [[next e]|] eqn:Hw; [| done].
      simpl. intros [= <- _]. apply Hstep.
      eapply IH; [| done | done]. apply keysNonEmpty_new.
  - intros [= H]. pose proof (registerAtPackage_keys file root Hk Hne) as Hr.
    by rewrite H in Hr.
Qed.

Lemma registerFile_keys (r : Files) (file : FileDescriptor) :
  keysNonEmpty (Files_filesByPackage r) →
  properPackage (Package file) → "" ∉ topLevelDeclarations file →
  keysNonEmpty (Files_filesByPackage (registerFile r file).1).
Proof.
  intros Hk Hp Hne. unfold registerFile. destruct (IsPlaceholder file); [done |].
  destruct (registerWalk _ _ _ _) as [[root [e|]]|] eqn:Hw;
    cbn [fst Files_filesByPackage]; [| | done];
    by eapply registerWalk_keys.
Qed.

End Keys.

(** X16.  [Register] keeps the invariant noted at [subs], that no key of
    any node is the empty name, for files whose package names have no empty
    segment on the way and whose top-level names are not empty. *)
Theorem Register_keeps_keys (r : Files) (fs : list FileDescriptor) :
  keysNonEmpty (Files_filesByPackage r) →
  Forall (λ f, properPackage (Package f) ∧ "" ∉ topLevelDeclarations f) fs →
  keysNonEmpty (Files_filesByPackage (Register r fs).1).
Proof.
  intros Hk Hfs. revert r Hk.
  induction Hfs as [|f fs [Hp Hne] _ IH]; intros r Hk; [done |].
  rewrite Register_cons. by apply IH, registerFile_keys.
Qed.

(** X17.  The names a registered file declares at the top level of its
    package, the values of its enums among them, are taken for good: no
    file of the same package that declares one of them is accepted by any
    later round of [Register]. *)
Theorem Register_names_taken (r : Files) (f g : FileDescriptor)
    (later : list FileDescriptor) (s : Name) :
  IsPlaceholder f = false →
  (registerFile r f).2 = None →
  IsPlaceholder g = false →
  Package g = Package f →
  s ∈ declList f → s ∈ declList g →
  is_Some (registerFile (Register (registerFile r f).1 later).1 g).2.
Proof.
  intros Hf Hacc Hg Hpkg Hsf Hsg.
  destruct (registerFile r f) as [r1 e] eqn:Hreg. simpl in Hacc; subst e.
  destruct (registerFile_accepts _ _ _ Hf Hreg) as [_ Hd].
  destruct (registerLoop_preserves later f (topLevelDeclarations f) r1 None)
    as [_ Hd'].
  apply Hd' in Hd as (node & Hnode & _ & Hb).
  apply registerFile_collides; [done |].
  exists node, s. rewrite Hpkg. split; [done |]. split.
  - by rewrite topLevelDeclarations_list.
  - exists notProtoPackage. apply Hb. by rewrite topLevelDeclarations_list.
Qed.

(** ** Lookups after later registrations *)

Section Stability.

Lemma refines_refl_height (d : nat) :
  ∀ n, (height n ≤ d)%nat → refines n n.
Proof.
  induction d as [|d IH]; intros n Hd.
  { destruct n; simpl in Hd; lia. }
  constructor.
  - exists []. by rewrite app_nil_r.
  - done.
  - intros k c Hk. exists c. split; [done |]. apply IH.
    apply height_sub in Hk. lia.
Qed.

Lemma refines_refl (n : filesByPackage) : refines n n.
Proof. by apply (refines_refl_height (height n)). Qed.

Lemma registerAtPackage_refines (file : FileDescriptor) (root : filesByPackage) :
  refines root (registerAtPackage file root).1.
Proof.
  constructor.
  - rewrite registerAtPackage_eq. cbv zeta.
    destruct (0 <? length _)%nat; cbn [fst files].
    + exists []. by rewrite app_nil_r.
    + by exists [file].
  - intros k Hk. by apply registerAtPackage_extends.
  - intros k c Hk. exists c. split; [| apply refines_refl].
    by apply registerAtPackage_sameNodes.
Qed.

Lemma refines_insert (root : filesByPackage) (prefix : Name)
    (next : filesByPackage) :
  (∀ c, subs root !! prefix = Some (subPackage c) → refines c next) →
  subs root !! prefix ≠ Some notProtoPackage →
  refines root
    (mkFilesByPackage (files root) (<[prefix := subPackage next]> (subs root))).
Proof.
  intros Hc Hs. constructor; cbn [files subs].
  - exists []. by rewrite app_nil_r.
  - intros k Hk. rewrite lookup_insert_ne; [done |]. intros ->. congruence.
  - intros k c Hk. destruct (decide (k = prefix)) as [-> | Hne].
    + exists next. split; [apply lookup_insert_eq | by apply Hc].
    + exists c. split; [by rewrite lookup_insert_ne | apply refines_refl].
Qed.

Lemma registerWalk_refines (file : FileDescriptor) (fuel : nat) :
  ∀ pkg root root' err,
    registerWalk fuel file pkg root = Some (root', err) → refines root root'.
Proof.
  induction fuel as [|fuel IH]; intros pkg root root' err; [done |].
  cbn [registerWalk]. destruct (0 <? String.length pkg)%nat.
  - destruct (splitPrefix pkg) as [prefix pkg'].
    destruct (subs root !! prefix) as [[|child]|] eqn:Hsub.
    + intros [= <- _]. apply refines_refl.
    + destruct (registerWalk fuel file pkg' child) as [[next e]|] eqn:Hw;
        [| done].
      simpl. intros [= <- _]. apply refines_insert; [| congruence].
      intros c Hc. rewrite Hsub in Hc. injection Hc as <-. by eapply IH.
    + destruct (registerWalk fuel file pkg' newFilesByPackage)
        as [[next e]|] eqn:Hw; [| done].
      simpl. intros [= <- _]. apply refines_insert; [| congruence].
      intros c Hc. congruence.
  - intros [= H]. pose proof (registerAtPackage_refines file root) as Hr.
    by rewrite H in Hr.
Qed.

Lemma registerFile_refines (r : Files) (file : FileDescriptor) :
  refines (Files_filesByPackage r) (Files_filesByPackage (registerFile r file).1).
Proof.
  unfold registerFile. destruct (IsPlaceholder file); [apply refines_refl |].
  destruct (registerWalk _ _ _ _) as [[root [e|]]|] eqn:Hw;
    cbn [fst Files_filesByPackage];
    [by eapply registerWalk_refines.. | apply refines_refl].
Qed.

Lemma searchFiles_app (fds l : list FileDescriptor) (name : FullName)
    (d : Descriptor) :
  searchFiles fds name = (Some d, None) →
  searchFiles (fds ++ l) name = (Some d, None).
Proof.
  induction fds as [|fd fds IH]; [done |]. simpl.
  by destruct (DescriptorByName fd name).
Qed.

Lemma findWalk_refines (name : FullName) (d : Descriptor) (fuel : nat) :
  ∀ pkg root root',
    refines root root' →
    findWalk fuel name pkg root = Some (Some d, None) →
    findWalk fuel name pkg root' = Some (Some d, None).
Proof.
  induction fuel as [|fuel IH]; intros pkg root root' Hr; [done |].
  cbn [findWalk]. destruct (0 <? String.length pkg)%nat; [| done].
  destruct (splitPrefix pkg) as [prefix pkg'].
  inversion Hr as [? ? [l Hfiles] Hsent Hnodes]; subst.
  destruct (subs root !! prefix) as [[|child]|] eqn:Hsub; [| | done].
  - rewrite (Hsent prefix Hsub), Hfiles. intros [= H]. f_equal.
    by apply searchFiles_app.
  - destruct (Hnodes prefix child Hsub) as (c' & -> & Hc'). by apply IH.
Qed.

End Stability.

(** X18.  A name that resolves keeps resolving to the same descriptor:
    whatever files a later [Register] call is given, accepted or not, the
    lookup of a full name that was found before returns the descriptor it
    returned before. *)
Theorem FindDescriptorByName_stable (r : Files) (fs : list FileDescriptor)
    (name : FullName) (d : Descriptor) :
  FindDescriptorByName (Some r) name = (Some d, None) →
  FindDescriptorByName (Some (Register r fs).1) name = (Some d, None).
Proof.
  revert r. induction fs as [|f fs IH]; intros r Hfound; [done |].
  rewrite Register_cons. apply IH. unfold FindDescriptorByName in *.
  destruct (findWalk _ name name (Files_filesByPackage r)) as [res|] eqn:Hw;
    [| done].
  simpl in Hfound. subst res.
  by rewrite (findWalk_refines _ _ _ _ _ _ (registerFile_refines r f) Hw).
Qed.

(** ** A package name that ends in a dot *)

Section TrailingDot.
Import GoStrings.

Lemma Append_empty (pkg : FullName) : pkg ≠ "" → Append pkg "" = pkg ++ ".".
Proof. by destruct pkg. Qed.

Lemma packageNode_Append_empty root (q : FullName) node :
  packageNode root q node →
  ∀ pkg, q = Append pkg "" → pkg ≠ "" → wellFormedPackage pkg = true →
  packageNode root pkg node.
Proof.
  induction 1 as [root | root q prefix q' child node Hne Hsplit Hsub Hrest IH];
    intros pkg Hq Hpkg Hwf.
  { by destruct pkg. }
  subst q. destruct (splitPrefix_Append pkg "" Hpkg Hwf) as [Heq Hwf'].
  rewrite Hsplit in Heq. injection Heq as -> ->.
  destruct (splitPrefix pkg) as [prefix rest] eqn:Hpkgsplit. simpl in *.
  destruct (decide (rest = "")) as [-> | Hrest'].
  - rewrite Append_nil in Hrest.
    assert (node = child) as -> by (by inversion Hrest).
    eapply packageNode_step; [done | done | done | constructor].
  - eapply packageNode_step; [done | done | done |]. by apply IH.
Qed.

Lemma filesUnder_packageNode (r : Files) (pkg : FullName) (node : filesByPackage) :
  packageNode (Files_filesByPackage r) pkg node →
  wellFormedPackage pkg = true →
  filesUnder (Some r) pkg = filesOf node.
Proof.
  intros Hnode Hwf. unfold filesUnder, RangeFilesByPackage.
  unfold wellFormedPackage in Hwf. apply negb_true_iff in Hwf. rewrite Hwf.
  rewrite (rangeWalk_packageNode _ _ _ Hnode) by lia.
  by rewrite rangeFiles_filesOf, rangeSlice_logging.
Qed.

End TrailingDot.

(** X19.  A file whose package name ends in a dot is filed at the node of
    the name without that dot: once accepted, [RangeFilesByPackage]
    enumerates it for the name without the dot, among the exact matches,
    and enumerates nothing for the file's own package name. *)
Theorem Register_trailing_dot (r : Files) (f : FileDescriptor) (pkg : FullName) :
  IsPlaceholder f = false →
  pkg ≠ "" → wellFormedPackage pkg = true →
  Package f = pkg ++ "." →
  (registerFile r f).2 = None →
  (∃ node, packageNode (Files_filesByPackage (registerFile r f).1) pkg node ∧
           f ∈ files node) ∧
  f ∈ filesUnder (Some (registerFile r f).1) pkg ∧
  filesUnder (Some (registerFile r f).1) (Package f) = [].
Proof.
  intros Hph Hpkg Hwf Hdot Hacc.
  destruct (registerFile r f) as [r' e] eqn:Hreg. simpl in Hacc. subst e.
  destruct (registerFile_accepts _ _ _ Hph Hreg) as [_ (node & Hnode & Hin & _)].
  simpl. rewrite Hdot, <- (Append_empty pkg Hpkg) in Hnode.
  apply (packageNode_Append_empty _ _ _ Hnode pkg eq_refl Hpkg) in Hwf as Hnode'.
  split; [by exists node |]. split.
  - rewrite (filesUnder_packageNode _ _ _ Hnode' Hwf), filesOf_unfold.
    apply elem_of_app. by left.
  - unfold filesUnder, RangeFilesByPackage. rewrite Hdot.
    by rewrite HasSuffix_app.
Qed.

(** ** Registering a file again *)

(** X20.  A file that was accepted and declares at least one top-level
    name, its names pairwise distinct, is turned away when it is
    registered again, and the registry stays as it is. *)
Theorem Register_twice (r : Files) (f : FileDescriptor) (s : Name) :
  IsPlaceholder f = false →
  NoDup (topLevelDeclarations f) →
  s ∈ topLevelDeclarations f →
  (registerFile r f).2 = None →
  ∃ e, registerFile (registerFile r f).1 f = ((registerFile r f).1, Some e).
Proof.
  intros Hph Hnd Hs Hacc.
  destruct (registerFile r f) as [r1 e] eqn:Hreg. simpl in Hacc. subst e.
  destruct (registerFile_accepts _ _ _ Hph Hreg) as [_ (node & Hnode & _ & Hb)].
  simpl. assert (collides r1 f) as Hc.
  { exists node, s. split; [done |]. split; [done |].
    exists notProtoPackage. by apply Hb. }
  destruct (registerFile_collides r1 f Hph Hc) as [e He].
  destruct (registerFile r1 f) as [r2 e2] eqn:Hreg2. simpl in He. subst e2.
  apply (registerFile_atomic _ _ _ _ Hnd) in Hreg2 as Heq. subst r2.
  by exists e.
Qed.

(** ** Names that are no package *)

Section NoPackage.
Import GoStrings.

Lemma rangeWalk_None (fuel : nat) (pkg : FullName) :
  (0 < fuel)%nat → rangeWalk fuel pkg None = Some None.
Proof. destruct fuel; [lia | done]. Qed.

Lemma rangeWalk_empty (fuel : nat) (pkg : FullName) :
  (String.length pkg < fuel)%nat →
  rangeWalk fuel pkg (Some newFilesByPackage) = Some None ∨
  rangeWalk fuel pkg (Some newFilesByPackage) = Some (Some newFilesByPackage).
Proof.
  destruct fuel as [|fuel]; [lia |]. intros Hlen. cbn [rangeWalk].
  destruct (0 <? String.length pkg)%nat eqn:Hpos; [| by right].
  apply length_pos_ne in Hpos.
  pose proof (splitPrefix_length pkg Hpos) as Hdec.
  destruct (splitPrefix pkg) as [prefix pkg']. simpl in Hdec.
  cbn [subs newFilesByPackage]. rewrite lookup_empty. simpl.
  left. apply rangeWalk_None. lia.
Qed.

Lemma rangeFiles_empty {St} (f : callback St) (s : St) :
  rangeFiles newFilesByPackage f s = (true, s).
Proof. by rewrite rangeFiles_filesOf. Qed.

(** The walk over [pkg.q] goes down to the node of [pkg]; a first segment
    of [q] that leads to no node there ends the enumeration. *)
Lemma rangeWalk_no_package root pkg node (q : string) (s : Name) (rest : string) :
  packageNode root pkg node →
  wellFormedPackage pkg = true →
  q ≠ "" → splitPrefix q = (s, rest) →
  (∀ c, subs node !! s ≠ Some (subPackage c)) →
  ∀ fuel, (String.length (Append pkg q) < fuel)%nat →
  rangeWalk fuel (Append pkg q) (Some root) = Some None ∨
  rangeWalk fuel (Append pkg q) (Some root) = Some (Some newFilesByPackage).
Proof.
  intros Hnode Hwf Hq Hsq Hb.
  induction Hnode as [root | root pkg prefix pkg' child node Hne Hsplit Hsub _ IH];
    intros [|fuel] Hfuel; try lia; cbn [rangeWalk].
  - rewrite Append_nil in *. rewrite (proj2 (length_pos_ne q) Hq), Hsq.
    pose proof (splitPrefix_length q Hq) as Hdec. rewrite Hsq in Hdec.
    simpl in Hdec.
    destruct (subs root !! s) as [[|c]|] eqn:Hs; simpl.
    + apply rangeWalk_empty. lia.
    + by destruct (Hb c).
    + left. apply rangeWalk_None. lia.
  - destruct (splitPrefix_Append pkg q Hne Hwf) as [Heq Hwf'].
    rewrite Hsplit in Heq, Hwf'. simpl in Heq, Hwf'.
    pose proof (Append_not_nil pkg q Hq) as Hne'.
    pose proof (splitPrefix_length _ Hne') as Hdec.
    rewrite (proj2 (length_pos_ne _) Hne').
    rewrite Heq in *. simpl in Hdec. rewrite Hsub. simpl.
    apply IH; [done.. | lia].
Qed.

End NoPackage.

(** X21.  [RangeFilesByPackage] visits nothing for a name that is no
    package: a name that leaves the trie at a segment that is not there,
    or that is, or lies below, a declared top-level name.  The callback is
    not called and its state is as before. *)
Theorem RangeFilesByPackage_no_package {St : Type} (r : Files) (pkg : FullName)
    (node : filesByPackage) (s : Name) (rest : string) (name : FullName)
    (f : callback St) (st : St) :
  packageNode (Files_filesByPackage r) pkg node →
  wellFormedPackage pkg = true →
  wellFormedName s = true →
  subs node !! s = None ∨ subs node !! s = Some notProtoPackage →
  name = Append pkg s ∨ name = Append pkg (s ++ "." ++ rest) →
  RangeFilesByPackage (Some r) name (logging f) ([], st) = ([], st).
Proof.
  intros Hnode Hwf Hs Hb Hname. unfold RangeFilesByPackage.
  destruct (GoStrings.HasSuffix name "."); [done |].
  assert (∀ c, subs node !! s ≠ Some (subPackage c)) as Hno.
  { intros c. destruct Hb as [-> | ->]; done. }
  assert (∃ q, name = Append pkg q ∧ q ≠ "" ∧ ∃ t, splitPrefix q = (s, t))
    as (q & -> & Hq & t & Hsq).
  { pose proof (wellFormedName_ne s Hs).
    destruct Hname as [-> | ->].
    - exists s. split; [done |]. split; [done |]. exists "".
      by apply splitPrefix_name.
    - exists (s ++ "." ++ rest). split; [done |].
      split; [by destruct s |]. exists rest. by apply splitPrefix_nested. }
  destruct (rangeWalk_no_package _ _ _ q s t Hnode Hwf Hq Hsq Hno
              (S (String.length (Append pkg q))) ltac:(lia)) as [-> | ->];
    [done |].
  by rewrite rangeFiles_empty.
Qed.

(** ** Instances *)

Section RegistryInstances.
Import RegistryExamples RegistrySamples.

Lemma packageNode_p15 : packageNode (Files_filesByPackage registryF15) "p" nodeP.
Proof.
  eapply (packageNode_step _ "p" "p" "");
    [done | reflexivity | vm_compute; reflexivity | apply packageNode_here].
Defined.

Lemma packageNode_pq15 :
  packageNode (Files_filesByPackage registryF15) "p.q" nodePQ.
Proof.
  eapply (packageNode_step _ "p.q" "p" "q");
    [done | reflexivity | vm_compute; reflexivity |].
  eapply (packageNode_step _ "q" "q" "");
    [done | reflexivity | vm_compute; reflexivity | apply packageNode_here].
Defined.

Lemma packageNode_p1 : packageNode (Files_filesByPackage registryF1) "p" nodeP1.
Proof.
  eapply (packageNode_step _ "p" "p" "");
    [done | reflexivity | vm_compute; reflexivity | apply packageNode_here].
Defined.

Lemma NoDup_F3 : NoDup (topLevelDeclarations F3).
Proof. apply (bool_decide_unpack _). vm_compute. exact I. Defined.

Lemma NoDup_F1 : NoDup (topLevelDeclarations F1).
Proof. apply (bool_decide_unpack _). vm_compute. exact I. Defined.

Lemma RangeFilesByPackage_exact_first_witness :
  ∃ below,
    filesUnder (Some registryF15) "p" = (files nodeP ++ below)%list ∧
    ∀ fd, fd ∈ below ↔
          ∃ k c, subs nodeP !! k = Some (subPackage c) ∧ holds c fd.
Proof.
  exact (RangeFilesByPackage_exact_first registryF15 "p" nodeP
           packageNode_p15 eq_refl).
Defined.

Lemma Register_indexes_agree_witness :
  filesAtPath (Some (Register newFiles [F1; F5]).1) "f5.proto"
    ≡ₚ filter (λ f, Path f = "f5.proto")
         (registered (Some (Register newFiles [F1; F5]).1)).
Proof.
  apply (Register_indexes_agree newFiles [F1; F5]).
  intros path. rewrite filesAtPath_newFiles, registered_newFiles. reflexivity.
Defined.

Lemma FindDescriptorByName_package_witness :
  FindDescriptorByName (Some registryF15) "p.q" = (None, Some NotFound).
Proof.
  exact (FindDescriptorByName_package registryF15 "p.q" nodePQ packageNode_pq15).
Defined.

Lemma FindDescriptorByName_resolves_witness :
  FindDescriptorByName (Some registryF15) "p.q.E.Nested" =
    match firstAnswer (files nodePQ) "p.q.E.Nested" with
    | Some d => (Some d, None)
    | None => (None, Some NotFound)
    end.
Proof.
  apply (FindDescriptorByName_resolves registryF15 "p.q" nodePQ "E" "Nested").
  - exact packageNode_pq15.
  - reflexivity.
  - reflexivity.
  - vm_compute. reflexivity.
  - right. reflexivity.
Defined.

Lemma Register_package_conflict_witness :
  registerFile registryF1 F4
    = (registryF1, Some (NameConflict (Path F4) (Append "p" "M"))).
Proof.
  apply (Register_package_conflict registryF1 F4 "p" nodeP1 "M" "q").
  - reflexivity.
  - exact packageNode_p1.
  - reflexivity.
  - vm_compute. reflexivity.
  - reflexivity.
  - right. reflexivity.
Defined.

Lemma Register_least_conflict_witness :
  ∃ s, NameConflict "f3.proto" "p.M"
         = NameConflict (Path F3) (Append (Package F3) s) ∧
       s ∈ topLevelDeclarations F3 ∧ is_Some (subs nodeP1 !! s) ∧
       ∀ s', s' ∈ topLevelDeclarations F3 → is_Some (subs nodeP1 !! s') →
             GoStrings.ge s' s = true.
Proof.
  apply (Register_least_conflict registryF1 F3 nodeP1).
  - exact NoDup_F3.
  - reflexivity.
  - exact packageNode_p1.
  - vm_compute. reflexivity.
Defined.

Lemma Register_rejects_iff_witness :
  is_Some (registerFile registryF1 F3).2 ↔
    blocked (Files_filesByPackage registryF1) (Package F3) ∨
    collides registryF1 F3.
Proof.
  exact (Register_rejects_iff registryF1 F3 NoDup_F3 eq_refl).
Defined.

Lemma NewFiles_first_wins_witness :
  FindDescriptorByName (Some (NewFiles [F1; F3; F2])) (Append (Package F1) "M")
    = (Some (mkDescriptor "p.M" "f1.proto"), None).
Proof.
  apply (NewFiles_first_wins F1 [F3; F2] "M").
  - reflexivity.
  - exact NoDup_F1.
  - apply (bool_decide_unpack _). vm_compute. exact I.
  - reflexivity.
  - reflexivity.
  - vm_compute. reflexivity.
Defined.

Lemma properPackage_p : properPackage "p".
Proof.
  eapply (properPackage_step "p" "p" "");
    [done | reflexivity | done | constructor].
Defined.

Lemma properPackage_pq : properPackage "p.q".
Proof.
  eapply (properPackage_step "p.q" "p" "q"); [done | reflexivity | done |].
  eapply (properPackage_step "q" "q" ""); [done | reflexivity | done | constructor].
Defined.

Lemma Register_keeps_keys_witness :
  keysNonEmpty (Files_filesByPackage (Register newFiles [F1; F5]).1).
Proof.
  apply (Register_keeps_keys newFiles [F1; F5] keysNonEmpty_new).
  repeat constructor.
  - exact properPackage_p.
  - apply (bool_decide_unpack _). vm_compute. exact I.
  - exact properPackage_pq.
  - apply (bool_decide_unpack _). vm_compute. exact I.
Defined.

Lemma Register_names_taken_witness :
  is_Some (registerFile (Register (registerFile newFiles F5).1 [F1]).1 G5).2.
Proof.
  apply (Register_names_taken newFiles F5 G5 [F1] "A").
  - reflexivity.
  - vm_compute. reflexivity.
  - reflexivity.
  - reflexivity.
  - apply (bool_decide_unpack _). vm_compute. exact I.
  - apply (bool_decide_unpack _). vm_compute. exact I.
Defined.

Lemma FindDescriptorByName_stable_witness :
  FindDescriptorByName (Some (Register registryF1 [F3; F2]).1) "p.M"
    = (Some (mkDescriptor "p.M" "f1.proto"), None).
Proof.
  apply (FindDescriptorByName_stable registryF1 [F3; F2] "p.M").
  vm_compute. reflexivity.
Defined.

Lemma Register_trailing_dot_witness :
  (∃ node, packageNode (Files_filesByPackage (registerFile registryF1 G6).1)
             "p" node ∧ G6 ∈ files node) ∧
  G6 ∈ filesUnder (Some (registerFile registryF1 G6).1) "p" ∧
  filesUnder (Some (registerFile registryF1 G6).1) (Package G6) = [].
Proof.
  apply (Register_trailing_dot registryF1 G6 "p").
  - reflexivity.
  - done.
  - reflexivity.
  - reflexivity.
  - vm_compute. reflexivity.
Defined.

Lemma Register_twice_witness :
  ∃ e, registerFile (registerFile newFiles F1).1 F1
       = ((registerFile newFiles F1).1, Some e).
Proof.
  apply (Register_twice newFiles F1 "M").
  - reflexivity.
  - exact NoDup_F1.
  - apply (bool_decide_unpack _). vm_compute. exact I.
  - vm_compute. reflexivity.
Defined.

Lemma RangeFilesByPackage_no_package_witness :
  RangeFilesByPackage (Some registryF1) "p.M" (logging visitAll) ([], tt)
    = ([], tt).
Proof.
  apply (RangeFilesByPackage_no_package registryF1 "p" nodeP1 "M" "").
  - exact packageNode_p1.
  - reflexivity.
  - reflexivity.
  - right. vm_compute. reflexivity.
  - left. reflexivity.
Defined.

End RegistryInstances.

(** * Properties of the binder *)

Section ImplFacts.

Variables fieldInfoForWeak fieldInfoForMap fieldInfoForVector
          fieldInfoForMessage
    : pref.FieldDescriptor → reflect.StructField → result fieldInfo.

Local Abbreviation classify :=
  (classify fieldInfoForWeak fieldInfoForMap fieldInfoForVector
     fieldInfoForMessage).
Local Abbreviation classifyStep :=
  (classifyStep fieldInfoForWeak fieldInfoForMap fieldInfoForVector
     fieldInfoForMessage).
Local Abbreviation generateFieldFuncs :=
  (generateFieldFuncs fieldInfoForWeak fieldInfoForMap fieldInfoForVector
     fieldInfoForMessage).
Local Abbreviation initOnce :=
  (initOnce fieldInfoForWeak fieldInfoForMap fieldInfoForVector
     fieldInfoForMessage).
Local Abbreviation init :=
  (init fieldInfoForWeak fieldInfoForMap fieldInfoForVector
     fieldInfoForMessage).
Local Abbreviation KnownFieldsOf :=
  (KnownFieldsOf fieldInfoForWeak fieldInfoForMap fieldInfoForVector
     fieldInfoForMessage).

(** *** The result monad *)

Lemma bind_Ok {A B} (m : result A) (k : A → result B) (b : B) :
  m ≫= k = Ok b → ∃ a, m = Ok a ∧ k a = Ok b.
Proof. destruct m as [a|v]; [by exists a | done]. Qed.

(** *** The scan of the record shape *)

Lemma fieldStep_fromShape decls si f :
  allFromShape decls si → fromShape decls f →
  allFromShape decls (fieldStep si f).
Proof.
  intros (H1 & H2 & H3) Hf. unfold fieldStep.
  destruct (tagNumber _) as [n|].
  - split; [| done]. simpl. intros k f'.
    destruct (decide (k = pref.toFieldNumber n)) as [-> | ?].
    + rewrite lookup_insert_eq. by intros [= <-].
    + rewrite lookup_insert_ne by done. apply H1.
  - destruct (0 <? String.length _)%nat.
    + split; [done |]. split; [| done]. simpl. intros k f'.
      destruct (decide (k = reflect.Get (reflect.Tag f) "protobuf_oneof"))
        as [-> | ?].
      * rewrite lookup_insert_eq. by intros [= <-].
      * rewrite lookup_insert_ne by done. apply H2.
    + destruct (isSpecialName _); [| done].
      split; [done |]. split; [done |]. simpl. intros k f'.
      destruct (decide (k = reflect.Name f)) as [-> | ?].
      * rewrite lookup_insert_eq. by intros [= <-].
      * rewrite lookup_insert_ne by done. apply H3.
Qed.

Lemma fieldLoop_fromShape decls : allFromShape decls (fieldLoop decls).
Proof.
  unfold fieldLoop.
  assert (∀ l si, allFromShape decls si →
                  (∀ f, f ∈ l → fromShape decls f) →
                  allFromShape decls (fold_left fieldStep l si)) as Hfold.
  { induction l as [|f l IH]; intros si Hsi Hl; simpl; [done |].
    apply IH; [| set_solver].
    apply fieldStep_fromShape; [done |]. apply Hl. set_solver. }
  apply Hfold.
  - repeat split; simpl; intros ? ?; by rewrite lookup_empty.
  - intros f (i & Hi)%list_elem_of_lookup_1. unfold structFieldsOf in Hi.
    rewrite list_lookup_imap in Hi.
    destruct (decls !! i) as [d|] eqn:Hd; simpl in Hi; [| done].
    injection Hi as <-. by exists i, d.
Qed.

Lemma offsetOf_Ok (f : reflect.StructField) (off : offset) :
  offsetOf f = Ok off → off = reflect.Index f ∧ length (reflect.Index f) = 1%nat.
Proof.
  unfold offsetOf. destruct (Nat.eqb_spec (length (reflect.Index f)) 1); [| done].
  simpl. by intros [= <-].
Qed.

Lemma offsetOf_zero : offsetOf reflect.zeroStructField = Panic EmbeddedStructs.
Proof. reflexivity. Qed.

(** An offset accepted for a field of the scan addresses a slot of the
    records of the shape. *)
Lemma offsetOf_fromShape decls (o : option reflect.StructField) (off : offset) :
  (∀ f, o = Some f → fromShape decls f) →
  offsetOf (default reflect.zeroStructField o) = Ok off →
  ∃ i, off = [i] ∧ (i < length decls)%nat.
Proof.
  intros Ho. destruct o as [f|]; simpl; [| by rewrite offsetOf_zero].
  destruct (Ho f eq_refl) as (i & d & Hd & ->).
  intros [-> _]%offsetOf_Ok. exists i. split; [done |].
  by eapply lookup_lt_Some.
Qed.

(** *** The classification loop *)

Lemma classify_fold_Panic si ofs fds v :
  fold_left (classifyStep si ofs) fds (Panic v) = Panic v.
Proof. induction fds as [|fd fds IH]; simpl; [done | apply IH]. Qed.

Lemma classify_fold si ofs fds :
  ∀ acc table,
    fold_left (classifyStep si ofs) fds (Ok acc) = Ok table →
    NoDup (pref.Number <$> fds) →
    (∀ fd, fd ∈ fds →
       ∃ fi, classify si ofs fd = Ok fi ∧ table !! pref.Number fd = Some fi) ∧
    (∀ n, n ∉ pref.Number <$> fds → table !! n = acc !! n).
Proof.
  induction fds as [|fd fds IH]; intros acc table; simpl.
  - intros [= <-] _. split; [set_solver | done].
  - change (classifyStep si ofs (Ok acc) fd)
      with (classify si ofs fd ≫= λ fi, Ok (<[pref.Number fd := fi]> acc)).
    destruct (classify si ofs fd) as [fi|v] eqn:Hfi; simpl;
      [| by rewrite classify_fold_Panic].
    intros Hfold [Hnotin Hnd]%NoDup_cons.
    destruct (IH _ _ Hfold Hnd) as [Hin Hout]. split.
    + intros fd' [-> | Hfd']%elem_of_cons; [| by apply Hin].
      exists fi. split; [done |].
      rewrite (Hout _ Hnotin). apply lookup_insert_eq.
    + intros n Hn. cbn [fmap list_fmap] in Hn.
      apply not_elem_of_cons in Hn as [Hne Hn].
      rewrite Hout by done. by apply lookup_insert_ne.
Qed.

Lemma classify_scalar si ofs fd :
  isScalarField fd = true →
  classify si ofs fd =
    fieldInfoForScalar fd
      (default reflect.zeroStructField (si_fields si !! pref.Number fd)).
Proof.
  unfold isScalarField, classify. rewrite !andb_true_iff, !negb_true_iff.
  intros (((((-> & ->%bool_decide_eq_true) & ->) & ->) & ->) & ->). done.
Qed.

Lemma classify_oneof si ofs fd g :
  isOneofMember g fd = true →
  classify si ofs fd =
    fieldInfoForOneof fd
      (default reflect.zeroStructField (si_oneofs si !! g))
      (ofs !! pref.Number fd).
Proof.
  unfold isOneofMember, classify. rewrite andb_true_iff, negb_true_iff.
  intros (-> & ->%bool_decide_eq_true). done.
Qed.

(** What a table built by [generateFieldFuncs] holds for each field of
    the descriptor. *)
Lemma generateFieldFuncs_lookup st md table fd :
  generateFieldFuncs (reflect.StructOf st) (Some md) = Ok table →
  uniqueNumbers md → fd ∈ pref.Fields md →
  ∃ ofs fi,
    classify (fieldLoop (reflect.structFields st)) ofs fd = Ok fi ∧
    table !! pref.Number fd = Some fi.
Proof.
  unfold generateFieldFuncs. intros (ofs & _ & Hfold)%bind_Ok Hnd Hfd.
  destruct (classify_fold _ _ _ _ _ Hfold Hnd) as [Hin _].
  destruct (Hin fd Hfd) as (fi & ? & ?). by exists ofs, fi.
Qed.

(** *** Slots *)

Lemma apply_record st slots i :
  (i < length slots)%nat →
  apply (pointerOfIface (recordOf st slots)) [i] =
    Ok (mkPointer (mkReflectValue (recordOf st slots) (Some i))).
Proof.
  unfold apply; simpl. intros H.
  by destruct (Nat.ltb_spec i (length slots)); [| lia].
Qed.

Lemma apply_record_beyond st slots i :
  slots !! i = None →
  apply (pointerOfIface (recordOf st slots)) [i] =
    Panic (RuntimePanic "reflect: Field index out of range").
Proof.
  unfold apply; simpl. intros H%lookup_ge_None.
  by destruct (Nat.ltb_spec i (length slots)); [lia |].
Qed.

Lemma loadSlot_record st slots i s :
  slots !! i = Some s →
  apply (pointerOfIface (recordOf st slots)) [i] ≫= loadSlot = Ok s.
Proof.
  intros H. rewrite apply_record by (by eapply lookup_lt_Some).
  unfold loadSlot; simpl. by rewrite H.
Qed.

Lemma storeSlot_record st slots i s :
  (i < length slots)%nat →
  apply (pointerOfIface (recordOf st slots)) [i] ≫= (λ fp, storeSlot fp s) =
    Ok (pointerOfIface (recordOf st (<[i := s]> slots))).
Proof.
  intros H. rewrite apply_record by done.
  unfold storeSlot; simpl.
  by destruct (Nat.ltb_spec i (length slots)); [| lia].
Qed.

(** *** [init] *)

Lemma init_done mi p :
  once mi = true →
  init mi p = if bool_decide (TypeOf p = goType mi) then Ok mi
              else Panic TypeMismatch.
Proof. unfold init. by intros ->. Qed.

Lemma init_first mi p mi' :
  once mi = false → init mi p = Ok mi' →
  ∃ t e table,
    TypeOf p = Some t ∧ reflect.Elem t = Ok e ∧
    generateFieldFuncs e (Desc mi) = Ok table ∧
    mi' = mkMessageType (Desc mi) true (Some t)
            (if implementsProtoMessage p then pbType mi
             else Some (mkGoMessage (Desc mi) t))
            table.
Proof.
  unfold init. intros ->. intros (mi1 & Hmi1 & Hcheck)%bind_Ok.
  apply bind_Ok in Hmi1 as (mi2 & Hmi2 & [= <-]).
  destruct (bool_decide _); [| done]. injection Hcheck as <-.
  unfold initOnce in Hmi2.
  apply bind_Ok in Hmi2 as (t & Ht & Hmi2).
  apply bind_Ok in Hmi2 as (wrong & _ & Hmi2).
  destruct wrong; [done |].
  apply bind_Ok in Hmi2 as (e & He & Hmi2).
  apply bind_Ok in Hmi2 as (table & Htable & [= <-]).
  exists t, e, table. simpl. repeat split; try done.
  by destruct (TypeOf p) as [t'|]; [injection Ht as -> |].
Qed.

Lemma init_Ok_bound mi p mi' :
  init mi p = Ok mi' → once mi' = true ∧ goType mi' = TypeOf p.
Proof.
  destruct (once mi) eqn:Honce.
  - rewrite init_done by done. case_bool_decide as Heq; [| done].
    by intros [= <-].
  - intros (t & e & table & Ht & _ & _ & ->)%init_first; [| done]. done.
Qed.

Lemma KnownFieldsOf_new st md fs :
  KnownFieldsOf (newMessageType md) (newRecord st) = Ok fs →
  p fs = pointerOfIface (newRecord st) ∧
  generateFieldFuncs (reflect.StructOf st) (Some md) = Ok (fields (mi fs)).
Proof.
  unfold KnownFieldsOf. intros (mi' & Hinit & [= <-])%bind_Ok.
  apply init_first in Hinit as (t & e & table & Ht & He & Htable & ->);
    [| done].
  simpl in *. injection Ht as <-. injection He as <-. done.
Qed.

End ImplFacts.

(** ** The binder's properties *)

Section BinderClaims.

Variables fieldInfoForWeak fieldInfoForMap fieldInfoForVector
          fieldInfoForMessage
    : pref.FieldDescriptor → reflect.StructField → result fieldInfo.

Local Abbreviation generateFieldFuncs :=
  (generateFieldFuncs fieldInfoForWeak fieldInfoForMap fieldInfoForVector
     fieldInfoForMessage).
Local Abbreviation initOnce :=
  (initOnce fieldInfoForWeak fieldInfoForMap fieldInfoForVector
     fieldInfoForMessage).
Local Abbreviation init :=
  (init fieldInfoForWeak fieldInfoForMap fieldInfoForVector
     fieldInfoForMessage).
Local Abbreviation initSeq :=
  (initSeq fieldInfoForWeak fieldInfoForMap fieldInfoForVector
     fieldInfoForMessage).
Local Abbreviation KnownFieldsOf :=
  (KnownFieldsOf fieldInfoForWeak fieldInfoForMap fieldInfoForVector
     fieldInfoForMessage).

(** C2.  On the known-fields facade, a field number without a [fieldInfo]
    in the table makes [Set], [Clear] and [Mutable] panic with "invalid
    field", while [Has] returns false and [Get] the zero [Value] without
    a panic. *)
Theorem knownFields_unknown_number (fs : knownFields) (n : pref.FieldNumber)
    (x : pref.Value) :
  fields (mi fs) !! n = None →
  Has fs n = Ok false ∧
  Get fs n = Ok pref.Null ∧
  Set_ fs n x = Panic (InvalidField n) ∧
  Clear fs n = Panic (InvalidField n) ∧
  Mutable fs n = Panic (InvalidField n).
Proof.
  intros Hn. unfold Has, Get, Set_, Clear, Mutable. by rewrite Hn.
Qed.

(** The table entry of a scalar field and the slot it is bound to. *)
Lemma scalar_entry st md fd fs0 :
  KnownFieldsOf (newMessageType md) (newRecord st) = Ok fs0 →
  uniqueNumbers md → fd ∈ pref.Fields md → isScalarField fd = true →
  ∃ i fi,
    (i < length (reflect.structFields st))%nat ∧
    fields (mi fs0) !! pref.Number fd = Some fi ∧
    fieldInfoForScalar fd
      (reflect.mkStructField "" [] [i] false reflect.Invalid) = Ok fi.
Proof.
  intros [_ Htable]%KnownFieldsOf_new Hnd Hfd Hsc.
  destruct (generateFieldFuncs_lookup _ _ _ _ _ _ _ _ Htable Hnd Hfd)
    as (ofs & fi & Hcl & Hfi).
  rewrite classify_scalar in Hcl by done.
  unfold fieldInfoForScalar in Hcl.
  apply bind_Ok in Hcl as (off & Hoff & [= <-]).
  destruct (offsetOf_fromShape (reflect.structFields st) _ _
              (proj1 (fieldLoop_fromShape _) _) Hoff) as (i & -> & Hi).
  exists i. eexists. split; [done |]. split; [done |]. reflexivity.
Qed.

(** C3.  A scalar field with explicit presence and declared default [d],
    on a record in which nothing was set: [Has] is false and [Get] returns
    [d]; after [Set(v)], [Has] is true and [Get] returns [v]; after a
    following [Clear], [Has] is false and [Get] returns [d] again. *)
Theorem scalar_field_lifecycle (st : reflect.structType)
    (md : pref.MessageDescriptor) (fd : pref.FieldDescriptor)
    (fs0 : knownFields) :
  KnownFieldsOf (newMessageType md) (newRecord st) = Ok fs0 →
  uniqueNumbers md →
  fd ∈ pref.Fields md →
  isScalarField fd = true →
  hasExplicitPresence fd = true →
  let n := pref.Number fd in
  let d := pref.Default fd in
  Has fs0 n = Ok false ∧ Get fs0 n = Ok d ∧
  ∀ x, ∃ fs1 fs2,
    Set_ fs0 n x = Ok fs1 ∧ Has fs1 n = Ok true ∧ Get fs1 n = Ok x ∧
    Clear fs1 n = Ok fs2 ∧ Has fs2 n = Ok false ∧ Get fs2 n = Ok d.
Proof.
  intros Hk Hnd Hfd Hsc Hpres n d. subst n d.
  destruct (scalar_entry _ _ _ _ Hk Hnd Hfd Hsc) as (i & fi & Hi & Hfi & Hdef).
  apply KnownFieldsOf_new in Hk as [Hp _].
  destruct fs0 as [p0 mi0]; simpl in *. subst p0.
  unfold fieldInfoForScalar in Hdef. simpl in Hdef.
  unfold hasExplicitPresence in Hpres. rewrite Hpres in Hdef.
  injection Hdef as <-.
  change (newRecord st)
    with (recordOf st (replicate (length (reflect.structFields st)) slotZero)).
  set (slots0 := replicate (length (reflect.structFields st)) slotZero).
  assert (slots0 !! i = Some slotZero) as H0
    by (by apply lookup_replicate_2).
  assert (i < length slots0)%nat as Hlen
    by (unfold slots0; by rewrite length_replicate).
  unfold Has, Get, Set_, Clear; simpl. rewrite Hfi; simpl.
  rewrite (loadSlot_record _ _ _ _ H0). simpl.
  split; [done |]. split; [done |]. intros x.
  rewrite (storeSlot_record _ _ _ (slotScalar x) Hlen). simpl.
  eexists _, _. split; [reflexivity |]. simpl. rewrite Hfi; simpl.
  rewrite (loadSlot_record _ _ _ (slotScalar x))
    by (by apply list_lookup_insert_eq).
  simpl. split; [done |]. split; [done |].
  rewrite storeSlot_record by (by rewrite length_insert). simpl.
  split; [reflexivity |]. simpl. rewrite Hfi; simpl.
  rewrite (loadSlot_record _ _ _ slotZero).
  - done.
  - apply list_lookup_insert_eq. by rewrite length_insert.
Qed.

(** The table entry of a member of the oneof [g] and the slot of the
    group. *)
Lemma oneof_entry st md g fd fs0 :
  KnownFieldsOf (newMessageType md) (newRecord st) = Ok fs0 →
  uniqueNumbers md → fd ∈ pref.Fields md → isOneofMember g fd = true →
  ∃ i fi,
    (i < length (reflect.structFields st))%nat ∧
    reflect.Index
      (default reflect.zeroStructField
         (si_oneofs (fieldLoop (reflect.structFields st)) !! g)) = [i] ∧
    fields (mi fs0) !! pref.Number fd = Some fi ∧
    fieldInfoForOneof fd
      (reflect.mkStructField "" [] [i] false reflect.Invalid) None = Ok fi.
Proof.
  intros [_ Htable]%KnownFieldsOf_new Hnd Hfd Hm.
  destruct (generateFieldFuncs_lookup _ _ _ _ _ _ _ _ Htable Hnd Hfd)
    as (ofs & fi & Hcl & Hfi).
  rewrite (classify_oneof _ _ _ _ _ _ _ g) in Hcl by done.
  unfold fieldInfoForOneof in Hcl.
  apply bind_Ok in Hcl as (off & Hoff & [= <-]).
  destruct (offsetOf_fromShape (reflect.structFields st) _ _
              (proj1 (proj2 (fieldLoop_fromShape _)) _) Hoff) as (i & -> & Hi).
  apply offsetOf_Ok in Hoff as [Hidx _].
  exists i. eexists. split; [done |]. split; [done |]. split; [done |].
  reflexivity.
Qed.

(** C4.  The members of a oneof exclude one another.  For two members
    [A] and [B] of one group, [Set(A,x)] then [Set(B,y)] on a fresh
    record leaves [Has(A)] false, [Has(B)] true and [Get(B) = y]; and in
    no state of a record are both present. *)
Theorem oneof_exclusive (st : reflect.structType)
    (md : pref.MessageDescriptor) (g : Name)
    (fdA fdB : pref.FieldDescriptor) (fs0 : knownFields) :
  KnownFieldsOf (newMessageType md) (newRecord st) = Ok fs0 →
  uniqueNumbers md →
  fdA ∈ pref.Fields md → fdB ∈ pref.Fields md →
  isOneofMember g fdA = true → isOneofMember g fdB = true →
  pref.Number fdA ≠ pref.Number fdB →
  let a := pref.Number fdA in
  let b := pref.Number fdB in
  (∀ x y, ∃ fs1 fs2,
     Set_ fs0 a x = Ok fs1 ∧ Set_ fs1 b y = Ok fs2 ∧
     Has fs2 a = Ok false ∧ Has fs2 b = Ok true ∧ Get fs2 b = Ok y) ∧
  (∀ slots,
     let fs := mkMessageDataType (pointerOfIface (recordOf st slots)) (mi fs0) in
     ¬ (Has fs a = Ok true ∧ Has fs b = Ok true)).
Proof.
  intros Hk Hnd HA HB HmA HmB Hne a b. subst a b.
  destruct (oneof_entry _ _ _ _ _ Hk Hnd HA HmA) as (i & fiA & Hi & HiA & HfA & HdA).
  destruct (oneof_entry _ _ _ _ _ Hk Hnd HB HmB) as (j & fiB & _ & HiB & HfB & HdB).
  assert (j = i) as -> by congruence. clear HiA HiB.
  apply KnownFieldsOf_new in Hk as [Hp _].
  destruct fs0 as [p0 mi0]; simpl in *. subst p0.
  injection HdA as <-. injection HdB as <-.
  assert ((pref.Number fdB =? pref.Number fdA)%Z = false) as Hba
    by (apply Z.eqb_neq; congruence).
  split.
  - intros x y.
    change (newRecord st)
      with (recordOf st (replicate (length (reflect.structFields st)) slotZero)).
    set (slots0 := replicate (length (reflect.structFields st)) slotZero).
    assert (i < length slots0)%nat as Hlen
      by (unfold slots0; by rewrite length_replicate).
    unfold Has, Get, Set_; simpl. rewrite HfA; simpl.
    rewrite (storeSlot_record _ _ _ _ Hlen). simpl.
    eexists _, _. split; [reflexivity |]. simpl. rewrite HfB; simpl.
    rewrite storeSlot_record by (by rewrite length_insert). simpl.
    split; [reflexivity |]. simpl. rewrite HfA, HfB; simpl.
    rewrite (loadSlot_record _ _ _ (slotOneof (pref.Number fdB) y))
      by (apply list_lookup_insert_eq; by rewrite length_insert).
    simpl. by rewrite Hba, Z.eqb_refl.
  - intros slots [Ha Hb]. unfold Has in Ha, Hb; simpl in Ha, Hb.
    rewrite HfA in Ha. rewrite HfB in Hb. simpl in Ha, Hb.
    destruct (slots !! i) as [s|] eqn:Hs.
    + rewrite (loadSlot_record _ _ _ _ Hs) in Ha, Hb. simpl in Ha, Hb.
      destruct s as [| x | n x]; simplify_eq.
      apply Z.eqb_eq in Ha, Hb. congruence.
    + rewrite apply_record_beyond in Ha by done. done.
Qed.

(** After binding, a record of another type is a fatal mismatch. *)
Lemma init_type_mismatch (mi : MessageType) (p : iface) :
  once mi = true → TypeOf p ≠ goType mi → init mi p = Panic TypeMismatch.
Proof.
  intros Honce Hne. rewrite init_done by done.
  by rewrite bool_decide_eq_false_2.
Qed.

(** The guard of [init] lets through every record whose type is not a
    pointer but has a struct as its element: an array, a channel, a map or
    a slice of structs. *)
Lemma init_accepts_container_of_struct (mi : MessageType) (t e : reflect.rtype)
    (slots : list slot) (table : gmap pref.FieldNumber fieldInfo) :
  once mi = false →
  reflect.KindOf t ≠ reflect.Ptr →
  reflect.Elem t = Ok e →
  reflect.KindOf e = reflect.Struct →
  generateFieldFuncs e (Desc mi) = Ok table →
  ∃ mi', init mi (Some (mkObject t slots)) = Ok mi' ∧ goType mi' = Some t.
Proof.
  intros Honce Hptr He Hstruct Htable. unfold init, initOnce.
  rewrite Honce. simpl.
  rewrite bool_decide_eq_false_2 by done. simpl. rewrite He. simpl.
  rewrite bool_decide_eq_true_2 by done. simpl. rewrite Htable. simpl.
  rewrite bool_decide_eq_true_2 by done. by eexists.
Qed.

(** C5, evaluated where the code departs from it.  The guard of [init]
    joins its two tests with "and"; a record that is a slice of structs
    fails the first test and passes the second, so it is accepted and
    the binder is bound to the slice type. *)
Theorem init_accepts_slice_of_struct :
  ∃ mi',
    init (newMessageType ImplExamples.emptyDesc) ImplExamples.sliceOfStruct
      = Ok mi' ∧
    goType mi' = Some (reflect.SliceOf (reflect.StructOf ImplExamples.emptyStruct)).
Proof. eexists. split; reflexivity. Qed.

(** C8.  [init] is idempotent.  A successful call leaves the binder
    initialised; when it was the first call, [goType] is the type of the
    record, [pbType] the wrapper made for it and the table the one the
    classification of the record's shape built; and every run of further
    calls on records of the bound type returns the same binder, table
    included, unchanged. *)
Theorem init_idempotent (mi mi' : MessageType) (p : iface) :
  init mi p = Ok mi' →
  once mi' = true ∧
  (once mi = false →
     ∃ t e table,
       TypeOf p = Some t ∧ reflect.Elem t = Ok e ∧
       generateFieldFuncs e (Desc mi) = Ok table ∧
       mi' = mkMessageType (Desc mi) true (Some t)
               (if implementsProtoMessage p then pbType mi
                else Some (mkGoMessage (Desc mi) t))
               table) ∧
  ∀ qs, Forall (λ q, TypeOf q = TypeOf p) qs → initSeq mi' qs = Ok mi'.
Proof.
  intros Hinit. destruct (init_Ok_bound _ _ _ _ _ _ _ Hinit) as [Hdone Hty].
  split; [done |]. split.
  - intros Hfirst. by apply init_first in Hinit.
  - induction 1 as [|q qs Hq _ IH]; simpl; [done |].
    rewrite init_done by done.
    rewrite bool_decide_eq_true_2 by congruence. simpl. apply IH.
Qed.


End BinderClaims.

(** ** The properties at the sample shapes *)

Section ImplWitnesses.
Import ImplExamples.

Lemma knownFields_unknown_number_witness :
  let fs := facade flagDesc flagStruct in
  bind flagDesc flagStruct = Ok fs ∧
  fields (mi fs) !! 7%Z = None ∧
  Has fs 7 = Ok false ∧
  Get fs 7 = Ok pref.Null ∧
  Set_ fs 7 (pref.OfBool true) = Panic (InvalidField 7) ∧
  Clear fs 7 = Panic (InvalidField 7) ∧
  Mutable fs 7 = Panic (InvalidField 7).
Proof.
  intros fs. split; [reflexivity |].
  assert (fields (mi fs) !! 7%Z = None) as H by (vm_compute; reflexivity).
  split; [exact H |].
  exact (knownFields_unknown_number fs 7 (pref.OfBool true) H).
Defined.

Lemma unique_flagDesc : uniqueNumbers flagDesc.
Proof. unfold uniqueNumbers. apply (bool_decide_unpack _). vm_compute. exact I. Defined.

Lemma unique_choiceDesc : uniqueNumbers choiceDesc.
Proof. unfold uniqueNumbers. apply (bool_decide_unpack _). vm_compute. exact I. Defined.

Lemma scalar_field_lifecycle_witness :
  let fs0 := facade flagDesc flagStruct in
  Has fs0 1 = Ok false ∧ Get fs0 1 = Ok (pref.OfBool true) ∧
  ∀ x, ∃ fs1 fs2,
    Set_ fs0 1 x = Ok fs1 ∧ Has fs1 1 = Ok true ∧ Get fs1 1 = Ok x ∧
    Clear fs1 1 = Ok fs2 ∧ Has fs2 1 = Ok false ∧
    Get fs2 1 = Ok (pref.OfBool true).
Proof.
  apply (scalar_field_lifecycle notImplemented notImplemented notImplemented
           notImplemented flagStruct flagDesc flagField
           (facade flagDesc flagStruct)).
  - reflexivity.
  - exact unique_flagDesc.
  - simpl. left.
  - reflexivity.
  - reflexivity.
Defined.

(** A presence-less field is another matter: after [Set] of the zero value
    [Has] stays false, as [TestScalarProto3] expects. *)
Example presenceless_set_zero :
  ∃ fs0 fs1,
    bind plainDesc plainStruct = Ok fs0 ∧
    Set_ fs0 1 (pref.OfBool false) = Ok fs1 ∧
    Has fs1 1 = Ok false ∧ Get fs1 1 = Ok (pref.OfBool false).
Proof. eexists _, _. repeat split; reflexivity. Qed.

Lemma oneof_exclusive_witness :
  let fs0 := facade choiceDesc choiceStruct in
  (∀ x y, ∃ fs1 fs2,
     Set_ fs0 2 x = Ok fs1 ∧ Set_ fs1 3 y = Ok fs2 ∧
     Has fs2 2 = Ok false ∧ Has fs2 3 = Ok true ∧ Get fs2 3 = Ok y) ∧
  (∀ slots,
     let fs := mkMessageDataType (pointerOfIface (recordOf choiceStruct slots))
                 (mi fs0) in
     ¬ (Has fs 2 = Ok true ∧ Has fs 3 = Ok true)).
Proof.
  apply (oneof_exclusive notImplemented notImplemented notImplemented
           notImplemented choiceStruct choiceDesc "kind" fieldA fieldB
           (facade choiceDesc choiceStruct)).
  - reflexivity.
  - exact unique_choiceDesc.
  - simpl. left.
  - simpl. right. left.
  - reflexivity.
  - reflexivity.
  - simpl. lia.
Defined.

Local Abbreviation init4 :=
  (init notImplemented notImplemented notImplemented notImplemented).

Lemma init_idempotent_witness :
  let mi' := mi (facade flagDesc flagStruct) in
  init4 (newMessageType flagDesc) (newRecord flagStruct) = Ok mi' ∧
  once mi' = true ∧
  init4 mi' (newRecord flagStruct) = Ok mi' ∧
  init4 mi' (recordOf flagStruct [slotScalar (pref.OfBool false); slotZero])
    = Ok mi'.
Proof.
  intros mi'.
  assert (init4 (newMessageType flagDesc) (newRecord flagStruct) = Ok mi')
    as H by reflexivity.
  destruct (init_idempotent notImplemented notImplemented notImplemented
              notImplemented (newMessageType flagDesc) mi'
              (newRecord flagStruct) H) as (Hdone & _ & Hseq).
  split; [exact H |]. split; [exact Hdone |]. split.
  - exact (Hseq [newRecord flagStruct] ltac:(repeat constructor)).
  - exact (Hseq [recordOf flagStruct [slotScalar (pref.OfBool false); slotZero]]
             ltac:(repeat constructor)).
Defined.

(** What the guard of [init] makes of records that are not pointers to
    structs: a slice of integers is turned away by the guard, a struct and
    a pointer to an integer by package [reflect], and a slice of structs
    by nothing. *)
Example init_guard :
  init4 (newMessageType emptyDesc)
      (Some (mkObject (reflect.SliceOf (reflect.Basic reflect.Int)) []))
    = Panic WantStructKind ∧
  init4 (newMessageType emptyDesc)
      (Some (mkObject (reflect.StructOf emptyStruct) []))
    = Panic (RuntimePanic "reflect: Elem of invalid type") ∧
  init4 (newMessageType emptyDesc)
      (Some (mkObject (reflect.PtrTo (reflect.Basic reflect.Int)) []))
    = Panic (RuntimePanic "reflect: NumField of non-struct type") ∧
  init4 (newMessageType emptyDesc) sliceOfStruct
    = Ok (mkMessageType (Some emptyDesc) true
            (Some (reflect.SliceOf (reflect.StructOf emptyStruct)))
            (Some (mkGoMessage (Some emptyDesc)
                     (reflect.SliceOf (reflect.StructOf emptyStruct))))
            ∅).
Proof. repeat split. Qed.


End ImplWitnesses.

(** * Further properties of the binder *)

(** ** [Len] and [Range] *)

Section Counting.

Lemma rangeEntries_app {St} (a b : list (pref.FieldNumber * pref.Value))
    (f : fieldCallback St) (s : St) :
  rangeEntries (a ++ b) f s =
    if (rangeEntries a f s).1 then rangeEntries b f (rangeEntries a f s).2
    else (false, (rangeEntries a f s).2).
Proof.
  revert s. induction a as [|[n x] a IH]; intros s; [done |].
  simpl. destruct (f n x s) as [c s']. destruct c; [apply IH | done].
Qed.

Lemma Len_foldr (ptr : pointer) (l : list (pref.FieldNumber * fieldInfo)) :
  (∀ e, e ∈ l → (∃ b, has e.2 ptr = Ok b) ∧ (∃ x, get e.2 ptr = Ok x)) →
  foldr (uncurry (λ (_ : pref.FieldNumber) fi (acc : result nat),
                    cnt ← acc; b ← has fi ptr;
                    Ok (if (b : bool) then S cnt else cnt)))
        (Ok 0%nat) l
    = Ok (length (omap (presentEntry ptr) l)).
Proof.
  induction l as [|[n fi] l IH]; intros Hl; [done |].
  cbn [foldr uncurry]. rewrite IH by (intros e He; apply Hl; by right).
  destruct (Hl (n, fi)) as [[b Hb] [x Hx]]; [by left |]. simpl in Hb, Hx.
  cbn [omap list_omap]. unfold presentEntry at 2. simpl. rewrite Hb, Hx. simpl.
  by destruct b.
Qed.

Lemma Range_foldr {St} (ptr : pointer) (f : fieldCallback St) (s : St)
    (l : list (pref.FieldNumber * fieldInfo)) :
  (∀ e, e ∈ l → (∃ b, has e.2 ptr = Ok b) ∧ (∃ x, get e.2 ptr = Ok x)) →
  foldr (uncurry (rangeStep ptr f)) (Ok (true, s)) l
    = Ok (rangeEntries (reverse (omap (presentEntry ptr) l)) f s).
Proof.
  induction l as [|[n fi] l IH]; intros Hl; [done |].
  cbn [foldr uncurry]. rewrite IH by (intros e He; apply Hl; by right).
  destruct (Hl (n, fi)) as [[b Hb] [x Hx]]; [by left |]. simpl in Hb, Hx.
  cbn [omap list_omap]. unfold presentEntry at 2. simpl. rewrite Hb, Hx.
  unfold rangeStep. simpl.
  destruct b; simpl.
  - rewrite reverse_cons, rangeEntries_app.
    destruct (rangeEntries _ f s) as [c s']. simpl.
    destruct c; [| done]. by destruct (f n x s') as [[] ?].
  - destruct (rangeEntries _ f s) as [c s']. by destruct c.
Qed.

Lemma readable_entries (fs : knownFields) :
  readable fs →
  ∀ e, e ∈ map_to_list (fields (mi fs)) →
       (∃ b, has e.2 (p fs) = Ok b) ∧ (∃ x, get e.2 (p fs) = Ok x).
Proof. intros Hr [n fi] He%elem_of_map_to_list. by eapply Hr. Qed.

Lemma elem_of_present (fs : knownFields) (n : pref.FieldNumber) (x : pref.Value) :
  (n, x) ∈ present fs ↔ Has fs n = Ok true ∧ Get fs n = Ok x.
Proof.
  unfold present, Has, Get. rewrite list_elem_of_omap. split.
  - intros ([n' fi] & Hin%elem_of_map_to_list & Hp).
    unfold presentEntry in Hp. simpl in Hp.
    destruct (has fi (p fs)) as [[]|] eqn:Hh; try done.
    destruct (get fi (p fs)) as [x'|] eqn:Hg; [| done].
    injection Hp as -> ->. by rewrite Hin.
  - destruct (fields (mi fs) !! n) as [fi|] eqn:Hn; [| by intros [[=] _]].
    intros [Hh Hg]. exists (n, fi). split; [by apply elem_of_map_to_list |].
    unfold presentEntry. simpl. by rewrite Hh, Hg.
Qed.

Lemma NoDup_present (fs : knownFields) : NoDup (present fs).*1.
Proof.
  unfold present.
  pose proof (NoDup_fst_map_to_list (fields (mi fs))) as Hnd.
  induction (map_to_list (fields (mi fs))) as [|[n fi] l IH]; [constructor |].
  cbn [fmap list_fmap] in Hnd. apply NoDup_cons in Hnd as [Hn Hnd].
  cbn [omap list_omap].
  destruct (presentEntry (p fs) (n, fi)) as [[n' x]|] eqn:Hp; [| by apply IH].
  cbn [fmap list_fmap]. apply NoDup_cons. split; [| by apply IH].
  assert (n' = n) as ->.
  { unfold presentEntry in Hp. simpl in Hp.
    destruct (has fi (p fs)) as [[]|]; try done.
    destruct (get fi (p fs)); [| done]. by injection Hp as -> _. }
  simpl in Hn |- *.
  intros ([n2 x2] & Heq & Hin)%list_elem_of_fmap. simpl in Heq. subst n2.
  apply Hn. apply list_elem_of_omap in Hin as ([n3 fi3] & Hin & Hp3).
  unfold presentEntry in Hp3. simpl in Hp3.
  destruct (has fi3 (p fs)) as [[]|]; try done.
  destruct (get fi3 (p fs)); [| done]. injection Hp3 as -> _.
  apply list_elem_of_fmap. by exists (n, fi3).
Qed.

End Counting.

(** X22.  [Len] counts the fields that are present: on a message whose
    fields can be read without a panic it returns the number of the field
    numbers for which [Has] answers true. *)
Theorem Len_counts (fs : knownFields) :
  readable fs →
  ∃ ns : list pref.FieldNumber,
    NoDup ns ∧ (∀ n, n ∈ ns ↔ Has fs n = Ok true) ∧
    Len fs = Ok (length ns).
Proof.
  intros Hr. exists (present fs).*1. split; [apply NoDup_present |]. split.
  - intros n. rewrite list_elem_of_fmap. split.
    + intros ([n' x] & -> & Hin). by apply elem_of_present in Hin as [? _].
    + intros Hh. unfold Has in Hh.
      destruct (fields (mi fs) !! n) as [fi|] eqn:Hn; [| done].
      destruct (Hr n fi Hn) as [_ [x Hx]].
      exists (n, x). split; [done |]. apply elem_of_present.
      unfold Has, Get. by rewrite Hn.
  - unfold Len. rewrite map_fold_foldr, length_fmap.
    apply Len_foldr, readable_entries, Hr.
Qed.

(** X23.  [Range] is a loop with a break over the fields that are present:
    on a message whose fields can be read without a panic there is a list
    that holds, once each, exactly the numbers with [Has] true, each with
    the value [Get] returns for it, and [Range] calls the callback on the
    entries of that list in order until it answers false. *)
Theorem Range_present (fs : knownFields) :
  readable fs →
  ∃ l : list (pref.FieldNumber * pref.Value),
    NoDup l.*1 ∧
    (∀ n x, (n, x) ∈ l ↔ Has fs n = Ok true ∧ Get fs n = Ok x) ∧
    ∀ St (f : fieldCallback St) (s : St),
      Range fs f s = Ok (rangeEntries l f s).2.
Proof.
  intros Hr. exists (reverse (present fs)). split; [| split].
  - rewrite fmap_reverse, reverse_Permutation. apply NoDup_present.
  - intros n x. rewrite elem_of_reverse. apply elem_of_present.
  - intros St f s. unfold Range. rewrite map_fold_foldr.
    rewrite (Range_foldr _ _ _ _ (readable_entries fs Hr)). unfold present.
    by destruct (rangeEntries _ f s).
Qed.

(** ** [init], [MessageOf] and the table *)

Section BinderExtras.

Variables fieldInfoForWeak fieldInfoForMap fieldInfoForVector
          fieldInfoForMessage
    : pref.FieldDescriptor → reflect.StructField → result fieldInfo.
Variable fieldType : reflect.structType → nat → reflect.rtype.

Local Abbreviation classify :=
  (classify fieldInfoForWeak fieldInfoForMap fieldInfoForVector
     fieldInfoForMessage).
Local Abbreviation classifyStep :=
  (classifyStep fieldInfoForWeak fieldInfoForMap fieldInfoForVector
     fieldInfoForMessage).
Local Abbreviation generateFieldFuncs :=
  (generateFieldFuncs fieldInfoForWeak fieldInfoForMap fieldInfoForVector
     fieldInfoForMessage).
Local Abbreviation initOnce :=
  (initOnce fieldInfoForWeak fieldInfoForMap fieldInfoForVector
     fieldInfoForMessage).
Local Abbreviation init :=
  (init fieldInfoForWeak fieldInfoForMap fieldInfoForVector
     fieldInfoForMessage).
Local Abbreviation KnownFieldsOf :=
  (KnownFieldsOf fieldInfoForWeak fieldInfoForMap fieldInfoForVector
     fieldInfoForMessage).
Local Abbreviation MessageOf :=
  (MessageOf fieldInfoForWeak fieldInfoForMap fieldInfoForVector
     fieldInfoForMessage).

Lemma generateFieldFuncs_Ok e md table :
  generateFieldFuncs e md = Ok table →
  ∃ st d ofs,
    e = reflect.StructOf st ∧ md = Some d ∧
    fold_left (classifyStep (fieldLoop (reflect.structFields st)) ofs)
      (pref.Fields d) (Ok ∅) = Ok table.
Proof.
  unfold generateFieldFuncs. destruct e as [| | | | | |st]; try done.
  intros (ofs & _ & Hfold)%bind_Ok. destruct md as [d|]; [| done].
  by exists st, d, ofs.
Qed.

Lemma classify_fold_dom si ofs fds :
  ∀ acc table,
    fold_left (classifyStep si ofs) fds (Ok acc) = Ok table →
    ∀ n, is_Some (table !! n) ↔
         is_Some (acc !! n) ∨ n ∈ pref.Number <$> fds.
Proof.
  induction fds as [|fd fds IH]; intros acc table; simpl.
  - intros [= <-] n. rewrite elem_of_nil. tauto.
  - change (classifyStep si ofs (Ok acc) fd)
      with (classify si ofs fd ≫= λ fi, Ok (<[pref.Number fd := fi]> acc)).
    destruct (classify si ofs fd) as [fi|x] eqn:Hfi; simpl;
      [| by rewrite classify_fold_Panic].
    intros Hfold n. rewrite (IH _ _ Hfold n), elem_of_cons.
    rewrite lookup_insert_is_Some. split.
    + intros [[-> | [_ H]] | H]; auto.
    + intros [H | [-> | H]]; auto.
      destruct (decide (pref.Number fd = n)) as [-> | Hne]; auto.
Qed.

Lemma TypeOf_Some (q : iface) (t : reflect.rtype) :
  TypeOf q = Some t → ∃ o, q = Some o ∧ objType o = t.
Proof. destruct q as [o|]; [| done]. intros [= <-]. by exists o. Qed.

Lemma initOnce_wrong mi q t :
  TypeOf q = Some t →
  initOnce mi q =
    (wrong ←
       (if negb (bool_decide (reflect.KindOf t = reflect.Ptr)) then
          e ← reflect.Elem t;
          Ok (negb (bool_decide (reflect.KindOf e = reflect.Struct)))
        else Ok false);
     if (wrong : bool) then Panic WantStructKind
     else
       e ← reflect.Elem t;
       table ← generateFieldFuncs e (Desc mi);
       Ok (mkMessageType (Desc mi) (once mi) (Some t)
             (if implementsProtoMessage q then pbType mi
              else Some (mkGoMessage (Desc mi) t))
             table)).
Proof. unfold initOnce. by intros ->. Qed.

Lemma init_Panic mi q x :
  once mi = false → initOnce mi q = Panic x → init mi q = Panic x.
Proof. unfold init. by intros -> ->. Qed.

(** X24.  The first [init] of a binder succeeds only with a descriptor and
    on a record whose type has a struct as its element type; it then binds
    the binder to exactly the type of the record. *)
Theorem init_first_accepts (mi mi' : MessageType) (q : iface) :
  once mi = false →
  init mi q = Ok mi' →
  ∃ t st md,
    TypeOf q = Some t ∧ reflect.Elem t = Ok (reflect.StructOf st) ∧
    Desc mi = Some md ∧
    once mi' = true ∧ goType mi' = Some t ∧ Desc mi' = Some md.
Proof.
  intros Honce Hinit.
  apply init_first in Hinit as (t & e & table & Ht & He & Htable & ->);
    [| done].
  apply generateFieldFuncs_Ok in Htable as (st & md & ofs & -> & Hmd & _).
  exists t, st, md. by rewrite Hmd.
Qed.

(** X25.  The panics of the first [init] by the type of the record: a nil
    interface and a type without an element type (a struct passed by
    value, a number) fail inside [reflect]; a type that is no pointer and
    has an element type that is no struct fails with "want *struct kind";
    a pointer to anything but a struct passes that check and fails when
    its fields are counted. *)
Theorem init_first_panics (mi : MessageType) (q : iface) :
  once mi = false →
  (TypeOf q = None →
   init mi q = Panic (RuntimePanic
                        "reflect: call of reflect.Value.Type on zero Value")) ∧
  (∀ t x, TypeOf q = Some t → reflect.Elem t = Panic x → init mi q = Panic x) ∧
  (∀ t e, TypeOf q = Some t → reflect.KindOf t ≠ reflect.Ptr →
          reflect.Elem t = Ok e → reflect.KindOf e ≠ reflect.Struct →
          init mi q = Panic WantStructKind) ∧
  (∀ e, TypeOf q = Some (reflect.PtrTo e) →
        (∀ st, e ≠ reflect.StructOf st) →
        init mi q = Panic (RuntimePanic "reflect: NumField of non-struct type")).
Proof.
  intros Honce. repeat split.
  - intros Hq. apply init_Panic; [done |]. unfold initOnce. by rewrite Hq.
  - intros t x Hq He. apply init_Panic; [done |].
    rewrite (initOnce_wrong _ _ _ Hq), He. by case_bool_decide.
  - intros t e Hq Ht He Hk. apply init_Panic; [done |].
    rewrite (initOnce_wrong _ _ _ Hq), He.
    rewrite bool_decide_eq_false_2 by done. simpl.
    by rewrite bool_decide_eq_false_2.
  - intros e Hq He. apply init_Panic; [done |].
    rewrite (initOnce_wrong _ _ _ Hq). simpl.
    destruct e; try done. by destruct (He s).
Qed.

(** X26.  [generateFieldFuncs] wants a struct type and a descriptor, and
    the table it builds has an entry for exactly the field numbers of the
    descriptor. *)
Theorem generateFieldFuncs_domain (e : reflect.rtype)
    (md : option pref.MessageDescriptor)
    (table : gmap pref.FieldNumber fieldInfo) :
  generateFieldFuncs e md = Ok table →
  ∃ st d,
    e = reflect.StructOf st ∧ md = Some d ∧
    ∀ n, is_Some (table !! n) ↔ n ∈ pref.Number <$> pref.Fields d.
Proof.
  intros (st & d & ofs & -> & -> & Hfold)%generateFieldFuncs_Ok.
  exists st, d. split; [done |]. split; [done |]. intros n.
  rewrite (classify_fold_dom _ _ _ _ _ Hfold n), lookup_empty.
  split; [intros [[? [=]] | ?]; done | by right].
Qed.

(** X27.  [MessageOf] on a record that has no reflection of its own
    returns the [message] view of the record: [Unwrap] of it gives the
    record back, its [Type] is the message type made for the descriptor
    and the type of the record, and its [KnownFields] is the facade that
    [KnownFieldsOf] returns. *)
Theorem MessageOf_wraps (mi : MessageType) (q : iface) (msg : Message) :
  once mi = false →
  implementsProtoMessage q = false →
  MessageOf mi q = Ok msg →
  ∃ m t,
    msg = wrapped m ∧ TypeOf q = Some t ∧
    message_Unwrap fieldType m = Ok q ∧
    message_Type m = Some (mkGoMessage (Desc mi) t) ∧
    KnownFieldsOf mi q = Ok (message_KnownFields m).
Proof.
  intros Honce Hno. unfold MessageOf.
  intros (mi1 & Hinit & Hmsg)%bind_Ok. rewrite Hno in Hmsg.
  injection Hmsg as <-. pose proof Hinit as Hfirst.
  apply init_first in Hfirst as (t & e & table & Ht & He & Htable & ->);
    [| done].
  eexists (dataTypeOf _ q), t. split; [reflexivity |]. split; [done |].
  split; [| split].
  - unfold message_Unwrap, asType, ValueType, ValueInterface. simpl.
    rewrite He. simpl.
    destruct (TypeOf_Some _ _ Ht) as (o & -> & <-). simpl.
    rewrite He. simpl. rewrite bool_decide_eq_true_2 by done. simpl.
    clear. by repeat case_match.
  - unfold message_Type. simpl. by rewrite Hno.
  - unfold KnownFieldsOf. by rewrite Hinit.
Qed.

End BinderExtras.

(** ** The scan of the record shape *)

Section Scan.

Lemma structFieldsOf_snoc (decls : list reflect.fieldDecl) (d : reflect.fieldDecl) :
  structFieldsOf (decls ++ [d]) =
    (structFieldsOf decls ++ [reflect.fieldOfDecl (length decls) d])%list.
Proof.
  unfold structFieldsOf. rewrite imap_app. simpl.
  by rewrite Nat.add_0_r.
Qed.

Lemma fieldLoop_snoc (decls : list reflect.fieldDecl) (d : reflect.fieldDecl) :
  fieldLoop (decls ++ [d]) =
    fieldStep (fieldLoop decls) (reflect.fieldOfDecl (length decls) d).
Proof. unfold fieldLoop. by rewrite structFieldsOf_snoc, fold_left_app. Qed.

Lemma fieldStep_fields (si : structInfo) (i : nat) (d : reflect.fieldDecl)
    (n : pref.FieldNumber) :
  si_fields (fieldStep si (reflect.fieldOfDecl i d)) !! n =
    if decide (shapeNumber d = Some n) then Some (reflect.fieldOfDecl i d)
    else si_fields si !! n.
Proof.
  unfold fieldStep, shapeNumber. simpl.
  destruct (tagNumber _) as [k|]; simpl.
  - destruct (decide (Some (pref.toFieldNumber k) = Some n)) as [[= <-] | Hne].
    + apply lookup_insert_eq.
    + apply lookup_insert_ne. congruence.
  - destruct (0 <? String.length _)%nat; [done |].
    by destruct (isSpecialName _).
Qed.

End Scan.

(** X28.  The scan of the record shape binds a field number to the last
    field of the struct whose [protobuf] tag carries that number: when two
    fields are tagged with one number, the later one takes it, and a
    number that no tag carries is bound to nothing. *)
Theorem fieldLoop_last_wins (decls : list reflect.fieldDecl)
    (n : pref.FieldNumber) (f : reflect.StructField) :
  si_fields (fieldLoop decls) !! n = Some f ↔
    ∃ i d, decls !! i = Some d ∧ f = reflect.fieldOfDecl i d ∧
           shapeNumber d = Some n ∧
           ∀ j d', (i < j)%nat → decls !! j = Some d' → shapeNumber d' ≠ Some n.
Proof.
  induction decls as [|d0 decls IH] using rev_ind.
  - split; [done | by intros (i & d & [=] & _)].
  - rewrite fieldLoop_snoc, fieldStep_fields.
    destruct (decide (shapeNumber d0 = Some n)) as [Hd0 | Hd0].
    + split.
      * intros [= <-]. exists (length decls), d0. split; [| split; [| split]].
        -- by rewrite lookup_app_r, Nat.sub_diag.
        -- done.
        -- done.
        -- intros j d' Hj Hd'. apply lookup_lt_Some in Hd'.
           rewrite length_app in Hd'. simpl in Hd'. lia.
      * intros (i & d & Hi & -> & Hd & Hlast).
        destruct (decide (i = length decls)) as [-> | Hne].
        -- rewrite lookup_app_r, Nat.sub_diag in Hi by lia.
           by injection Hi as <-.
        -- exfalso. apply (Hlast (length decls) d0); [| | done].
           ++ apply lookup_lt_Some in Hi. rewrite length_app in Hi.
              simpl in Hi. lia.
           ++ by rewrite lookup_app_r, Nat.sub_diag.
    + rewrite IH. split.
      * intros (i & d & Hi & -> & Hd & Hlast). exists i, d.
        split; [by apply lookup_app_l_Some |]. split; [done |].
        split; [done |]. intros j d' Hj Hd'.
        destruct (decide (j = length decls)) as [-> | Hne].
        -- rewrite lookup_app_r, Nat.sub_diag in Hd' by lia.
           by injection Hd' as <-.
        -- apply (Hlast j d' Hj). rewrite lookup_app_l in Hd'; [done |].
           apply lookup_lt_Some in Hd'. rewrite length_app in Hd'.
           simpl in Hd'. lia.
      * intros (i & d & Hi & -> & Hd & Hlast).
        destruct (decide (i = length decls)) as [-> | Hne].
        -- rewrite lookup_app_r, Nat.sub_diag in Hi by lia.
           injection Hi as <-. done.
        -- assert (i < length decls)%nat as Hlt.
           { apply lookup_lt_Some in Hi. rewrite length_app in Hi.
             simpl in Hi. lia. }
           rewrite lookup_app_l in Hi by done.
           exists i, d. split; [done |]. split; [done |]. split; [done |].
           intros j d' Hj Hd'. apply (Hlast j d' Hj).
           by apply lookup_app_l_Some.
Qed.

(** ** Struct tags *)

Section Tags.
Import GoTags.

Lemma Split_nocomma (e : string) :
  GoStrings.IndexByte e "," = (-1)%Z → Split e "," = [e].
Proof.
  induction e as [|c e IH]; [done |].
  rewrite IndexByte_cons. cbn [Split].
  destruct (Ascii.eqb c ","); [done |].
  pose proof (IndexByte_bounds e ",") as Hb.
  destruct (Z.ltb_spec (GoStrings.IndexByte e ",") 0); [| lia].
  intros _. by rewrite IH by lia.
Qed.

Lemma Split_element (e rest : string) :
  GoStrings.IndexByte e "," = (-1)%Z →
  Split (e ++ "," ++ rest) "," = e :: Split rest ",".
Proof.
  induction e as [|c e IH]; [done |].
  rewrite IndexByte_cons, app_cons_string. cbn [Split].
  destruct (Ascii.eqb c ","); [done |].
  pose proof (IndexByte_bounds e ",") as Hb.
  destruct (Z.ltb_spec (GoStrings.IndexByte e ",") 0); [| lia].
  intros _. by rewrite IH by lia.
Qed.

Lemma dropLeading_nil (cutset : string) (l : list ascii) :
  dropLeading cutset l = [] ↔ forallb (inCutset cutset) l = true.
Proof.
  induction l as [|c l IH]; [done |]. simpl.
  destruct (inCutset cutset c); [done |]. split; done.
Qed.

Lemma dropLeading_head (cutset : string) (l : list ascii) :
  forallb (inCutset cutset) (dropLeading cutset l) = true →
  dropLeading cutset l = [].
Proof.
  induction l as [|c l IH]; [done |]. simpl.
  destruct (inCutset cutset c) eqn:Hc; [done |]. simpl. by rewrite Hc.
Qed.

Lemma forallb_rev {A} (f : A → bool) (l : list A) :
  forallb f (rev l) = forallb f l.
Proof.
  induction l as [|x l IH]; [done |]. simpl.
  rewrite forallb_app, IH. simpl. rewrite andb_true_r. apply andb_comm.
Qed.

Lemma string_of_list_ascii_nil (l : list ascii) :
  String.eqb (string_of_list_ascii l) "" = true ↔ l = [].
Proof. by destruct l. Qed.

Lemma Trim_empty (s cutset : string) :
  String.eqb (Trim s cutset) "" =
    forallb (inCutset cutset) (list_ascii_of_string s).
Proof.
  unfold Trim. set (l := list_ascii_of_string s).
  apply eq_true_iff_eq. rewrite string_of_list_ascii_nil. split.
  - intros H. apply dropLeading_nil, dropLeading_head.
    rewrite <- forallb_rev. apply dropLeading_nil.
    destruct (dropLeading cutset (rev (dropLeading cutset l))); [done |].
    simpl in H. by destruct (rev _).
  - intros H%dropLeading_nil. by rewrite H.
Qed.

Lemma tagNumber_find (l : list string) :
  List.find (λ s, (0 <? String.length s)%nat &&
                  String.eqb (Trim s "0123456789") "") l
    = List.find isNumeric l.
Proof.
  induction l as [|s l IH]; [done |]. simpl. unfold isNumeric at 1.
  rewrite Trim_empty. by rewrite IH.
Qed.

End Tags.

(** X29.  The field number of a struct field is the first element of its
    comma-separated [protobuf] tag that is not empty and made of decimal
    digits only: an element that is not such a number is passed over, and
    what follows a number is not looked at. *)
Theorem tagNumber_elements (e rest : string) :
  GoStrings.IndexByte e "," = (-1)%Z →
  tagNumber e = (if isNumeric e then Some (GoTags.ParseUint e) else None) ∧
  tagNumber (e ++ "," ++ rest) =
    (if isNumeric e then Some (GoTags.ParseUint e) else tagNumber rest).
Proof.
  intros He. unfold tagNumber. rewrite !tagNumber_find.
  rewrite (Split_nocomma e He), (Split_element e rest He). simpl.
  by destruct (isNumeric e).
Qed.

(** X30.  Every field of a record shape, taken by [Type.Field], has an
    offset that [offsetOf] accepts, and [apply] with this offset on a
    record of the shape gives the address of that very field; it fails on
    no field of the shape. *)
Theorem offsetOf_apply (st : reflect.structType) (slots : list slot)
    (i : nat) (f : reflect.StructField) :
  reflect.Field (reflect.structFields st) i = Ok f →
  length slots = length (reflect.structFields st) →
  offsetOf f ≫= apply (pointerOfIface (recordOf st slots)) =
    Ok (mkPointer (mkReflectValue (recordOf st slots) (Some i))).
Proof.
  unfold reflect.Field. intros Hf Hlen.
  destruct (reflect.structFields st !! i) as [d|] eqn:Hd; [| done].
  injection Hf as <-. simpl. apply apply_record.
  rewrite Hlen. by eapply lookup_lt_Some.
Qed.

(** ** Instances *)

Section ImplInstances.
Import ImplExamples ImplSamples.

Lemma fields_flagSet : fields (mi flagSet) = {[1%Z := flagInfo]}.
Proof. vm_compute. reflexivity. Defined.

Lemma readable_flagSet : readable flagSet.
Proof.
  intros n fi Hn. rewrite fields_flagSet in Hn.
  apply lookup_singleton_Some in Hn as [<- <-].
  split; eexists; vm_compute; reflexivity.
Defined.

Lemma Len_counts_witness :
  ∃ ns : list pref.FieldNumber,
    NoDup ns ∧ (∀ n, n ∈ ns ↔ Has flagSet n = Ok true) ∧
    Len flagSet = Ok (length ns).
Proof. exact (Len_counts flagSet readable_flagSet). Defined.

Lemma Range_present_witness :
  ∃ l : list (pref.FieldNumber * pref.Value),
    NoDup l.*1 ∧
    (∀ n x, (n, x) ∈ l ↔ Has flagSet n = Ok true ∧ Get flagSet n = Ok x) ∧
    ∀ St (f : fieldCallback St) (s : St),
      Range flagSet f s = Ok (rangeEntries l f s).2.
Proof. exact (Range_present flagSet readable_flagSet). Defined.

(** On the sample, [Range] visits field 1 with the value that was set and
    [Len] is one. *)
Example Range_flagSet :
  Range flagSet collect [] = Ok [(1%Z, pref.OfBool false)] ∧
  Len flagSet = Ok 1%nat.
Proof. split; vm_compute; reflexivity. Qed.

Local Abbreviation initSample :=
  (init notImplemented notImplemented notImplemented notImplemented).

Lemma init_first_accepts_witness :
  ∃ mi' t st md,
    initSample (newMessageType flagDesc) (newRecord flagStruct) = Ok mi' ∧
    TypeOf (newRecord flagStruct) = Some t ∧
    reflect.Elem t = Ok (reflect.StructOf st) ∧
    Desc (newMessageType flagDesc) = Some md ∧
    once mi' = true ∧ goType mi' = Some t ∧ Desc mi' = Some md.
Proof.
  destruct (initSample (newMessageType flagDesc) (newRecord flagStruct))
    as [mi'|x] eqn:Hinit; [| by vm_compute in Hinit].
  destruct (init_first_accepts notImplemented notImplemented notImplemented
              notImplemented (newMessageType flagDesc) mi'
              (newRecord flagStruct) eq_refl Hinit) as (t & st & md & H).
  by exists mi', t, st, md.
Defined.

Lemma init_first_panics_witness :
  initSample (newMessageType flagDesc) None
    = Panic (RuntimePanic "reflect: call of reflect.Value.Type on zero Value") ∧
  initSample (newMessageType flagDesc) structByValue
    = Panic (RuntimePanic "reflect: Elem of invalid type") ∧
  initSample (newMessageType flagDesc) sliceOfInt = Panic WantStructKind.
Proof.
  destruct (init_first_panics notImplemented notImplemented notImplemented
              notImplemented (newMessageType flagDesc) None eq_refl)
    as (H1 & _).
  destruct (init_first_panics notImplemented notImplemented notImplemented
              notImplemented (newMessageType flagDesc) structByValue eq_refl)
    as (_ & H2 & _).
  destruct (init_first_panics notImplemented notImplemented notImplemented
              notImplemented (newMessageType flagDesc) sliceOfInt eq_refl)
    as (_ & _ & H3 & _).
  split; [by apply H1 |]. split; [by eapply H2 |].
  by eapply (H3 _ (reflect.Basic reflect.Int)).
Defined.

Lemma generateFieldFuncs_domain_witness :
  ∃ table st d,
    generateFieldFuncs notImplemented notImplemented notImplemented
      notImplemented (reflect.StructOf choiceStruct) (Some choiceDesc)
      = Ok table ∧
    reflect.StructOf choiceStruct = reflect.StructOf st ∧
    Some choiceDesc = Some d ∧
    ∀ n, is_Some (table !! n) ↔ n ∈ pref.Number <$> pref.Fields d.
Proof.
  destruct (generateFieldFuncs notImplemented notImplemented notImplemented
              notImplemented (reflect.StructOf choiceStruct) (Some choiceDesc))
    as [table|x] eqn:Htable; [| by vm_compute in Htable].
  destruct (generateFieldFuncs_domain notImplemented notImplemented
              notImplemented notImplemented _ _ table Htable)
    as (st & d & H).
  by exists table, st, d.
Defined.

Lemma MessageOf_wraps_witness :
  ∃ msg m t,
    MessageOf notImplemented notImplemented notImplemented notImplemented
      (newMessageType flagDesc) (newRecord flagStruct) = Ok msg ∧
    msg = wrapped m ∧ TypeOf (newRecord flagStruct) = Some t ∧
    message_Unwrap kindType m = Ok (newRecord flagStruct) ∧
    message_Type m = Some (mkGoMessage (Desc (newMessageType flagDesc)) t) ∧
    KnownFieldsOf notImplemented notImplemented notImplemented notImplemented
      (newMessageType flagDesc) (newRecord flagStruct)
      = Ok (message_KnownFields m).
Proof.
  destruct (MessageOf notImplemented notImplemented notImplemented
              notImplemented (newMessageType flagDesc) (newRecord flagStruct))
    as [msg|x] eqn:Hmsg; [| by vm_compute in Hmsg].
  destruct (MessageOf_wraps notImplemented notImplemented notImplemented
              notImplemented kindType (newMessageType flagDesc)
              (newRecord flagStruct) msg eq_refl eq_refl Hmsg)
    as (m & t & H).
  by exists msg, m, t.
Defined.

Lemma tagNumber_elements_witness :
  tagNumber "varint" = (if isNumeric "varint"
                        then Some (GoTags.ParseUint "varint") else None) ∧
  tagNumber ("varint" ++ "," ++ "1,opt,name=flag") =
    (if isNumeric "varint" then Some (GoTags.ParseUint "varint")
     else tagNumber "1,opt,name=flag").
Proof. exact (tagNumber_elements "varint" "1,opt,name=flag" eq_refl). Defined.

Lemma offsetOf_apply_witness :
  offsetOf (reflect.fieldOfDecl 1
              (reflect.mkFieldDecl "XXX_unrecognized" [] false reflect.Slice))
    ≫= apply (pointerOfIface (recordOf flagStruct [slotZero; slotZero])) =
  Ok (mkPointer
        (mkReflectValue (recordOf flagStruct [slotZero; slotZero]) (Some 1%nat))).
Proof.
  exact (offsetOf_apply flagStruct [slotZero; slotZero] 1 _ eq_refl eq_refl).
Defined.

End ImplInstances.
